(** * MakeTimingModel: boundary timing-model extraction (search/MakeTimingModel.cc)

    A shallow embedding of [MakeTimingModel], [MakeEndTimingArcs] and
    [OutputDelays].  The collaborators the file drives (Sta, Sdc, Search,
    Graph, Network, LibertyBuilder) live in other translation units; they
    appear here either as fields of the [Engine] record (queries whose
    answers the extraction only consumes) or as small state transformers on
    the [World] record (constraint installation and removal, the builder's
    arc list). *)

From Stdlib Require Import SpecFloat.
From stdpp Require Import base option list sorting gmap fin_maps strings pretty.

Set Default Proof Using "Type".

(** ** Transitions, extremes and two-element arrays *)

Inductive Index2 := I0 | I1.

Inductive RiseFall := rise | fall.
Inductive MinMax := min | max.
Inductive RiseFallBoth := rf_rise | rf_fall | rf_rise_fall.
Inductive MinMaxAll := mm_min | mm_max | mm_all.

Global Instance Index2_eq_dec : EqDecision Index2.
Proof. solve_decision. Defined.
Global Instance RiseFall_eq_dec : EqDecision RiseFall.
Proof. solve_decision. Defined.
Global Instance MinMax_eq_dec : EqDecision MinMax.
Proof. solve_decision. Defined.

Global Instance RiseFall_countable : Countable RiseFall.
Proof.
  refine (inj_countable' (λ r, match r with rise => false | fall => true end)
                         (λ b : bool, if b then fall else rise) _).
  by intros [].
Defined.
Global Instance MinMax_countable : Countable MinMax.
Proof.
  refine (inj_countable' (λ m, match m with min => false | max => true end)
                         (λ b : bool, if b then max else min) _).
  by intros [].
Defined.

Module RF.
(** [RiseFall::riseIndex()] is 0 and [RiseFall::fallIndex()] is 1. *)
Definition riseIndex : Index2 := I0.
Definition fallIndex : Index2 := I1.
Definition index (rf : RiseFall) : Index2 :=
    match rf with rise => riseIndex | fall => fallIndex end.
(** [RiseFall::range()] *)
Definition range : list RiseFall := [rise; fall].
Definition asRiseFallBoth (rf : RiseFall) : RiseFallBoth :=
    match rf with rise => rf_rise | fall => rf_fall end.
(** [RiseFallBoth::range()] : the transitions a rise/fall/both covers. *)
Definition both_range (rf : RiseFallBoth) : list RiseFall :=
    match rf with
    | rf_rise => [rise] | rf_fall => [fall] | rf_rise_fall => [rise; fall]
    end.
End RF.

Module MM.
Definition index (mm : MinMax) : Index2 :=
    match mm with min => I0 | max => I1 end.
(** [MinMax::range()] *)
Definition range : list MinMax := [min; max].
Definition asMinMaxAll (mm : MinMax) : MinMaxAll :=
    match mm with min => mm_min | max => mm_max end.
(** [MinMaxAll::range()] *)
Definition all_range (mm : MinMaxAll) : list MinMax :=
    match mm with
    | mm_min => [min] | mm_max => [max] | mm_all => [min; max]
    end.
End MM.

(** A C array [T a[2]]. *)
Record Array2 (A : Type) := mkArray2 { at0 : A; at1 : A }.
Arguments mkArray2 {A} _ _.
Arguments at0 {A} _.
Arguments at1 {A} _.

Definition aget {A} (a : Array2 A) (i : Index2) : A :=
  match i with I0 => at0 a | I1 => at1 a end.
Definition aset {A} (a : Array2 A) (i : Index2) (x : A) : Array2 A :=
  match i with
  | I0 => mkArray2 x (at1 a)
  | I1 => mkArray2 (at0 a) x
  end.
Definition afill {A} (x : A) : Array2 A := mkArray2 x x.

(** [a[i][j]] and [a[i][j] = x] on [T a[2][2]]. *)
Definition aget2 {A} (a : Array2 (Array2 A)) (i j : Index2) : A :=
  aget (aget a i) j.
Definition aset2 {A} (a : Array2 (Array2 A)) (i j : Index2) (x : A)
  : Array2 (Array2 A) :=
  aset a i (aset (aget a i) j x).

(** ** Unateness *)

Inductive TimingSense :=
| positive_unate | negative_unate | non_unate | sense_none | sense_unknown.

(** ** Floating-point delays

    [Delay], [Arrival], [Slew] and [ArcDelay] are all C [float].  The
    extraction only subtracts, adds and compares them, so the arithmetic is
    an interface: every statement below holds for whatever these
    operations do on the real machine. *)

Class FloatOps (F : Type) := {
  f_zero : F;
  f_sub : F → F → F;
  f_add : F → F → F;
  f_gt : F → F → bool;
  f_lt : F → F → bool;
}.

Section Extraction.
Context {Delay : Type} `{!FloatOps Delay}.

(** ** RiseFallMinMax *)

(** Modelled from the spec: class [RiseFallMinMax] (RiseFallMinMax.cc is
    not part of this file).  A matrix indexed by (transition, min/max)
    "holding a single scalar value per cell"; a cell either exists with
    its value or does not exist. *)
Definition RiseFallMinMax : Type := Array2 (Array2 (option Delay)).

Definition rfmm_empty : RiseFallMinMax := afill (afill None).

(** [value(rf, min_max, value, exists)] *)
Definition rfmm_value (m : RiseFallMinMax) (rf : RiseFall) (mm : MinMax)
  : option Delay :=
  aget2 m (RF.index rf) (MM.index mm).

(** Modelled from the spec: [RiseFallMinMax::setValue(rf, min_max, v)];
    "each scalar value slot is OVERWRITTEN per write, not merged". *)
Definition rfmm_setValue (m : RiseFallMinMax) (rf : RiseFall) (mm : MinMax)
    (v : Delay) : RiseFallMinMax :=
  aset2 m (RF.index rf) (MM.index mm) (Some v).

(** Modelled from the spec: [MinMax::compare(v1, v2)]; [v1] is worse than
    [v2] for this extreme (larger for max, smaller for min). *)
Definition mm_compare (mm : MinMax) (v1 v2 : Delay) : bool :=
  match mm with max => f_gt v1 v2 | min => f_lt v1 v2 end.

(** The worst of a stored cell and a new value. *)
Definition worst (mm : MinMax) (old : option Delay) (v : Delay) : Delay :=
  match old with
  | None => v
  | Some o => if mm_compare mm v o then v else o
  end.

(** Modelled from the spec: [RiseFallMinMax::mergeValue(rf, min_max, v)];
    the slot "is updated by taking the WORST (MinMax-consistent) of
    existing vs. new value". *)
Definition rfmm_mergeValue (m : RiseFallMinMax) (rf : RiseFall) (mm : MinMax)
    (v : Delay) : RiseFallMinMax :=
  aset2 m (RF.index rf) (MM.index mm) (Some (worst mm (rfmm_value m rf mm) v)).

(** ** OutputDelays *)

Record OutputDelays := mkOutputDelays {
  delays : RiseFallMinMax;
  rf_path_exists : Array2 (Array2 bool);
}.

(** [OutputDelays::OutputDelays()] *)
Definition OutputDelays_new : OutputDelays :=
  let m := afill (afill false) in
  let m := aset2 m RF.riseIndex RF.riseIndex false in
  let m := aset2 m RF.riseIndex RF.fallIndex false in
  let m := aset2 m RF.fallIndex RF.riseIndex false in
  let m := aset2 m RF.fallIndex RF.fallIndex false in
  mkOutputDelays rfmm_empty m.

(** [OutputDelays::timingSense()] *)
Definition timingSense (od : OutputDelays) : TimingSense :=
  let e := aget2 (rf_path_exists od) in
  if e RF.riseIndex RF.riseIndex
     && e RF.riseIndex RF.fallIndex
     && e RF.fallIndex RF.riseIndex
     && e RF.fallIndex RF.fallIndex
  then non_unate
  else if e RF.riseIndex RF.riseIndex
          && e RF.fallIndex RF.fallIndex
          && negb (e RF.riseIndex RF.fallIndex)
          && negb (e RF.fallIndex RF.riseIndex)
  then positive_unate
  else if e RF.riseIndex RF.fallIndex
          && e RF.fallIndex RF.riseIndex
          && negb (e RF.riseIndex RF.riseIndex)
          && negb (e RF.fallIndex RF.fallIndex)
  then negative_unate
  else if e RF.riseIndex RF.riseIndex
          || e RF.riseIndex RF.fallIndex
          || e RF.fallIndex RF.riseIndex
          || e RF.fallIndex RF.fallIndex
  then non_unate
  else sense_none.

(** The classification as the specification words it: one row per
    pattern of (rise→rise, rise→fall, fall→rise, fall→fall). *)
Definition timingSense_spec (rr rf fr ff : bool) : TimingSense :=
  match rr, rf, fr, ff with
  | true, true, true, true => non_unate
  | true, false, false, true => positive_unate
  | false, true, true, false => negative_unate
  | false, false, false, false => sense_none
  | _, _, _, _ => non_unate
  end.

(** ** Design objects *)

Abbreviation Pin := nat (only parsing).
Abbreviation Port := nat (only parsing).
Abbreviation Clock := nat (only parsing).
Abbreviation Vertex := nat (only parsing).
Abbreviation Corner := nat (only parsing).
(** [clk->edge(rf)] : a clock and one of its transitions. *)
Abbreviation ClockEdge := (nat * RiseFall)%type (only parsing).

Inductive PortDirection :=
| dir_input | dir_output | dir_tristate | dir_bidirect
| dir_internal | dir_ground | dir_power | dir_unknown.

Definition isInput (d : PortDirection) : bool :=
  match d with dir_input => true | _ => false end.
Definition isOutput (d : PortDirection) : bool :=
  match d with dir_output => true | _ => false end.

Inductive TimingRole :=
| role_setup | role_hold | role_regClkToQ | role_combinational.

Inductive ScaleFactorType := sf_setup | sf_hold | sf_cell.

Inductive TableTemplateType :=
| tt_delay | tt_power | tt_output_current | tt_ocv.

(** ** Table models *)

Record TableTemplate := mkTableTemplate { template_name : string }.

Inductive Table := Table0 (value : Delay).

Record TableModel := mkTableModel {
  table : Table;
  tbl_template : option TableTemplate;
  scale_factor_type : ScaleFactorType;
  tm_rf : RiseFall;
}.

(** The second argument of each constructor pair is the sigma-model
    array, always [nullptr] here. *)
Inductive TimingModel :=
| CheckTableModel (model : TableModel) (sigma_models : option TableModel)
| GateTableModel (delay_model : TableModel)
                 (delay_sigma_models : option TableModel)
                 (slew_model : TableModel)
                 (slew_sigma_models : option TableModel).

(** Modelled from the spec: [TimingArcAttrs] (TimingArc.cc is not part
    of this file); "an attribute bundle of per-transition models",
    together with the sense of the arc set under construction. *)
Record TimingArcAttrs := mkTimingArcAttrs {
  timing_sense : TimingSense;
  models : Array2 (option TimingModel);
}.

(** [TimingArcAttrs::TimingArcAttrs()] *)
Definition TimingArcAttrs_new : TimingArcAttrs :=
  mkTimingArcAttrs sense_unknown (afill None).
Definition setModel (attrs : TimingArcAttrs) (rf : RiseFall) (m : TimingModel)
  : TimingArcAttrs :=
  mkTimingArcAttrs (timing_sense attrs) (aset (models attrs) (RF.index rf) (Some m)).
Definition setTimingSense (attrs : TimingArcAttrs) (s : TimingSense)
  : TimingArcAttrs :=
  mkTimingArcAttrs s (models attrs).

(** ** The output library and cell *)

Record Unit := mkUnit {
  unit_scale : Delay; unit_suffix : string; unit_digits : nat }.

Record Units := mkUnits {
  timeUnit : Unit; capacitanceUnit : Unit; voltageUnit : Unit;
  resistanceUnit : Unit; pullingResistanceUnit : Unit;
  powerUnit : Unit; distanceUnit : Unit;
}.

Record BusDcl := mkBusDcl { bus_name : string; bus_from : Z; bus_to : Z }.

Record LibertyLibrary := mkLibertyLibrary {
  lib_name : string;
  lib_filename : string;
  units : Units;
  inputThreshold : Array2 Delay;
  outputThreshold : Array2 Delay;
  slewLowerThreshold : Array2 Delay;
  slewUpperThreshold : Array2 Delay;
  delayModelType : nat;
  nominalProcess : Delay;
  nominalVoltage : Delay;
  nominalTemperature : Delay;
  bus_dcls : list BusDcl;
  (** [template_maps_[type]] : name -> template *)
  template_maps : TableTemplateType → gmap string TableTemplate;
}.

(** Modelled from the spec: [LibertyLibrary::findTableTemplate(name,
    type)] (Liberty.cc is not part of this file); "find a named scalar
    table template".  A null result is [None]. *)
Definition findTableTemplate (lib : LibertyLibrary) (name : string)
    (type : TableTemplateType) : option TableTemplate :=
  template_maps lib type !! name.

(** A port of the model cell; arcs refer to ports by name, the key
    [findLibertyPort] looks them up with. *)
Record LibertyPort := mkLibertyPort {
  lp_name : string;
  lp_direction : option PortDirection;
  lp_capacitance : option Delay;
  lp_bus : option (Z * Z);
}.

(** What a builder call leaves in the cell.  [from_port] and [to_port]
    are what [modelPort] returned, null included. *)
Inductive TimingArcSet :=
| FromTransitionArcs (from_port to_port related_out : option string)
    (from_rf : RiseFall) (role : TimingRole) (attrs : TimingArcAttrs)
| CombinationalArcs (from_port to_port related_out : option string)
    (to_rise to_fall : bool) (attrs : TimingArcAttrs).

Record LibertyCell := mkLibertyCell {
  cell_name : string;
  cell_filename : string;
  cell_ports : list LibertyPort;
  arc_sets : list TimingArcSet;
  finished : bool;
}.

(** Modelled from the spec: [LibertyCell::findLibertyPort(name)]
    (Liberty.cc is not part of this file); the "pin→port name-lookup
    table used by all later components".  A null result is [None]. *)
Definition findLibertyPort (cell : LibertyCell) (name : string)
  : option string :=
  if bool_decide (name ∈ lp_name <$> cell_ports cell) then Some name else None.


(** ** Constraints, search state and the world the extraction runs in *)

(** One slot of an input or output delay: (pin, reference clock edge,
    data transition, extreme). *)
Abbreviation DelayKey := (nat * (nat * RiseFall) * RiseFall * MinMax)%type
  (only parsing).

Record Sdc := mkSdc {
  input_delays : gmap DelayKey Delay;
  output_delays : gmap DelayKey Delay;
  propagated_clocks : gset Clock;
}.

(** [ExceptionFrom] and [ExceptionTo]: null sets are [None]. *)
Record ExceptionFrom := mkExceptionFrom {
  from_pins : option (gset Pin);
  from_clks : option (gset Clock);
  from_insts : option (gset nat);
  from_rf : RiseFallBoth;
}.

Record ExceptionTo := mkExceptionTo {
  to_pins : option (gset Pin);
  to_clks : option (gset Clock);
  to_insts : option (gset nat);
  to_rf : RiseFallBoth;
  to_end_rf : RiseFallBoth;
}.

(** [INF] and [-INF] as slack limits. *)
Inductive SlackLimit := minus_INF | plus_INF.

(** The arguments of [Sta::findPathEnds], in order; [thrus] and [groups]
    are null in the only call and are left out. *)
Record PathEndQuery := mkPathEndQuery {
  q_from : ExceptionFrom;
  q_to : ExceptionTo;
  q_unconstrained : bool;
  q_corner : Corner;
  q_min_max : MinMaxAll;
  q_group_count : nat;
  q_endpoint_count : nat;
  q_unique_pins : bool;
  q_slack_min : SlackLimit;
  q_slack_max : SlackLimit;
  q_sort_by_slack : bool;
  q_setup : bool;
  q_hold : bool;
  q_recovery : bool;
  q_removal : bool;
  q_clk_gating_setup : bool;
  q_clk_gating_hold : bool;
}.

(** The search engine's filtered arrivals: absent, or computed for a
    scope under the constraints in force at that moment. *)
Record Search := mkSearch {
  filtered_arrivals : option (Sdc * ExceptionFrom);
}.

(** A path end as the extraction reads it.  The ends the visitor is
    handed are checks against a clocked element, so each has a target
    clock edge. *)
Record PathEnd := mkPathEnd {
  targetClkEdge : ClockEdge;
  pe_minMax : MinMax;
  pe_arrival : Delay;       (* path()->arrival() *)
  pe_slew : Delay;          (* path()->slew() *)
  targetClkDelay : Delay;
  pe_margin : Delay;        (* margin() *)
}.

(** An arrival path at a vertex. *)
Record PathVertex := mkPathVertex {
  pv_id : nat;
  pv_transition : RiseFall;
  pv_minMax : MinMax;
  pv_arrival : Delay;
}.

(** The calls made on Sta, Sdc and Search, in the order made. *)
Inductive Call :=
| SetPropagatedClock (clk : Clock)
| SearchPreamble
| SetInputDelay (pin : Pin) (rf : RiseFallBoth) (clk : Clock)
    (clk_rf : RiseFall) (mm : MinMaxAll) (delay : Delay)
| RemoveInputDelay (pin : Pin) (rf : RiseFallBoth) (clk : Clock)
    (clk_rf : RiseFall) (mm : MinMaxAll)
| DeleteFilteredArrivals
| FindFilteredArrivals (from : ExceptionFrom)
| VisitPathEnds (v : Vertex) (corner : Corner) (mm : MinMaxAll)
    (filtered : bool)
| SetOutputDelay (pin : Pin) (rf : RiseFallBoth) (clk : Clock)
    (clk_rf : RiseFall) (mm : MinMaxAll) (delay : Delay)
| RemoveOutputDelay (pin : Pin) (rf : RiseFallBoth) (clk : Clock)
    (clk_rf : RiseFall) (mm : MinMaxAll)
| FindPathEnds (q : PathEndQuery).

Record World := mkWorld {
  sdc : Sdc;
  search : Search;
  library_ : LibertyLibrary;
  cell_ : LibertyCell;
  trace : list Call;
}.

(** ** The collaborators that are only asked questions

    Network, graph, delay calculator and the search engine's answers.
    The answers of the search engine depend on the constraints and on
    the filtered arrivals present when it is asked. *)
Record Engine := mkEngine {
  (* Network *)
  top_ports : list Port;                 (* portIterator(top_cell) *)
  port_name : Port → string;
  isBus : Port → bool;
  fromIndex : Port → Z;
  toIndex : Port → Z;
  port_direction : Port → PortDirection;
  memberIterator : Port → list Port;
  findPin : Port → Pin;                  (* findPin(top_inst, port) *)
  top_pins : list Pin;                   (* pinIterator(topInstance()) *)
  pin_port : Pin → Port;                 (* port(pin) *)
  pin_direction : Pin → PortDirection;
  (* Addresses of the objects used as keys of a [std::map] *)
  clock_edge_address : ClockEdge → N;    (* of [clk->edge(rf)] *)
  pin_address : Pin → N;
  makeLibertyLibrary : string → string → LibertyLibrary;
  defaultLibertyLibrary : LibertyLibrary;
  (* Sdc, read only *)
  clocks : list Clock;
  clock_pins : Clock → list Pin;
  isClockSrc : Pin → bool;
  defaultArrivalClock : Clock;
  defaultArrivalClockEdge : ClockEdge;
  (* Corner, graph and delay calculation *)
  corner_ : Corner;
  dcalc_ap_index : Corner → MinMax → nat;
  loadCap : Pin → nat → Delay;
  pinLoadVertex : Pin → Vertex;
  graph_slew : Vertex → RiseFall → nat → Delay;
  (* Search *)
  endpoints : Sdc → Search → list Vertex;
  pathEnds : Sdc → Search → Vertex → Corner → MinMaxAll → bool → list PathEnd;
  vertexPaths : Sdc → Search → Vertex → list PathVertex;
  matchesFilter : Sdc → Search → PathVertex → bool;
  findPathEnds : Sdc → PathEndQuery → list PathEnd;
}.

Context (E : Engine).

(** ** State passing *)

Definition M (A : Type) : Type := World → A * World.

Definition ret {A} (a : A) : M A := λ w, (a, w).
Definition bind {A B} (m : M A) (k : A → M B) : M B :=
  λ w, let '(a, w') := m w in k a w'.
Definition get : M World := λ w, (w, w).

Notation "x <- m ;; k" := (bind m (λ x, k))
  (at level 100, m at next level, right associativity,
   format "'[v' x  <-  m  ;;  '/' k ']'").
Notation "m ;; k" := (bind m (λ _, k))
  (at level 100, right associativity).

(** [for (x : l) body] *)
Fixpoint for_each {A} (l : list A) (body : A → M unit) : M unit :=
  match l with
  | [] => ret tt
  | x :: l' => body x ;; for_each l' body
  end.

(** A loop that also updates local variables [s]. *)
Fixpoint fold_each {A S} (l : list A) (body : S → A → M S) (s : S) : M S :=
  match l with
  | [] => ret s
  | x :: l' => s' <- body s x ;; fold_each l' body s'
  end.

Definition set_sdc (f : Sdc → Sdc) : M unit :=
  λ w, (tt, mkWorld (f (sdc w)) (search w) (library_ w) (cell_ w) (trace w)).
Definition set_search (s : Search) : M unit :=
  λ w, (tt, mkWorld (sdc w) s (library_ w) (cell_ w) (trace w)).
Definition set_library (l : LibertyLibrary) : M unit :=
  λ w, (tt, mkWorld (sdc w) (search w) l (cell_ w) (trace w)).
Definition set_cell (f : LibertyCell → LibertyCell) : M unit :=
  λ w, (tt, mkWorld (sdc w) (search w) (library_ w) (f (cell_ w)) (trace w)).
Definition call (c : Call) : M unit :=
  λ w, (tt, mkWorld (sdc w) (search w) (library_ w) (cell_ w) (trace w ++ [c])).

(** ** Constraint installation and removal, as Sta performs them *)

(** The slots a call with a rise/fall/both transition and a min/max/all
    extreme addresses. *)
Definition delay_keys (pin : Pin) (rf : RiseFallBoth) (clk : Clock)
    (clk_rf : RiseFall) (mm : MinMaxAll) : list DelayKey :=
  rf' ← RF.both_range rf; mm' ← MM.all_range mm; [(pin, (clk, clk_rf), rf', mm')].

Definition install_keys (ks : list DelayKey) (v : Delay)
    (m : gmap DelayKey Delay) : gmap DelayKey Delay :=
  foldr (λ k, <[k := v]>) m ks.
Definition remove_keys (ks : list DelayKey)
    (m : gmap DelayKey Delay) : gmap DelayKey Delay :=
  foldr delete m ks.

(** The constraints with their input (or output) delays changed. *)
Definition with_input_delays (f : gmap DelayKey Delay → gmap DelayKey Delay)
    (s : Sdc) : Sdc :=
  mkSdc (f (input_delays s)) (output_delays s) (propagated_clocks s).
Definition with_output_delays (f : gmap DelayKey Delay → gmap DelayKey Delay)
    (s : Sdc) : Sdc :=
  mkSdc (input_delays s) (f (output_delays s)) (propagated_clocks s).

(** Modelled from the spec: [Sta::setInputDelay] (Sta.cc is not part of
    this file); "install a transient zero-value input arrival (an input
    delay ... relative to the design's default arrival clock) on that
    pin/transition".  The arguments that are constant in the only call
    (no reference pin, latencies not included, not additive) are left
    out. *)
Definition setInputDelay (pin : Pin) (rf : RiseFallBoth) (clk : Clock)
    (clk_rf : RiseFall) (mm : MinMaxAll) (delay : Delay) : M unit :=
  call (SetInputDelay pin rf clk clk_rf mm delay) ;;
  set_sdc (with_input_delays
             (install_keys (delay_keys pin rf clk clk_rf mm) delay)).

(** Modelled from the spec: [Sta::removeInputDelay]; "remove the
    transient input arrival". *)
Definition removeInputDelay (pin : Pin) (rf : RiseFallBoth) (clk : Clock)
    (clk_rf : RiseFall) (mm : MinMaxAll) : M unit :=
  call (RemoveInputDelay pin rf clk clk_rf mm) ;;
  set_sdc (with_input_delays (remove_keys (delay_keys pin rf clk clk_rf mm))).

(** Modelled from the spec: [Sta::setOutputDelay]; "install a transient
    output-delay constraint ... on that output/transition relative to
    that clock/transition". *)
Definition setOutputDelay (pin : Pin) (rf : RiseFallBoth) (clk : Clock)
    (clk_rf : RiseFall) (mm : MinMaxAll) (delay : Delay) : M unit :=
  call (SetOutputDelay pin rf clk clk_rf mm delay) ;;
  set_sdc (with_output_delays
             (install_keys (delay_keys pin rf clk clk_rf mm) delay)).

(** Modelled from the spec: [Sta::removeOutputDelay]; "remove the
    transient output-delay constraint". *)
Definition removeOutputDelay (pin : Pin) (rf : RiseFallBoth) (clk : Clock)
    (clk_rf : RiseFall) (mm : MinMaxAll) : M unit :=
  call (RemoveOutputDelay pin rf clk clk_rf mm) ;;
  set_sdc (with_output_delays (remove_keys (delay_keys pin rf clk clk_rf mm))).

(** [Sta::setPropagatedClock(clk)] (Sta.cc is not part of this file;
    the specification is silent about it): going by its name, it marks
    the clock propagated in the constraints. *)
Definition setPropagatedClock (clk : Clock) : M unit :=
  call (SetPropagatedClock clk) ;;
  set_sdc (λ s, mkSdc (input_delays s) (output_delays s)
                      ({[clk]} ∪ propagated_clocks s)).

(** [Sta::searchPreamble()] (Sta.cc is not part of this file): brings
    graph and delays up to date; constraints and model are not its
    business. *)
Definition searchPreamble : M unit := call SearchPreamble.

(** [Sta::makeExceptionFrom(pins, clks, insts, rf)] and
    [Sta::makeExceptionTo(pins, clks, insts, rf, end_rf)] *)
Definition makeExceptionFrom := mkExceptionFrom.
Definition makeExceptionTo := mkExceptionTo.

(** Modelled from the spec: [Search::deleteFilteredArrivals];
    "clear any cached filtered-arrival state in the search engine". *)
Definition deleteFilteredArrivals : M unit :=
  call DeleteFilteredArrivals ;; set_search (mkSearch None).

(** Modelled from the spec: [Search::findFilteredArrivals(from, nullptr,
    nullptr, false)]; "request a filtered search scoped to paths whose
    origin is exactly this pin and transition". *)
Definition findFilteredArrivals (from : ExceptionFrom) : M unit :=
  call (FindFilteredArrivals from) ;;
  w <- get ;;
  set_search (mkSearch (Some (sdc w, from))).

(** [*search_->endpoints()] *)
Definition search_endpoints : M (list Vertex) :=
  w <- get ;; ret (endpoints E (sdc w) (search w)).

(** [Sta::findPathEnds(...)] *)
Definition sta_findPathEnds (q : PathEndQuery) : M (list PathEnd) :=
  call (FindPathEnds q) ;;
  w <- get ;; ret (findPathEnds E (sdc w) q).

(** ** The builder *)

(** [MakeTimingModel::modelPort] *)
Definition modelPort (pin : Pin) : M (option string) :=
  w <- get ;; ret (findLibertyPort (cell_ w) (port_name E (pin_port E pin))).

Definition add_arc_set (a : TimingArcSet) (c : LibertyCell) : LibertyCell :=
  mkLibertyCell (cell_name c) (cell_filename c) (cell_ports c)
                (arc_sets c ++ [a]) (finished c).

(** Modelled from the spec: [LibertyBuilder::makeFromTransitionArcs] and
    [LibertyBuilder::makeCombinationalArcs] (LibertyBuilder.cc is not
    part of this file); "create timing arcs with an attribute bundle of
    per-transition models".  The cell keeps one arc set per call. *)
Definition makeFromTransitionArcs (from_port to_port related_out : option string)
    (from_rf : RiseFall) (role : TimingRole) (attrs : TimingArcAttrs) : M unit :=
  set_cell (add_arc_set
              (FromTransitionArcs from_port to_port related_out from_rf role attrs)).
Definition makeCombinationalArcs (from_port to_port related_out : option string)
    (to_rise to_fall : bool) (attrs : TimingArcAttrs) : M unit :=
  set_cell (add_arc_set
              (CombinationalArcs from_port to_port related_out to_rise to_fall attrs)).

(** ** Scalar model builder *)

(** [MakeTimingModel::makeScalarCheckModel] *)
Definition makeScalarCheckModel (value : Delay)
    (scale_factor_type : ScaleFactorType) (rf : RiseFall) : M TimingModel :=
  w <- get ;;
  let table := Table0 value in
  let tbl_template := findTableTemplate (library_ w) "scalar" tt_delay in
  let table_model := mkTableModel table tbl_template scale_factor_type rf in
  let check_model := CheckTableModel table_model None in
  ret check_model.

(** [MakeTimingModel::makeScalarGateModel] *)
Definition makeScalarGateModel (delay slew : Delay) (rf : RiseFall)
  : M TimingModel :=
  w <- get ;;
  let delay_table := Table0 delay in
  let slew_table := Table0 slew in
  let tbl_template := findTableTemplate (library_ w) "scalar" tt_delay in
  let delay_model := mkTableModel delay_table tbl_template sf_cell rf in
  let slew_model := mkTableModel slew_table tbl_template sf_cell rf in
  let gate_model := GateTableModel delay_model None slew_model None in
  ret gate_model.


(** ** MakeEndTimingArcs: the path-end visitor *)

Record MakeEndTimingArcs := mkMakeEndTimingArcs {
  input_pin_ : option Pin;
  input_rf_ : option RiseFall;
  margins_ : gmap ClockEdge RiseFallMinMax;     (* ClockMargins *)
}.

(** [MakeEndTimingArcs::MakeEndTimingArcs(sta)] *)
Definition MakeEndTimingArcs_new : MakeEndTimingArcs :=
  mkMakeEndTimingArcs None None ∅.

(** [MakeEndTimingArcs::setInputPin] *)
Definition setInputPin (v : MakeEndTimingArcs) (input_pin : Pin)
  : MakeEndTimingArcs :=
  mkMakeEndTimingArcs (Some input_pin) (input_rf_ v) ∅.

(** [MakeEndTimingArcs::setInputRf] *)
Definition setInputRf (v : MakeEndTimingArcs) (input_rf : RiseFall)
  : MakeEndTimingArcs :=
  mkMakeEndTimingArcs (input_pin_ v) (Some input_rf) (margins_ v).

(** [float margin = data_arrival - clk_latency + check_setup] *)
Definition path_end_margin (path_end : PathEnd) : Delay :=
  let data_arrival := pe_arrival path_end in
  let clk_latency := targetClkDelay path_end in
  let check_setup := pe_margin path_end in
  f_add (f_sub data_arrival clk_latency) check_setup.

(** [margins_[tgt_clk_edge]] : the entry, default-constructed when the
    key is new. *)
Definition margins_at (m : gmap ClockEdge RiseFallMinMax) (ce : ClockEdge)
  : RiseFallMinMax :=
  default rfmm_empty (m !! ce).

(** [MakeEndTimingArcs::visit], debug output left out.  The visitor is
    only called after [setInputRf]; with no transition set it has
    nowhere to write. *)
Definition visit (v : MakeEndTimingArcs) (path_end : PathEnd)
  : MakeEndTimingArcs :=
  let tgt_clk_edge := targetClkEdge path_end in
  let min_max := pe_minMax path_end in
  let margin := path_end_margin path_end in
  match input_rf_ v with
  | Some input_rf =>
      let margins := margins_at (margins_ v) tgt_clk_edge in
      mkMakeEndTimingArcs (input_pin_ v) (input_rf_ v)
        (<[tgt_clk_edge := rfmm_setValue margins input_rf min_max margin]>
           (margins_ v))
  | None => v
  end.

(** [VisitPathEnds::visitPathEnds(end, corner, min_max, filtered,
    visitor)]: the visitor sees every path end of the vertex in turn. *)
Definition visitPathEnds (vertex : Vertex) (corner : Corner)
    (min_max : MinMaxAll) (filtered : bool) (visitor : MakeEndTimingArcs)
  : M MakeEndTimingArcs :=
  call (VisitPathEnds vertex corner min_max filtered) ;;
  w <- get ;;
  ret (foldl visit visitor
             (pathEnds E (sdc w) (search w) vertex corner min_max filtered)).

(** ** Input-driven propagation *)

(** [output_pin_delays[output_pin]] : the entry, default-constructed
    when the key is new. *)
Definition output_delays_at (m : gmap Pin OutputDelays) (pin : Pin)
  : OutputDelays :=
  default OutputDelays_new (m !! pin).

(** The body of the path loop of [findOutputDelays]. *)
Definition recordOutputPath (s : Sdc) (sr : Search) (input_rf : RiseFall)
    (output_pin : Pin) (output_pin_delays : gmap Pin OutputDelays)
    (path : PathVertex) : gmap Pin OutputDelays :=
  if matchesFilter E s sr path then
    let output_rf := pv_transition path in
    let min_max := pv_minMax path in
    let delay := pv_arrival path in
    let od := output_delays_at output_pin_delays output_pin in
    let od := mkOutputDelays (rfmm_mergeValue (delays od) output_rf min_max delay)
                             (rf_path_exists od) in
    let od := mkOutputDelays (delays od)
                (aset2 (rf_path_exists od) (RF.index input_rf)
                       (RF.index output_rf) true) in
    <[output_pin := od]> output_pin_delays
  else output_pin_delays.

(** The body of the pin loop of [findOutputDelays]. *)
Definition findOutputDelays_pin (s : Sdc) (sr : Search) (input_rf : RiseFall)
    (output_pin_delays : gmap Pin OutputDelays) (output_pin : Pin)
  : gmap Pin OutputDelays :=
  if isOutput (pin_direction E output_pin) then
    let output_vertex := pinLoadVertex E output_pin in
    foldl (recordOutputPath s sr input_rf output_pin) output_pin_delays
          (vertexPaths E s sr output_vertex)
  else output_pin_delays.

(** [MakeTimingModel::findOutputDelays] *)
Definition findOutputDelays (input_rf : RiseFall)
    (output_pin_delays : gmap Pin OutputDelays) : M (gmap Pin OutputDelays) :=
  w <- get ;;
  ret (foldl (findOutputDelays_pin (sdc w) (search w) input_rf)
             output_pin_delays (top_pins E)).

(** ** Arc synthesis *)

(** [for (auto entry : m)] over a [std::map] keyed by pointer
    ([ClockMargins] and [OutputPinDelays] of MakeTimingModelPvt.hh): the
    entries come once each, in increasing order of the address of their
    key. *)
Definition walk {K V} `{Countable K} (address : K → N) (m : gmap K V)
  : list (K * V) :=
  merge_sort (H := λ x y, decide (address x.1 ≤ address y.1)%N)
             (λ x y, (address x.1 ≤ address y.1)%N) (map_to_list m).

(** [min_max_], set to [MinMax::max()] by the constructor. *)
Definition min_max_ : MinMax := max.

(** The transition loop of [makeSetupHoldTimingArcs]: one check model
    per transition with a margin, in a bundle created on first use. *)
Definition setupHoldAttrs_rf (margins : RiseFallMinMax) (min_max : MinMax)
    (setup : bool) (attrs : option TimingArcAttrs) (input_rf : RiseFall)
  : M (option TimingArcAttrs) :=
  match rfmm_value margins input_rf min_max with
  | Some margin =>
      let scale_type := if setup then sf_setup else sf_hold in
      check_model <- makeScalarCheckModel margin scale_type input_rf ;;
      let attrs := match attrs with
                   | None => TimingArcAttrs_new
                   | Some a => a
                   end in
      ret (Some (setModel attrs input_rf check_model))
  | None => ret attrs
  end.

(** The body of the min/max loop of [makeSetupHoldTimingArcs]. *)
Definition makeSetupHoldTimingArcs_mm (input_pin : Pin) (clk_edge : ClockEdge)
    (margins : RiseFallMinMax) (min_max : MinMax) : M unit :=
  let setup := bool_decide (min_max = max) in
  attrs <- fold_each RF.range (setupHoldAttrs_rf margins min_max setup) None ;;
  match attrs with
  | Some attrs =>
      input_port <- modelPort input_pin ;;
      for_each (clock_pins E clk_edge.1) (λ clk_pin,
        clk_port <- modelPort clk_pin ;;
        let clk_rf := clk_edge.2 in
        let role := if setup then role_setup else role_hold in
        makeFromTransitionArcs clk_port input_port None clk_rf role attrs)
  | None => ret tt
  end.

(** [MakeTimingModel::makeSetupHoldTimingArcs].  [ClockMargins] is a
    [std::map] keyed by [const ClockEdge*]: it is walked in the order
    of the addresses of the clock edges. *)
Definition makeSetupHoldTimingArcs (input_pin : Pin)
    (clk_margins : gmap ClockEdge RiseFallMinMax) : M unit :=
  for_each (walk (clock_edge_address E) clk_margins) (λ clk_edge_margins,
    let clk_edge := clk_edge_margins.1 in
    let margins := clk_edge_margins.2 in
    for_each MM.range (makeSetupHoldTimingArcs_mm input_pin clk_edge margins)).

(** The transition loop of [makeInputOutputTimingArcs]. *)
Definition inputOutputAttrs_rf (output_pin : Pin) (output_delays : OutputDelays)
    (attrs : option TimingArcAttrs) (output_rf : RiseFall)
  : M (option TimingArcAttrs) :=
  let min_max := max in
  match rfmm_value (delays output_delays) output_rf min_max with
  | Some delay =>
      let output_vertex := pinLoadVertex E output_pin in
      let slew := graph_slew E output_vertex output_rf
                             (dcalc_ap_index E (corner_ E) min_max_) in
      gate_model <- makeScalarGateModel delay slew output_rf ;;
      let attrs := match attrs with
                   | None => TimingArcAttrs_new
                   | Some a => a
                   end in
      ret (Some (setModel attrs output_rf gate_model))
  | None => ret attrs
  end.

(** The body of the output-pin loop of [makeInputOutputTimingArcs]. *)
Definition makeInputOutputTimingArcs_pin (input_pin : Pin)
    (out_pin_delay : Pin * OutputDelays) : M unit :=
  let output_pin := out_pin_delay.1 in
  let output_delays := out_pin_delay.2 in
  attrs <- fold_each RF.range (inputOutputAttrs_rf output_pin output_delays) None ;;
  match attrs with
  | Some attrs =>
      output_port <- modelPort output_pin ;;
      input_port <- modelPort input_pin ;;
      let attrs := setTimingSense attrs (timingSense output_delays) in
      makeCombinationalArcs input_port output_port None true true attrs
  | None => ret tt
  end.

(** [MakeTimingModel::makeInputOutputTimingArcs].  [OutputPinDelays] is
    a [std::map] keyed by [const Pin*]: it is walked in the order of the
    addresses of the pins. *)
Definition makeInputOutputTimingArcs (input_pin : Pin)
    (output_pin_delays : gmap Pin OutputDelays) : M unit :=
  for_each (walk (pin_address E) output_pin_delays)
           (makeInputOutputTimingArcs_pin input_pin).

(** ** findTimingFromInputs *)

(** The body of the transition loop of [findTimingFromInputs]; the
    locals it updates are the visitor and [output_delays]. *)
Definition findTimingFromInputs_rf (input_pin : Pin)
    (locals : MakeEndTimingArcs * gmap Pin OutputDelays) (input_rf : RiseFall)
  : M (MakeEndTimingArcs * gmap Pin OutputDelays) :=
  let end_visitor := locals.1 in
  let output_delays := locals.2 in
  let input_rf1 := RF.asRiseFallBoth input_rf in
  setInputDelay input_pin input_rf1 (defaultArrivalClock E)
                (defaultArrivalClockEdge E).2 mm_all f_zero ;;
  let from_pins := {[input_pin]} in
  let from := makeExceptionFrom (Some from_pins) None None input_rf1 in
  deleteFilteredArrivals ;;
  findFilteredArrivals from ;;
  let end_visitor := setInputRf end_visitor input_rf in
  ends <- search_endpoints ;;
  end_visitor <- fold_each ends (λ visitor end_,
                   visitPathEnds end_ (corner_ E) mm_all true visitor)
                 end_visitor ;;
  output_delays <- findOutputDelays input_rf output_delays ;;
  removeInputDelay input_pin input_rf1 (defaultArrivalClock E)
                   (defaultArrivalClockEdge E).2 mm_all ;;
  ret (end_visitor, output_delays).

(** The body of the pin loop of [findTimingFromInputs]; the visitor
    outlives the loop. *)
Definition findTimingFromInputs_pin (end_visitor : MakeEndTimingArcs)
    (input_pin : Pin) : M MakeEndTimingArcs :=
  if isInput (pin_direction E input_pin) && negb (isClockSrc E input_pin) then
    let end_visitor := setInputPin end_visitor input_pin in
    let output_delays : gmap Pin OutputDelays := ∅ in
    locals <- fold_each RF.range (findTimingFromInputs_rf input_pin)
                        (end_visitor, output_delays) ;;
    let end_visitor := locals.1 in
    let output_delays := locals.2 in
    makeSetupHoldTimingArcs input_pin (margins_ end_visitor) ;;
    makeInputOutputTimingArcs input_pin output_delays ;;
    ret end_visitor
  else ret end_visitor.

(** [MakeTimingModel::findTimingFromInputs] *)
Definition findTimingFromInputs : M unit :=
  let end_visitor := MakeEndTimingArcs_new in
  fold_each (top_pins E) findTimingFromInputs_pin end_visitor ;;
  ret tt.

(** ** findClkedOutputPaths *)

(** The query of [findClkedOutputPaths], with the arguments of the call
    to [findPathEnds] in source order. *)
Definition clkedOutputQuery (output_pin : Pin) (clk : Clock)
    (clk_rf output_rf : RiseFall) : PathEndQuery :=
  let output_rf1 := RF.asRiseFallBoth output_rf in
  let min_max1 := MM.asMinMaxAll max in
  let from_clks := {[clk]} in
  let from := makeExceptionFrom None (Some from_clks) None
                                (RF.asRiseFallBoth clk_rf) in
  let to_pins := {[output_pin]} in
  let to := makeExceptionTo (Some to_pins) None None output_rf1 output_rf1 in
  mkPathEndQuery from to false (corner_ E) min_max1 1 1 false
                 minus_INF plus_INF false true false false false false false.

(** The body of the output-transition loop of [findClkedOutputPaths]. *)
Definition findClkedOutputPaths_rf (output_pin : Pin) (clk : Clock)
    (clk_rf : RiseFall) (attrs : option TimingArcAttrs) (output_rf : RiseFall)
  : M (option TimingArcAttrs) :=
  let output_rf1 := RF.asRiseFallBoth output_rf in
  let min_max := max in
  let min_max1 := MM.asMinMaxAll min_max in
  setOutputDelay output_pin output_rf1 clk clk_rf min_max1 f_zero ;;
  ends <- sta_findPathEnds (clkedOutputQuery output_pin clk clk_rf output_rf) ;;
  attrs <- match ends with
           | end_ :: _ =>
               let delay := pe_arrival end_ in
               let slew := pe_slew end_ in
               gate_model <- makeScalarGateModel delay slew output_rf ;;
               let attrs := match attrs with
                            | None => TimingArcAttrs_new
                            | Some a => a
                            end in
               ret (Some (setModel attrs output_rf gate_model))
           | [] => ret attrs
           end ;;
  removeOutputDelay output_pin output_rf1 clk clk_rf mm_max ;;
  ret attrs.

(** The body of the clock-transition loop of [findClkedOutputPaths]. *)
Definition findClkedOutputPaths_clk_rf (output_pin : Pin)
    (output_port : option string) (clk : Clock) (clk_port : option string)
    (clk_rf : RiseFall) : M unit :=
  attrs <- fold_each RF.range (findClkedOutputPaths_rf output_pin clk clk_rf)
                     None ;;
  match attrs with
  | Some attrs =>
      makeFromTransitionArcs clk_port output_port None clk_rf role_regClkToQ attrs
  | None => ret tt
  end.

(** The body of the output-pin loop of [findClkedOutputPaths]. *)
Definition findClkedOutputPaths_pin (output_pin : Pin) : M unit :=
  if isOutput (pin_direction E output_pin) then
    output_port <- modelPort output_pin ;;
    for_each (clocks E) (λ clk,
      for_each (clock_pins E clk) (λ clk_pin,
        clk_port <- modelPort clk_pin ;;
        for_each RF.range
          (findClkedOutputPaths_clk_rf output_pin output_port clk clk_port)))
  else ret tt.

(** [MakeTimingModel::findClkedOutputPaths] *)
Definition findClkedOutputPaths : M unit :=
  for_each (top_pins E) findClkedOutputPaths_pin.


(** ** Boundary cell builder *)

(** [MakeTimingModel::makeLibrary] *)
Definition makeLibrary (cell_name filename : string) : M unit :=
  let lib := makeLibertyLibrary E cell_name filename in
  let default_lib := defaultLibertyLibrary E in
  let du := units default_lib in
  let u := mkUnits (timeUnit du) (capacitanceUnit du) (voltageUnit du)
                   (resistanceUnit du) (pullingResistanceUnit du)
                   (powerUnit du) (distanceUnit du) in
  let copy_rf (get : LibertyLibrary → Array2 Delay) :=
    foldl (λ a rf, aset a (RF.index rf) (aget (get default_lib) (RF.index rf)))
          (get lib) RF.range in
  set_library
    (mkLibertyLibrary (lib_name lib) (lib_filename lib) u
       (copy_rf inputThreshold) (copy_rf outputThreshold)
       (copy_rf slewLowerThreshold) (copy_rf slewUpperThreshold)
       (delayModelType default_lib) (nominalProcess default_lib)
       (nominalVoltage default_lib) (nominalTemperature default_lib)
       (bus_dcls lib) (template_maps lib)).

(** Modelled from the spec: [LibertyBuilder::makeCell], [makePort] and
    [makeBusPort] (LibertyBuilder.cc is not part of this file): a cell
    starts with no ports and no arcs; a bus port comes with "one
    bit-port per member". *)
Definition builder_makeCell (cell_name filename : string) : LibertyCell :=
  mkLibertyCell cell_name filename [] [] false.

Definition add_port (p : LibertyPort) (c : LibertyCell) : LibertyCell :=
  mkLibertyCell (cell_name c) (cell_filename c) (cell_ports c ++ [p])
                (arc_sets c) (finished c).

Definition builder_makePort (name : string) : M (option string) :=
  set_cell (add_port (mkLibertyPort name None None None)) ;;
  ret (Some name).

Definition bus_indices (from_index to_index : Z) : list Z :=
  if (from_index <=? to_index)%Z
  then (λ i, from_index + Z.of_nat i)%Z
         <$> seq 0 (Z.to_nat (to_index - from_index + 1))
  else (λ i, from_index - Z.of_nat i)%Z
         <$> seq 0 (Z.to_nat (from_index - to_index + 1)).

Definition bus_bit_name (name : string) (i : Z) : string :=
  name +:+ "[" +:+ pretty i +:+ "]".

Definition builder_makeBusPort (name : string) (from_index to_index : Z)
  : M (option string) :=
  set_cell (add_port (mkLibertyPort name None None (Some (from_index, to_index)))) ;;
  for_each (bus_indices from_index to_index) (λ i,
    set_cell (add_port (mkLibertyPort (bus_bit_name name i) None None None))) ;;
  ret (Some name).

(** [port->setDirection(d)], [port->setCapacitance(c)] through a port
    pointer; nothing to write through a null one. *)
Definition update_port (port : option string) (f : LibertyPort → LibertyPort)
  : M unit :=
  match port with
  | Some name =>
      set_cell (λ c, mkLibertyCell (cell_name c) (cell_filename c)
                       ((λ p, if bool_decide (lp_name p = name) then f p else p)
                          <$> cell_ports c)
                       (arc_sets c) (finished c))
  | None => ret tt
  end.
Definition setDirection (port : option string) (d : PortDirection) : M unit :=
  update_port port (λ p, mkLibertyPort (lp_name p) (Some d)
                                       (lp_capacitance p) (lp_bus p)).
Definition setCapacitance (port : option string) (cap : Delay) : M unit :=
  update_port port (λ p, mkLibertyPort (lp_name p) (lp_direction p)
                                       (Some cap) (lp_bus p)).

Definition addBusDcl (d : BusDcl) : M unit :=
  w <- get ;;
  let l := library_ w in
  set_library
    (mkLibertyLibrary (lib_name l) (lib_filename l) (units l)
       (inputThreshold l) (outputThreshold l)
       (slewLowerThreshold l) (slewUpperThreshold l)
       (delayModelType l) (nominalProcess l)
       (nominalVoltage l) (nominalTemperature l)
       (bus_dcls l ++ [d]) (template_maps l)).

(** [MakeTimingModel::makeCell] *)
Definition makeCell (cell_name filename : string) : M unit :=
  set_cell (λ _, builder_makeCell cell_name filename).

(** [MakeTimingModel::makePorts] *)
Definition makePorts : M unit :=
  let dcalc_ap := dcalc_ap_index E (corner_ E) min_max_ in
  for_each (top_ports E) (λ port,
    let name := port_name E port in
    if isBus E port then
      let from_index := fromIndex E port in
      let to_index := toIndex E port in
      let bus_dcl := mkBusDcl name from_index to_index in
      addBusDcl bus_dcl ;;
      lib_port <- builder_makeBusPort name from_index to_index ;;
      setDirection lib_port (port_direction E port) ;;
      for_each (memberIterator E port) (λ bit_port,
        let pin := findPin E bit_port in
        lib_bit_port <- modelPort pin ;;
        let load_cap := loadCap E pin dcalc_ap in
        setCapacitance lib_bit_port load_cap)
    else
      lib_port <- builder_makePort name ;;
      setDirection lib_port (port_direction E port) ;;
      let pin := findPin E port in
      let load_cap := loadCap E pin dcalc_ap in
      setCapacitance lib_port load_cap).

(** Modelled from the spec: [cell_->finish(false, report_, debug_)];
    the cell is "finalized (validated/sealed) at the end of the run". *)
Definition cell_finish : M unit :=
  set_cell (λ c, mkLibertyCell (cell_name c) (cell_filename c) (cell_ports c)
                               (arc_sets c) true).

(** ** makeTimingModel *)

(** [MakeTimingModel::makeTimingModel]; [graph_ = sta_->graph()] only
    caches a pointer and is left out. *)
Definition makeTimingModel (cell_name filename : string) : M LibertyLibrary :=
  makeLibrary cell_name filename ;;
  makeCell cell_name filename ;;
  makePorts ;;
  for_each (clocks E) setPropagatedClock ;;
  searchPreamble ;;
  findTimingFromInputs ;;
  findClkedOutputPaths ;;
  cell_finish ;;
  w <- get ;;
  ret (library_ w).


(** ** Readings used in the statements *)

(** [rf_path_exists[in_rf->index()][out_rf->index()]] *)
Definition path_exists (od : OutputDelays) (in_rf out_rf : RiseFall) : bool :=
  aget2 (rf_path_exists od) (RF.index in_rf) (RF.index out_rf).

(** The path ends of a visited sequence that write the slot
    (clock edge, extreme). *)
Definition writes_slot (ce : ClockEdge) (mm : MinMax) (pe : PathEnd) : bool :=
  bool_decide (targetClkEdge pe = ce) && bool_decide (pe_minMax pe = mm).

(** The arrival paths that write the slot (output transition, extreme). *)
Definition in_slot (out_rf : RiseFall) (mm : MinMax) (p : PathVertex) : bool :=
  bool_decide (pv_transition p = out_rf) && bool_decide (pv_minMax p = mm).

(** The arrival paths of an output pin that match the active filter:
    those [findOutputDelays] records. *)
Definition matching_paths (s : Sdc) (sr : Search) (output_pin : Pin)
  : list PathVertex :=
  if bool_decide (output_pin ∈ top_pins E)
     && isOutput (pin_direction E output_pin)
  then filter (λ p, matchesFilter E s sr p)
              (vertexPaths E s sr (pinLoadVertex E output_pin))
  else [].

(** The worst of a stored value and a run of arrivals, as the
    specification words it and with the comparison spelled out: going
    through the arrivals in order, an arrival replaces the kept value
    when it is greater for max, less for min; it is kept as it is when
    nothing was stored. *)
Definition worst_of (mm : MinMax) (old : option Delay) (ps : list PathVertex)
  : option Delay :=
  foldl (λ kept p,
           match kept, mm with
           | None, _ => Some (pv_arrival p)
           | Some o, max => if f_gt (pv_arrival p) o
                            then Some (pv_arrival p) else Some o
           | Some o, min => if f_lt (pv_arrival p) o
                            then Some (pv_arrival p) else Some o
           end) old ps.

(** The world and the result a computation ends with. *)
Definition exec {A} (m : M A) (w : World) : World := (m w).2.
Definition eval {A} (m : M A) (w : World) : A := (m w).1.

(** The world with arc sets appended to the cell, in order. *)
Definition add_arc_sets (l : list TimingArcSet) (w : World) : World :=
  mkWorld (sdc w) (search w) (library_ w)
          (mkLibertyCell (cell_name (cell_ w)) (cell_filename (cell_ w))
                         (cell_ports (cell_ w)) (arc_sets (cell_ w) ++ l)
                         (finished (cell_ w)))
          (trace w).

(** The boundary port of a pin in the cell of a world. *)
Definition port_of (w : World) (pin : Pin) : option string :=
  findLibertyPort (cell_ w) (port_name E (pin_port E pin)).

(** The "scalar" template of the library of a world. *)
Definition scalar_template (w : World) : option TableTemplate :=
  findTableTemplate (library_ w) "scalar" tt_delay.

(** One-entry constant models, as the specification describes them. *)
Definition scalar_check_model (w : World) (value : Delay)
    (scale : ScaleFactorType) (rf : RiseFall) : TimingModel :=
  CheckTableModel (mkTableModel (Table0 value) (scalar_template w) scale rf) None.
Definition scalar_gate_model (w : World) (delay slew : Delay) (rf : RiseFall)
  : TimingModel :=
  GateTableModel (mkTableModel (Table0 delay) (scalar_template w) sf_cell rf) None
                 (mkTableModel (Table0 slew) (scalar_template w) sf_cell rf) None.

(** The bundle holding the given per-transition models, none otherwise;
    no bundle when both are missing. *)
Definition bundle (m_rise m_fall : option TimingModel) : option TimingArcAttrs :=
  match m_rise, m_fall with
  | None, None => None
  | _, _ => Some (mkTimingArcAttrs sense_unknown (mkArray2 m_rise m_fall))
  end.

(** Setup/hold synthesis as the specification words it, for one clock
    edge and one extreme: "for each input transition that has a
    recorded margin, build one scalar check model and attach it, keyed
    by transition, to a shared bundle.  If the bundle is non-empty ...
    emit one checking arc from every pin of the clock edge's clock to
    the input's boundary port, tagged with role setup or hold". *)
Definition setupHoldArcs_spec (w : World) (input_pin : Pin)
    (clk_edge : ClockEdge) (margins : RiseFallMinMax) (mm : MinMax)
  : list TimingArcSet :=
  let scale := match mm with max => sf_setup | min => sf_hold end in
  let role := match mm with max => role_setup | min => role_hold end in
  let model rf := (λ margin, scalar_check_model w margin scale rf)
                    <$> rfmm_value margins rf mm in
  match bundle (model rise) (model fall) with
  | Some attrs =>
      (λ clk_pin, FromTransitionArcs (port_of w clk_pin) (port_of w input_pin)
                                     None clk_edge.2 role attrs)
        <$> clock_pins E clk_edge.1
  | None => []
  end.

(** Input→output synthesis for one recorded output pin: the gate models
    of the transitions with a max delay, and the arc carrying them. *)
Definition inputOutputArcs_spec (w : World) (input_pin : Pin)
    (entry : Pin * OutputDelays) : list TimingArcSet :=
  let output_pin := entry.1 in
  let od := entry.2 in
  let model rf :=
    (λ delay, scalar_gate_model w delay
                (graph_slew E (pinLoadVertex E output_pin) rf
                            (dcalc_ap_index E (corner_ E) max)) rf)
      <$> rfmm_value (delays od) rf max in
  match bundle (model rise) (model fall) with
  | Some attrs =>
      [CombinationalArcs (port_of w input_pin) (port_of w output_pin) None
                         true true (setTimingSense attrs (timingSense od))]
  | None => []
  end.

(** The slots [findTimingFromInputs] installs for an input pin and
    transition, and the constraints with them installed or removed. *)
Definition input_delay_keys (input_pin : Pin) (input_rf : RiseFall)
  : list DelayKey :=
  delay_keys input_pin (RF.asRiseFallBoth input_rf) (defaultArrivalClock E)
             (defaultArrivalClockEdge E).2 mm_all.

(** The slots [findClkedOutputPaths] installs for an output pin and
    transition relative to a clock edge. *)
Definition output_delay_keys (output_pin : Pin) (clk : Clock)
    (clk_rf output_rf : RiseFall) : list DelayKey :=
  delay_keys output_pin (RF.asRiseFallBoth output_rf) clk clk_rf mm_max.

(** The scope of the filtered search of an input pin and transition. *)
Definition input_from (input_pin : Pin) (input_rf : RiseFall) : ExceptionFrom :=
  makeExceptionFrom (Some {[input_pin]}) None None (RF.asRiseFallBoth input_rf).

(** Constraints and filtered arrivals while an input transition is
    being analysed. *)
Definition input_sdc (s : Sdc) (input_pin : Pin) (input_rf : RiseFall) : Sdc :=
  with_input_delays (install_keys (input_delay_keys input_pin input_rf) f_zero) s.
Definition input_search (s : Sdc) (input_pin : Pin) (input_rf : RiseFall)
  : Search :=
  mkSearch (Some (input_sdc s input_pin input_rf, input_from input_pin input_rf)).

(** Constraints while a clock-to-output query runs. *)
Definition output_sdc (s : Sdc) (output_pin : Pin) (clk : Clock)
    (clk_rf output_rf : RiseFall) : Sdc :=
  with_output_delays
    (install_keys (output_delay_keys output_pin clk clk_rf output_rf) f_zero) s.

(** The calls that install or remove a constraint. *)
Definition is_constraint_call (c : Call) : bool :=
  match c with
  | SetInputDelay _ _ _ _ _ _ | RemoveInputDelay _ _ _ _ _
  | SetOutputDelay _ _ _ _ _ _ | RemoveOutputDelay _ _ _ _ _ => true
  | _ => false
  end.
Definition constraint_calls (tr : list Call) : list Call :=
  filter (λ c, is_constraint_call c) tr.

(** The input pins [findTimingFromInputs] analyses. *)
Definition analysed_input (pin : Pin) : bool :=
  isInput (pin_direction E pin) && negb (isClockSrc E pin).

(** What accumulated output delays look like: every recorded pin is a
    top-level output pin and at least one combination was realized. *)
Definition recorded_ok (opd : gmap Pin OutputDelays) : Prop :=
  ∀ p od, opd !! p = Some od →
    p ∈ top_pins E ∧ isOutput (pin_direction E p) = true
    ∧ ∃ in_rf out_rf, path_exists od in_rf out_rf = true.

(** The path ends a clock-to-output query returns under the constraints
    [s], its own output delay installed. *)
Definition clked_ends (s : Sdc) (output_pin : Pin) (clk : Clock)
    (clk_rf output_rf : RiseFall) : list PathEnd :=
  findPathEnds E (output_sdc s output_pin clk clk_rf output_rf)
               (clkedOutputQuery output_pin clk clk_rf output_rf).

(** The constraints once the output delay of a query is removed again. *)
Definition output_sdc_done (s : Sdc) (output_pin : Pin) (clk : Clock)
    (clk_rf output_rf : RiseFall) : Sdc :=
  with_output_delays
    (remove_keys (output_delay_keys output_pin clk clk_rf output_rf))
    (output_sdc s output_pin clk clk_rf output_rf).

(** The calls of one clock-to-output query. *)
Definition clked_calls (output_pin : Pin) (clk : Clock)
    (clk_rf output_rf : RiseFall) : list Call :=
  [SetOutputDelay output_pin (RF.asRiseFallBoth output_rf) clk clk_rf mm_max f_zero;
   FindPathEnds (clkedOutputQuery output_pin clk clk_rf output_rf);
   RemoveOutputDelay output_pin (RF.asRiseFallBoth output_rf) clk clk_rf mm_max].

(** The gate model of the first path end of a query, if there is one. *)
Definition clked_model (w : World) (ends : list PathEnd) (output_rf : RiseFall)
  : option TimingModel :=
  (λ end_, scalar_gate_model w (pe_arrival end_) (pe_slew end_) output_rf)
    <$> head ends.

(** The (output pin, clock, clock pin, clock transition) combinations
    [findClkedOutputPaths] goes through, in order. *)
Definition clked_combinations : list (Pin * Clock * Pin * RiseFall) :=
  output_pin ← filter (λ p, isOutput (pin_direction E p)) (top_pins E);
  clk ← clocks E;
  clk_pin ← clock_pins E clk;
  clk_rf ← RF.range;
  [(output_pin, clk, clk_pin, clk_rf)].

(** The (input pin, transition) combinations [findTimingFromInputs] goes
    through, in order. *)
Definition input_combinations : list (Pin * RiseFall) :=
  input_pin ← filter (λ p, analysed_input p) (top_pins E);
  input_rf ← RF.range;
  [(input_pin, input_rf)].

(** One combination of [findClkedOutputPaths], with the ports looked up
    in the cell of [w0]. *)
Definition clked_body (w0 : World) (c : Pin * Clock * Pin * RiseFall) : M unit :=
  let '(output_pin, clk, clk_pin, clk_rf) := c in
  findClkedOutputPaths_clk_rf output_pin (port_of w0 output_pin)
                              clk (port_of w0 clk_pin) clk_rf.

(** The output delays accumulated for an input pin over both
    transitions, as handed to [makeInputOutputTimingArcs]. *)
Definition accumulated_output_delays (v : MakeEndTimingArcs) (input_pin : Pin)
    (w : World) : gmap Pin OutputDelays :=
  (eval (fold_each RF.range (findTimingFromInputs_rf input_pin)
                   (setInputPin v input_pin, ∅)) w).2.

(** A computation that leaves the ports of the cell alone. *)
Definition preserves_ports {A} (m : M A) : Prop :=
  ∀ w, cell_ports (cell_ (m w).2) = cell_ports (cell_ w).

(** The constraint calls of one (input pin, transition) combination and
    of one clock-to-output combination. *)
Definition input_constraint_calls (c : Pin * RiseFall) : list Call :=
  [SetInputDelay c.1 (RF.asRiseFallBoth c.2) (defaultArrivalClock E)
                 (defaultArrivalClockEdge E).2 mm_all f_zero;
   RemoveInputDelay c.1 (RF.asRiseFallBoth c.2) (defaultArrivalClock E)
                    (defaultArrivalClockEdge E).2 mm_all].
Definition clked_constraint_calls (c : Pin * Clock * Pin * RiseFall)
  : list Call :=
  let '(output_pin, clk, _, clk_rf) := c in
  output_rf ← RF.range;
  [SetOutputDelay output_pin (RF.asRiseFallBoth output_rf) clk clk_rf mm_max f_zero;
   RemoveOutputDelay output_pin (RF.asRiseFallBoth output_rf) clk clk_rf mm_max].

(** Every delay slot the run installs. *)
Definition clked_keys (c : Pin * Clock * Pin * RiseFall) : list DelayKey :=
  let '(output_pin, clk, _, clk_rf) := c in
  output_rf ← RF.range; output_delay_keys output_pin clk clk_rf output_rf.
Definition run_input_keys : list DelayKey :=
  c ← input_combinations; input_delay_keys c.1 c.2.
Definition run_output_keys : list DelayKey :=
  c ← clked_combinations; clked_keys c.

Definition is_propagate_call (c : Call) : bool :=
  match c with SetPropagatedClock _ => true | _ => false end.

(** What a stretch of the run did to trace and constraints: it made
    the constraint calls [cs] (among others, none of them marking a
    clock propagated), emptied the input slots [ik] and the output slots
    [ok], and touched no other slot and no clock. *)
Definition run_summary (w w' : World) (cs : list Call)
    (ik ok : list DelayKey) : Prop :=
  (∃ tr, trace w' = trace w ++ tr ∧ constraint_calls tr = cs
         ∧ Forall (λ c, is_propagate_call c = false) tr)
  ∧ (∀ k, input_delays (sdc w') !! k
          = if decide (k ∈ ik) then None else input_delays (sdc w) !! k)
  ∧ (∀ k, output_delays (sdc w') !! k
          = if decide (k ∈ ok) then None else output_delays (sdc w) !! k)
  ∧ propagated_clocks (sdc w') = propagated_clocks (sdc w).

(** A computation that leaves constraints and trace alone. *)
Definition keeps_sta {A} (m : M A) : Prop :=
  ∀ w, sdc (m w).2 = sdc w ∧ trace (m w).2 = trace w.

(** What one matching path does to the entry of its output pin. *)
Definition record_path (input_rf : RiseFall) (od : OutputDelays)
    (p : PathVertex) : OutputDelays :=
  mkOutputDelays
    (rfmm_mergeValue (delays od) (pv_transition p) (pv_minMax p) (pv_arrival p))
    (aset2 (rf_path_exists od) (RF.index input_rf)
           (RF.index (pv_transition p)) true).

(** ** Readings used in the further properties *)

(** The other transition, and a sense with positive and negative
    exchanged. *)
Definition opposite (rf : RiseFall) : RiseFall :=
  match rf with rise => fall | fall => rise end.
Definition inverted (s : TimingSense) : TimingSense :=
  match s with
  | positive_unate => negative_unate
  | negative_unate => positive_unate
  | s => s
  end.

(** The path ends the visitor is shown while an input transition is
    analysed under the constraints [s], in the order shown. *)
Definition visited_ends (s : Sdc) (input_pin : Pin) (input_rf : RiseFall)
  : list PathEnd :=
  endpoints E (input_sdc s input_pin input_rf)
              (input_search s input_pin input_rf) ≫= λ end_,
    pathEnds E (input_sdc s input_pin input_rf)
               (input_search s input_pin input_rf) end_ (corner_ E) mm_all true.

(** The constraints once the input delay of a transition is removed
    again. *)
Definition input_sdc_done (s : Sdc) (input_pin : Pin) (input_rf : RiseFall)
  : Sdc :=
  with_input_delays (remove_keys (input_delay_keys input_pin input_rf))
                    (input_sdc s input_pin input_rf).

(** The arrival paths [findOutputDelays] records for an output pin
    while an input transition is analysed under the constraints [s]. *)
Definition recorded_paths (s : Sdc) (input_pin : Pin) (input_rf : RiseFall)
    (output_pin : Pin) : list PathVertex :=
  matching_paths (input_sdc s input_pin input_rf)
                 (input_search s input_pin input_rf) output_pin.

(** A computation that leaves a part of the world alone. *)
Definition keeps {A X} (π : World → X) (m : M A) : Prop :=
  ∀ w, π (m w).2 = π w.

(** The steps of [makeTimingModel] before the analysis. *)
Definition preamble (cell_name filename : string) : M unit :=
  makeLibrary cell_name filename ;;
  makeCell cell_name filename ;;
  makePorts ;;
  for_each (clocks E) setPropagatedClock ;;
  searchPreamble.

(** The library [makeTimingModel] is expected to return: name, file and
    templates of the library the network makes, units, thresholds, delay
    model and nominal conditions of the default library, and one more
    bus declaration per top-level bus port. *)
Definition model_library (cell_name filename : string) : LibertyLibrary :=
  let lib := makeLibertyLibrary E cell_name filename in
  let default_lib := defaultLibertyLibrary E in
  mkLibertyLibrary (lib_name lib) (lib_filename lib) (units default_lib)
    (inputThreshold default_lib) (outputThreshold default_lib)
    (slewLowerThreshold default_lib) (slewUpperThreshold default_lib)
    (delayModelType default_lib) (nominalProcess default_lib)
    (nominalVoltage default_lib) (nominalTemperature default_lib)
    (bus_dcls lib
     ++ ((λ port, mkBusDcl (port_name E port) (fromIndex E port) (toIndex E port))
           <$> filter (λ port, isBus E port) (top_ports E)))
    (template_maps lib).

(** The library port expected for a scalar top-level port. *)
Definition scalar_port (port : Port) : LibertyPort :=
  mkLibertyPort (port_name E port) (Some (port_direction E port))
    (Some (loadCap E (findPin E port) (dcalc_ap_index E (corner_ E) max)))
    None.

(** The names of the ports of the cell of a world. *)
Definition port_names (w : World) : list string :=
  lp_name <$> cell_ports (cell_ w).

(** The kinds of scalar model. *)
Definition is_check_model (m : TimingModel) : bool :=
  match m with CheckTableModel _ _ => true | GateTableModel _ _ _ _ => false end.
Definition is_gate_model (m : TimingModel) : bool :=
  match m with GateTableModel _ _ _ _ => true | CheckTableModel _ _ => false end.

(** A bundle that holds a model for at least one transition, all of its
    models being of one kind. *)
Definition carries_models (kind : TimingModel → bool) (attrs : TimingArcAttrs)
  : Prop :=
  (∃ rf, is_Some (aget (models attrs) (RF.index rf)))
  ∧ ∀ rf m, aget (models attrs) (RF.index rf) = Some m → kind m = true.

(** The three shapes of arc set the extraction makes, with the ports
    looked up in the cell of [w]: a setup or hold check from a clock
    pin to an analysed input, a register-clock-to-output arc from a pin
    of a design clock to a top-level output, and a combinational arc
    from an analysed input to a top-level output. *)
Definition model_arc (w : World) (a : TimingArcSet) : Prop :=
  match a with
  | FromTransitionArcs from_port to_port related_out from_rf role attrs =>
      related_out = None
      ∧ timing_sense attrs = sense_unknown
      ∧ (((role = role_setup ∨ role = role_hold)
          ∧ carries_models is_check_model attrs
          ∧ (∃ clk clk_pin,
               clk_pin ∈ clock_pins E clk ∧ from_port = port_of w clk_pin)
          ∧ (∃ input_pin,
               input_pin ∈ top_pins E ∧ analysed_input input_pin = true
               ∧ to_port = port_of w input_pin))
         ∨ (role = role_regClkToQ
            ∧ carries_models is_gate_model attrs
            ∧ (∃ clk clk_pin,
                 clk ∈ clocks E ∧ clk_pin ∈ clock_pins E clk
                 ∧ from_port = port_of w clk_pin)
            ∧ (∃ output_pin,
                 output_pin ∈ top_pins E
                 ∧ isOutput (pin_direction E output_pin) = true
                 ∧ to_port = port_of w output_pin)))
  | CombinationalArcs from_port to_port related_out to_rise to_fall attrs =>
      related_out = None ∧ to_rise = true ∧ to_fall = true
      ∧ timing_sense attrs ∈ [positive_unate; negative_unate; non_unate]
      ∧ carries_models is_gate_model attrs
      ∧ (∃ input_pin,
           input_pin ∈ top_pins E ∧ analysed_input input_pin = true
           ∧ from_port = port_of w input_pin)
      ∧ (∃ output_pin,
           output_pin ∈ top_pins E
           ∧ isOutput (pin_direction E output_pin) = true
           ∧ to_port = port_of w output_pin)
  end.

(** A stretch of the run that only appends arc sets of these shapes to
    the cell and leaves its ports alone. *)
Definition appends_model_arcs (w w' : World) : Prop :=
  cell_ports (cell_ w') = cell_ports (cell_ w)
  ∧ ∃ new, arc_sets (cell_ w') = arc_sets (cell_ w) ++ new
           ∧ Forall (model_arc w) new.

(** The recorded calls of one (input pin, transition) combination, in
    order: the installation of the input delay, the deletion of the
    filtered arrivals, the filtered search, one visit for each of the
    endpoints [ends], and the removal of the input delay. *)
Definition input_stretch (c : Pin * RiseFall) (ends : list Vertex)
  : list Call :=
  [SetInputDelay c.1 (RF.asRiseFallBoth c.2) (defaultArrivalClock E)
                 (defaultArrivalClockEdge E).2 mm_all f_zero;
   DeleteFilteredArrivals;
   FindFilteredArrivals (input_from c.1 c.2)]
  ++ ((λ e, VisitPathEnds e (corner_ E) mm_all true) <$> ends)
  ++ [RemoveInputDelay c.1 (RF.asRiseFallBoth c.2) (defaultArrivalClock E)
                       (defaultArrivalClockEdge E).2 mm_all].

(** All calls of one clock-to-output combination. *)
Definition clked_all_calls (c : Pin * Clock * Pin * RiseFall) : list Call :=
  let '(output_pin, clk, _, clk_rf) := c in
  output_rf ← RF.range; clked_calls output_pin clk clk_rf output_rf.

(** The analysed input pins, in order. *)
Definition analysed_inputs : list Pin :=
  filter (λ p, analysed_input p) (top_pins E).

(** Worlds that agree on library and cell, and on the constraints as
    well; the search state and the calls made so far may differ. *)
Definition same_model (w w' : World) : Prop :=
  library_ w = library_ w' ∧ cell_ w = cell_ w'.
Definition same_state (w w' : World) : Prop :=
  sdc w = sdc w' ∧ same_model w w'.

(** A computation whose result, library and cell depend on the world
    through library and cell only. *)
Definition respects {A} (m : M A) : Prop :=
  ∀ w w', same_model w w' → (m w).1 = (m w').1 ∧ same_model (m w).2 (m w').2.

(** Worlds that agree on the constraints, the library and the ports of
    the cell: all that the analysis reads of a world. *)
Definition same_base (w w' : World) : Prop :=
  sdc w = sdc w' ∧ library_ w = library_ w'
  ∧ cell_ports (cell_ w) = cell_ports (cell_ w').

(** The arcs the analysis of an input pin makes when it is run on its
    own in [w], with a fresh visitor: checks first, clock edge by clock
    edge in the order of their addresses, then combinational arcs,
    output pin by output pin in the order of their addresses. *)
Definition input_arcs (w : World) (input_pin : Pin) : list TimingArcSet :=
  (walk (clock_edge_address E)
     (margins_ (eval (findTimingFromInputs_pin MakeEndTimingArcs_new input_pin) w))
     ≫= λ cem, MM.range ≫= λ min_max,
          setupHoldArcs_spec w input_pin cem.1 cem.2 min_max)
  ++ (walk (pin_address E) (accumulated_output_delays MakeEndTimingArcs_new input_pin w)
        ≫= inputOutputArcs_spec w input_pin).

(** The arc of a clock-to-output combination when both of its queries
    are asked under the constraints of [w], each with its own output
    delay installed. *)
Definition clked_arcs (w : World) (c : Pin * Clock * Pin * RiseFall)
  : list TimingArcSet :=
  let '(output_pin, clk, clk_pin, clk_rf) := c in
  match bundle (clked_model w (clked_ends (sdc w) output_pin clk clk_rf rise) rise)
               (clked_model w (clked_ends (sdc w) output_pin clk clk_rf fall) fall)
  with
  | Some attrs => [FromTransitionArcs (port_of w clk_pin) (port_of w output_pin)
                                      None clk_rf role_regClkToQ attrs]
  | None => []
  end.

(** * Properties *)

Lemma aget_aset {A} (a : Array2 A) i j x :
  aget (aset a i x) j = if decide (i = j) then x else aget a j.
Proof. by destruct i, j. Qed.

Lemma aget2_aset2 {A} (a : Array2 (Array2 A)) i j i' j' x :
  aget2 (aset2 a i j x) i' j'
  = if decide (i = i' ∧ j = j') then x else aget2 a i' j'.
Proof. by destruct a as [[] []], i, j, i', j'. Qed.

Lemma RF_index_inj rf rf' : RF.index rf = RF.index rf' ↔ rf = rf'.
Proof. by destruct rf, rf'. Qed.
Lemma MM_index_inj mm mm' : MM.index mm = MM.index mm' ↔ mm = mm'.
Proof. by destruct mm, mm'. Qed.

Lemma rfmm_value_setValue m rf mm v rf' mm' :
  rfmm_value (rfmm_setValue m rf mm v) rf' mm'
  = if decide (rf = rf' ∧ mm = mm') then Some v else rfmm_value m rf' mm'.
Proof.
  unfold rfmm_value, rfmm_setValue. rewrite aget2_aset2.
  destruct rf, rf', mm, mm'; reflexivity.
Qed.

Lemma rfmm_value_mergeValue m rf mm v rf' mm' :
  rfmm_value (rfmm_mergeValue m rf mm v) rf' mm'
  = if decide (rf = rf' ∧ mm = mm')
    then Some (worst mm (rfmm_value m rf mm) v)
    else rfmm_value m rf' mm'.
Proof.
  unfold rfmm_mergeValue. unfold rfmm_value at 1. rewrite aget2_aset2.
  destruct rf, rf', mm, mm'; reflexivity.
Qed.

(** ** Unateness classification *)

Lemma timingSense_unfold (od : OutputDelays) :
  timingSense od
  = let rr := path_exists od rise rise in
    let rf := path_exists od rise fall in
    let fr := path_exists od fall rise in
    let ff := path_exists od fall fall in
    if rr && rf && fr && ff then non_unate
    else if rr && ff && negb rf && negb fr then positive_unate
    else if rf && fr && negb rr && negb ff then negative_unate
    else if rr || rf || fr || ff then non_unate
    else sense_none.
Proof. reflexivity. Qed.

(** ** The visitor's margins *)

Lemma margins_at_insert (m : gmap ClockEdge RiseFallMinMax) ce ce' x :
  margins_at (<[ce := x]> m) ce'
  = if decide (ce = ce') then x else margins_at m ce'.
Proof.
  unfold margins_at. case_decide; simplify_map_eq; done.
Qed.

Lemma visit_input_rf v pe : input_rf_ (visit v pe) = input_rf_ v.
Proof. unfold visit. by destruct (input_rf_ v) eqn:Hrf. Qed.

Lemma foldl_visit_input_rf v pes : input_rf_ (foldl visit v pes) = input_rf_ v.
Proof.
  revert v. induction pes as [|pe pes IH]; intros v; [done|].
  cbn. by rewrite IH, visit_input_rf.
Qed.

Lemma visit_value v input_rf pe ce rf mm :
  input_rf_ v = Some input_rf →
  rfmm_value (margins_at (margins_ (visit v pe)) ce) rf mm
  = if decide (rf = input_rf)
    then if writes_slot ce mm pe then Some (path_end_margin pe)
         else rfmm_value (margins_at (margins_ v) ce) rf mm
    else rfmm_value (margins_at (margins_ v) ce) rf mm.
Proof.
  intros Hrf. unfold visit, writes_slot. rewrite Hrf. cbn.
  rewrite margins_at_insert.
  destruct (decide (targetClkEdge pe = ce)) as [->|Hce].
  - rewrite rfmm_value_setValue, bool_decide_true by done. cbn.
    repeat case_decide; try case_bool_decide; naive_solver.
  - rewrite (bool_decide_false _ Hce). cbn. by case_decide.
Qed.

Lemma foldl_visit_value (v : MakeEndTimingArcs) (input_rf : RiseFall)
    (pes : list PathEnd) (ce : ClockEdge) (rf : RiseFall) (mm : MinMax) :
  rfmm_value
    (margins_at (margins_ (foldl visit (setInputRf v input_rf) pes)) ce) rf mm
  = let old := rfmm_value (margins_at (margins_ v) ce) rf mm in
    if decide (rf = input_rf) then
      match last (filter (λ pe, writes_slot ce mm pe) pes) with
      | Some pe => Some (path_end_margin pe)
      | None => old
      end
    else old.
Proof.
  cbn zeta. induction pes as [|pe pes IH] using rev_ind.
  - cbn. by case_decide.
  - rewrite foldl_app. cbn [foldl].
    rewrite (visit_value _ input_rf) by (by rewrite foldl_visit_input_rf).
    rewrite IH, filter_app. clear IH.
    case_decide; [|done].
    destruct (writes_slot ce mm pe) eqn:Hw.
    + rewrite filter_cons_True by (by rewrite Hw).
      rewrite filter_nil, last_snoc. reflexivity.
    + rewrite filter_cons_False by (rewrite Hw; intros []).
      rewrite filter_nil, app_nil_r. done.
Qed.

(** ** Output delays *)

Lemma output_delays_at_insert (m : gmap Pin OutputDelays) p p' x :
  output_delays_at (<[p := x]> m) p'
  = if decide (p = p') then x else output_delays_at m p'.
Proof. unfold output_delays_at. case_decide; simplify_map_eq; done. Qed.

Lemma recordOutputPath_eq s sr input_rf pin opd p :
  recordOutputPath s sr input_rf pin opd p
  = if matchesFilter E s sr p
    then <[pin := record_path input_rf (output_delays_at opd pin) p]> opd
    else opd.
Proof. reflexivity. Qed.

Lemma foldl_recordOutputPath s sr input_rf pin opd paths :
  foldl (recordOutputPath s sr input_rf pin) opd paths
  = match filter (λ p, matchesFilter E s sr p) paths with
    | [] => opd
    | l => <[pin := foldl (record_path input_rf) (output_delays_at opd pin) l]> opd
    end.
Proof.
  revert opd. induction paths as [|p paths IH]; intros opd; [done|].
  cbn [foldl]. rewrite IH, recordOutputPath_eq. clear IH.
  destruct (matchesFilter E s sr p) eqn:Hm.
  - rewrite filter_cons_True by (by rewrite Hm).
    rewrite output_delays_at_insert, decide_True by done.
    destruct (filter _ paths); [done|].
    by rewrite insert_insert_eq.
  - by rewrite filter_cons_False by (rewrite Hm; intros []).
Qed.

Lemma record_path_value input_rf od l out_rf mm :
  rfmm_value (delays (foldl (record_path input_rf) od l)) out_rf mm
  = worst_of mm (rfmm_value (delays od) out_rf mm)
             (filter (λ p, in_slot out_rf mm p) l).
Proof.
  revert od. induction l as [|p l IH]; intros od; [done|].
  cbn [foldl]. rewrite IH. cbn [record_path delays].
  rewrite rfmm_value_mergeValue.
  destruct (decide (pv_transition p = out_rf ∧ pv_minMax p = mm)) as [[<- <-]|Hn].
  - rewrite filter_cons_True
      by (unfold in_slot; by rewrite !bool_decide_true).
    unfold worst_of. cbn [foldl]. f_equal. unfold worst, mm_compare.
    destruct (rfmm_value (delays od) (pv_transition p) (pv_minMax p)) as [o|];
      [|done].
    destruct (pv_minMax p); by case_match.
  - rewrite filter_cons_False; [done|]. unfold in_slot.
    intros [?%bool_decide_unpack ?%bool_decide_unpack]%andb_True. tauto.
Qed.

Lemma record_path_exists input_rf od l in_rf out_rf :
  path_exists (foldl (record_path input_rf) od l) in_rf out_rf
  = path_exists od in_rf out_rf
    || bool_decide (in_rf = input_rf)
       && existsb (λ p, bool_decide (pv_transition p = out_rf)) l.
Proof.
  revert od. induction l as [|p l IH]; intros od.
  - cbn. by rewrite andb_false_r, orb_false_r.
  - cbn [foldl existsb]. rewrite IH. unfold path_exists.
    cbn [record_path rf_path_exists]. rewrite aget2_aset2.
    set (a := aget2 (rf_path_exists od) (RF.index in_rf) (RF.index out_rf)).
    set (b := existsb _ l). clearbody a b.
    destruct in_rf, input_rf, out_rf, (pv_transition p), a, b; done.
Qed.

Lemma findOutputDelays_pin_at s sr input_rf opd q p :
  output_delays_at (findOutputDelays_pin s sr input_rf opd q) p
  = if decide (q = p)
    then foldl (record_path input_rf) (output_delays_at opd p)
           (if isOutput (pin_direction E p)
            then filter (λ x, matchesFilter E s sr x)
                        (vertexPaths E s sr (pinLoadVertex E p))
            else [])
    else output_delays_at opd p.
Proof.
  unfold findOutputDelays_pin.
  destruct (decide (q = p)) as [->|Hne].
  - destruct (isOutput _); [|done].
    rewrite foldl_recordOutputPath. destruct (filter _ _); [done|].
    by rewrite output_delays_at_insert, decide_True.
  - destruct (isOutput _); [|done].
    rewrite foldl_recordOutputPath. destruct (filter _ _); [done|].
    by rewrite output_delays_at_insert, decide_False.
Qed.

Lemma findOutputDelays_pin_lookup s sr input_rf opd q p :
  (q = p → isOutput (pin_direction E p) = true →
   filter (λ x, matchesFilter E s sr x)
          (vertexPaths E s sr (pinLoadVertex E p)) = []) →
  findOutputDelays_pin s sr input_rf opd q !! p = opd !! p.
Proof.
  intros Hnone. unfold findOutputDelays_pin.
  destruct (isOutput (pin_direction E q)) eqn:Hout; [|done].
  rewrite foldl_recordOutputPath.
  destruct (decide (q = p)) as [->|Hne].
  - by rewrite Hnone.
  - clear Hnone. destruct (filter _ _); [done|]. by rewrite lookup_insert_ne.
Qed.

Lemma foldl_findOutputDelays_pin_at s sr input_rf pins opd p :
  NoDup pins →
  output_delays_at (foldl (findOutputDelays_pin s sr input_rf) opd pins) p
  = foldl (record_path input_rf) (output_delays_at opd p)
      (if bool_decide (p ∈ pins) && isOutput (pin_direction E p)
       then filter (λ x, matchesFilter E s sr x)
                   (vertexPaths E s sr (pinLoadVertex E p))
       else []).
Proof.
  intros Hnd. revert opd.
  induction Hnd as [|q pins Hq Hnd IH]; intros opd; [done|].
  cbn [foldl]. rewrite IH, findOutputDelays_pin_at.
  destruct (decide (q = p)) as [->|Hne].
  - rewrite (bool_decide_false (p ∈ pins)) by done.
    rewrite bool_decide_true by set_solver. cbn.
    by destruct (isOutput _).
  - destruct (decide (p ∈ pins)).
    + by rewrite !bool_decide_true by set_solver.
    + by rewrite !bool_decide_false by set_solver.
Qed.

Lemma foldl_findOutputDelays_pin_lookup s sr input_rf pins opd p :
  (if bool_decide (p ∈ pins) && isOutput (pin_direction E p)
   then filter (λ x, matchesFilter E s sr x)
               (vertexPaths E s sr (pinLoadVertex E p))
   else []) = [] →
  foldl (findOutputDelays_pin s sr input_rf) opd pins !! p = opd !! p.
Proof.
  revert opd. induction pins as [|q pins IH]; intros opd Hnone; [done|].
  cbn [foldl]. rewrite IH.
  - apply findOutputDelays_pin_lookup. intros -> Hout.
    by rewrite bool_decide_true, Hout in Hnone by set_solver.
  - destruct (decide (p ∈ pins)).
    + by rewrite bool_decide_true in Hnone |- * by set_solver.
    + by rewrite (bool_decide_false (p ∈ pins)).
Qed.

(** ** Running loops *)

Lemma bind_run {A B} (m : M A) (k : A → M B) w :
  bind m k w = k (m w).1 (m w).2.
Proof. unfold bind. by destruct (m w). Qed.

Lemma for_each_app {A} (l1 l2 : list A) body w :
  for_each (l1 ++ l2) body w = for_each l2 body (for_each l1 body w).2.
Proof.
  revert w. induction l1 as [|x l1 IH]; intros w; [done|].
  cbn [app for_each]. by rewrite !bind_run, IH.
Qed.

(** A loop whose body only appends arc sets that depend on nothing the
    loop changes appends them all, in order. *)
Lemma for_each_add_arc_sets {A} (l : list A) (body : A → M unit)
    (arcs : World → A → list TimingArcSet) w :
  (∀ x w' l', arcs (add_arc_sets l' w') x = arcs w' x) →
  (∀ x w', body x w' = (tt, add_arc_sets (arcs w' x) w')) →
  for_each l body w = (tt, add_arc_sets (l ≫= arcs w) w).
Proof.
  intros Hframe Hbody. revert w.
  induction l as [|x l IH] using rev_ind; intros w.
  - cbn. unfold ret, add_arc_sets. destruct w as [? ? ? []]. cbn.
    by rewrite app_nil_r.
  - rewrite for_each_app, IH. cbn [snd for_each]. rewrite bind_run, Hbody.
    cbn. unfold ret. f_equal. rewrite Hframe, bind_app. cbn.
    rewrite app_nil_r. unfold add_arc_sets. cbn. by rewrite app_assoc.
Qed.

Lemma add_arc_sets_nil w : add_arc_sets [] w = w.
Proof.
  unfold add_arc_sets. destruct w as [? ? ? []]. cbn. by rewrite app_nil_r.
Qed.

Lemma add_arc_sets_app l1 l2 w :
  add_arc_sets l2 (add_arc_sets l1 w) = add_arc_sets (l1 ++ l2) w.
Proof. unfold add_arc_sets. cbn. by rewrite app_assoc. Qed.

(** ** Walking a map in address order *)

Lemma walk_Permutation {K V} `{Countable K} (address : K → N) (m : gmap K V) :
  walk address m ≡ₚ map_to_list m.
Proof. apply merge_sort_Permutation. Qed.

Lemma elem_of_walk {K V} `{Countable K} (address : K → N) (m : gmap K V) k v :
  (k, v) ∈ walk address m ↔ m !! k = Some v.
Proof. by rewrite walk_Permutation, elem_of_map_to_list. Qed.

Lemma walk_Sorted {K V} `{Countable K} (address : K → N) (m : gmap K V) :
  Sorted (λ x y, (address x.1 ≤ address y.1)%N) (walk address m).
Proof.
  assert (Total (λ x y : K * V, (address x.1 ≤ address y.1)%N)) as Htotal.
  { intros x y.
    destruct (decide (address x.1 ≤ address y.1)%N); [by left|right; lia]. }
  apply (Sorted_merge_sort _).
Qed.

(** ** Setup and hold arcs *)

Lemma setupHoldAttrs_run margins mm w :
  fold_each RF.range
    (setupHoldAttrs_rf margins mm (bool_decide (mm = max))) None w
  = (bundle ((λ m, scalar_check_model w m
                     (match mm with max => sf_setup | min => sf_hold end) rise)
               <$> rfmm_value margins rise mm)
            ((λ m, scalar_check_model w m
                     (match mm with max => sf_setup | min => sf_hold end) fall)
               <$> rfmm_value margins fall mm), w).
Proof.
  unfold RF.range. cbn [fold_each]. rewrite !bind_run.
  unfold setupHoldAttrs_rf.
  destruct (rfmm_value margins rise mm) as [a|],
           (rfmm_value margins fall mm) as [b|]; destruct mm; reflexivity.
Qed.

Lemma makeSetupHoldTimingArcs_mm_run input_pin clk_edge margins mm w :
  makeSetupHoldTimingArcs_mm input_pin clk_edge margins mm w
  = (tt, add_arc_sets (setupHoldArcs_spec w input_pin clk_edge margins mm) w).
Proof.
  unfold makeSetupHoldTimingArcs_mm, setupHoldArcs_spec.
  rewrite bind_run, setupHoldAttrs_run. cbn [fst snd].
  destruct (bundle _ _) as [attrs|]; [|by rewrite add_arc_sets_nil].
  rewrite bind_run. cbn [modelPort fst snd get ret bind].
  rewrite (for_each_add_arc_sets _ _
    (λ w' clk_pin, [FromTransitionArcs (port_of w' clk_pin) (port_of w input_pin)
                      None clk_edge.2 (if bool_decide (mm = max)
                                       then role_setup else role_hold) attrs])).
  - f_equal. f_equal. clear. induction (clock_pins E clk_edge.1) as [|p l IH].
    + done.
    + cbn. rewrite IH. by destruct mm.
  - done.
  - done.
Qed.

Lemma makeSetupHoldTimingArcs_run (input_pin : Pin)
    (clk_margins : gmap ClockEdge RiseFallMinMax) (w : World) :
  makeSetupHoldTimingArcs input_pin clk_margins w
  = (tt, add_arc_sets
           (walk (clock_edge_address E) clk_margins ≫= λ clk_edge_margins,
              MM.range ≫= λ min_max,
                setupHoldArcs_spec w input_pin clk_edge_margins.1
                                   clk_edge_margins.2 min_max)
           w).
Proof.
  unfold makeSetupHoldTimingArcs.
  apply (for_each_add_arc_sets _ _
    (λ w' cem, MM.range ≫= λ min_max,
       setupHoldArcs_spec w' input_pin cem.1 cem.2 min_max)).
  - done.
  - intros [clk_edge margins] w'. cbn [fst snd].
    apply (for_each_add_arc_sets _ _
      (λ w'' min_max, setupHoldArcs_spec w'' input_pin clk_edge margins min_max)).
    + done.
    + intros. apply makeSetupHoldTimingArcs_mm_run.
Qed.

Lemma foldl_foldl_bind {A B S} (f : S → B → S) (g : A → list B) (s : S)
    (l : list A) :
  foldl (λ s x, foldl f s (g x)) s l = foldl f s (l ≫= g).
Proof.
  revert s. induction l as [|x l IH]; intros s; [done|].
  cbn [foldl]. by rewrite bind_cons, foldl_app, IH.
Qed.

(** ** Input→output arcs *)

Lemma inputOutputAttrs_run output_pin od w :
  fold_each RF.range (inputOutputAttrs_rf output_pin od) None w
  = (bundle ((λ delay, scalar_gate_model w delay
                 (graph_slew E (pinLoadVertex E output_pin) rise
                             (dcalc_ap_index E (corner_ E) max)) rise)
               <$> rfmm_value (delays od) rise max)
            ((λ delay, scalar_gate_model w delay
                 (graph_slew E (pinLoadVertex E output_pin) fall
                             (dcalc_ap_index E (corner_ E) max)) fall)
               <$> rfmm_value (delays od) fall max), w).
Proof.
  unfold RF.range. cbn [fold_each]. rewrite !bind_run.
  unfold inputOutputAttrs_rf.
  destruct (rfmm_value (delays od) rise max) as [a|],
           (rfmm_value (delays od) fall max) as [b|]; reflexivity.
Qed.

Lemma makeInputOutputTimingArcs_pin_run input_pin entry w :
  makeInputOutputTimingArcs_pin input_pin entry w
  = (tt, add_arc_sets (inputOutputArcs_spec w input_pin entry) w).
Proof.
  unfold makeInputOutputTimingArcs_pin, inputOutputArcs_spec.
  rewrite bind_run, inputOutputAttrs_run. cbn [fst snd].
  destruct (bundle _ _) as [attrs|]; [done|by rewrite add_arc_sets_nil].
Qed.

Lemma makeInputOutputTimingArcs_run (input_pin : Pin)
    (opd : gmap Pin OutputDelays) (w : World) :
  makeInputOutputTimingArcs input_pin opd w
  = (tt, add_arc_sets
           (walk (pin_address E) opd ≫= inputOutputArcs_spec w input_pin) w).
Proof.
  unfold makeInputOutputTimingArcs.
  apply (for_each_add_arc_sets _ _ (λ w' e, inputOutputArcs_spec w' input_pin e)).
  - done.
  - intros. apply makeInputOutputTimingArcs_pin_run.
Qed.

(** ** Running the analysis of one input pin *)

Lemma fold_visitPathEnds_run (ends : list Vertex) v w :
  fold_each ends (λ visitor end_,
      visitPathEnds end_ (corner_ E) mm_all true visitor) v w
  = (foldl (λ v e, foldl visit v
               (pathEnds E (sdc w) (search w) e (corner_ E) mm_all true)) v ends,
     mkWorld (sdc w) (search w) (library_ w) (cell_ w)
             (trace w ++ ((λ e, VisitPathEnds e (corner_ E) mm_all true) <$> ends))).
Proof.
  revert v w. induction ends as [|e ends IH]; intros v w.
  - cbn. unfold ret. destruct w. cbn. by rewrite app_nil_r.
  - cbn [fold_each]. rewrite bind_run. unfold visitPathEnds at 1 2.
    cbn [bind call get ret fst snd]. rewrite IH. cbn.
    by rewrite <- app_assoc.
Qed.

Lemma findTimingFromInputs_rf_run input_pin v opd input_rf w :
  findTimingFromInputs_rf input_pin (v, opd) input_rf w
  = let s1 := input_sdc (sdc w) input_pin input_rf in
    let sr1 := input_search (sdc w) input_pin input_rf in
    let ends := endpoints E s1 sr1 in
    ((foldl (λ v e, foldl visit v (pathEnds E s1 sr1 e (corner_ E) mm_all true))
            (setInputRf v input_rf) ends,
      foldl (findOutputDelays_pin s1 sr1 input_rf) opd (top_pins E)),
     mkWorld (with_input_delays
                (remove_keys (input_delay_keys input_pin input_rf)) s1)
             sr1 (library_ w) (cell_ w)
             (trace w
              ++ [SetInputDelay input_pin (RF.asRiseFallBoth input_rf)
                    (defaultArrivalClock E) (defaultArrivalClockEdge E).2
                    mm_all f_zero;
                  DeleteFilteredArrivals;
                  FindFilteredArrivals (input_from input_pin input_rf)]
              ++ ((λ e, VisitPathEnds e (corner_ E) mm_all true) <$> ends)
              ++ [RemoveInputDelay input_pin (RF.asRiseFallBoth input_rf)
                    (defaultArrivalClock E) (defaultArrivalClockEdge E).2
                    mm_all])).
Proof.
  unfold findTimingFromInputs_rf.
  cbn [fst snd setInputDelay deleteFilteredArrivals findFilteredArrivals
       search_endpoints bind call get ret set_sdc set_search sdc search
       library_ cell_ trace].
  rewrite bind_run, fold_visitPathEnds_run.
  cbn [fst snd findOutputDelays removeInputDelay
       bind call get ret set_sdc set_search sdc search library_ cell_ trace].
  cbn zeta. f_equal. f_equal. by rewrite <- !app_assoc.
Qed.


Lemma findTimingFromInputs_rf_run' input_pin locals input_rf w :
  findTimingFromInputs_rf input_pin locals input_rf w
  = let s1 := input_sdc (sdc w) input_pin input_rf in
    let sr1 := input_search (sdc w) input_pin input_rf in
    let ends := endpoints E s1 sr1 in
    ((foldl (λ v e, foldl visit v (pathEnds E s1 sr1 e (corner_ E) mm_all true))
            (setInputRf locals.1 input_rf) ends,
      foldl (findOutputDelays_pin s1 sr1 input_rf) locals.2 (top_pins E)),
     mkWorld (with_input_delays
                (remove_keys (input_delay_keys input_pin input_rf)) s1)
             sr1 (library_ w) (cell_ w)
             (trace w
              ++ [SetInputDelay input_pin (RF.asRiseFallBoth input_rf)
                    (defaultArrivalClock E) (defaultArrivalClockEdge E).2
                    mm_all f_zero;
                  DeleteFilteredArrivals;
                  FindFilteredArrivals (input_from input_pin input_rf)]
              ++ ((λ e, VisitPathEnds e (corner_ E) mm_all true) <$> ends)
              ++ [RemoveInputDelay input_pin (RF.asRiseFallBoth input_rf)
                    (defaultArrivalClock E) (defaultArrivalClockEdge E).2
                    mm_all])).
Proof. destruct locals. apply findTimingFromInputs_rf_run. Qed.

Lemma record_path_exists_head input_rf od p l :
  path_exists (foldl (record_path input_rf) od (p :: l))
              input_rf (pv_transition p) = true.
Proof.
  rewrite record_path_exists. cbn [existsb].
  rewrite !bool_decide_true by done. cbn. apply orb_true_r.
Qed.

Lemma findOutputDelays_pin_ok s sr input_rf opd q :
  q ∈ top_pins E →
  recorded_ok opd →
  recorded_ok (findOutputDelays_pin s sr input_rf opd q).
Proof.
  intros Hq Hok. unfold findOutputDelays_pin.
  destruct (isOutput (pin_direction E q)) eqn:Hout; [|done].
  rewrite foldl_recordOutputPath.
  destruct (filter _ _) as [|p0 l]; [done|].
  intros p od. destruct (decide (q = p)) as [->|Hne].
  - rewrite lookup_insert_eq. intros [= <-]. split_and!; try done.
    eexists _, _. apply record_path_exists_head.
  - rewrite lookup_insert_ne by done. apply Hok.
Qed.

Lemma foldl_findOutputDelays_pin_ok s sr input_rf pins opd :
  pins ⊆ top_pins E →
  recorded_ok opd →
  recorded_ok (foldl (findOutputDelays_pin s sr input_rf) opd pins).
Proof.
  revert opd. induction pins as [|q pins IH]; intros opd Hsub Hok; [done|].
  cbn [foldl]. apply IH; [set_solver|].
  apply findOutputDelays_pin_ok; [set_solver|done].
Qed.

Lemma recorded_ok_empty : recorded_ok ∅.
Proof. intros p od. by rewrite lookup_empty. Qed.

(** The analysis of an input pin, step by step. *)
Lemma findTimingFromInputs_pin_run v input_pin w :
  findTimingFromInputs_pin v input_pin w
  = if analysed_input input_pin then
      let r1 := findTimingFromInputs_rf input_pin
                  (setInputPin v input_pin, ∅) rise w in
      let r2 := findTimingFromInputs_rf input_pin r1.1 fall r1.2 in
      (r2.1.1,
       add_arc_sets
         ((walk (clock_edge_address E) (margins_ r2.1.1) ≫= λ cem,
             MM.range ≫= λ min_max,
               setupHoldArcs_spec r2.2 input_pin cem.1 cem.2 min_max)
          ++ (walk (pin_address E) r2.1.2 ≫= inputOutputArcs_spec r2.2 input_pin))
         r2.2)
    else (v, w).
Proof.
  unfold findTimingFromInputs_pin, analysed_input.
  destruct (isInput _ && negb _); [|done].
  unfold RF.range. cbn [fold_each]. rewrite !bind_run. cbn [ret fst snd].
  rewrite makeSetupHoldTimingArcs_run. cbn [fst snd].
  rewrite makeInputOutputTimingArcs_run. cbn [fst snd].
  by rewrite add_arc_sets_app.
Qed.


(** ** Clock→output queries *)

Lemma findClkedOutputPaths_rf_run output_pin clk clk_rf attrs output_rf w :
  findClkedOutputPaths_rf output_pin clk clk_rf attrs output_rf w
  = let ends := clked_ends (sdc w) output_pin clk clk_rf output_rf in
    (match clked_model w ends output_rf with
     | Some m => Some (setModel (default TimingArcAttrs_new attrs) output_rf m)
     | None => attrs
     end,
     mkWorld (output_sdc_done (sdc w) output_pin clk clk_rf output_rf)
             (search w) (library_ w) (cell_ w)
             (trace w ++ clked_calls output_pin clk clk_rf output_rf)).
Proof.
  unfold findClkedOutputPaths_rf, clked_model, clked_ends.
  cbn [setOutputDelay sta_findPathEnds removeOutputDelay
       bind call get ret set_sdc sdc search library_ cell_ trace fst snd].
  rewrite !bind_run.
  destruct (findPathEnds E _ _) as [|end_ ends]; cbn; rewrite <- !app_assoc;
    by destruct attrs.
Qed.

Lemma findClkedOutputPaths_clk_rf_run output_pin output_port clk clk_port
    clk_rf w :
  findClkedOutputPaths_clk_rf output_pin output_port clk clk_port clk_rf w
  = let ends_rise := clked_ends (sdc w) output_pin clk clk_rf rise in
    let s' := output_sdc_done (sdc w) output_pin clk clk_rf rise in
    let ends_fall := clked_ends s' output_pin clk clk_rf fall in
    (tt,
     add_arc_sets
       (match bundle (clked_model w ends_rise rise)
                     (clked_model w ends_fall fall) with
        | Some attrs => [FromTransitionArcs clk_port output_port None clk_rf
                                            role_regClkToQ attrs]
        | None => []
        end)
       (mkWorld (output_sdc_done s' output_pin clk clk_rf fall)
                (search w) (library_ w) (cell_ w)
                (trace w ++ clked_calls output_pin clk clk_rf rise
                         ++ clked_calls output_pin clk clk_rf fall))).
Proof.
  unfold findClkedOutputPaths_clk_rf, RF.range. cbn [fold_each].
  rewrite !bind_run, !findClkedOutputPaths_rf_run.
  cbn [fst snd ret sdc]. cbn zeta.
  set (w1 := mkWorld (output_sdc_done (sdc w) output_pin clk clk_rf rise) _ _ _ _).
  change (clked_model w1) with (clked_model w).
  subst w1. cbn [search library_ cell_ trace]. rewrite <- app_assoc.
  destruct (clked_model w _ rise) as [m1|], (clked_model w _ fall) as [m2|];
    cbn [default bundle]; try reflexivity.
  by rewrite add_arc_sets_nil.
Qed.

Lemma for_each_bind {A B} (l : list A) (f : A → list B) body w :
  for_each (l ≫= f) body w = for_each l (λ x, for_each (f x) body) w.
Proof.
  revert w. induction l as [|x l IH]; intros w; [done|].
  rewrite bind_cons, for_each_app. cbn [for_each].
  by rewrite bind_run, IH.
Qed.

Lemma for_each_ext_inv {A} (I : World → Prop) (l : list A)
    (body body' : A → M unit) w :
  (∀ x w', I w' → body x w' = body' x w') →
  (∀ x w', I w' → I (body' x w').2) →
  I w →
  for_each l body w = for_each l body' w ∧ I (for_each l body' w).2.
Proof.
  intros Hext Hinv. revert w. induction l as [|x l IH]; intros w Hw; [done|].
  cbn [for_each]. rewrite !bind_run, Hext by done. apply IH, Hinv, Hw.
Qed.

Lemma port_of_ports w w' pin :
  cell_ports (cell_ w') = cell_ports (cell_ w) → port_of w' pin = port_of w pin.
Proof. unfold port_of, findLibertyPort. by intros ->. Qed.


Lemma for_each_preserves_ports {A} (l : list A) body w :
  (∀ x, preserves_ports (body x)) →
  cell_ports (cell_ (for_each l body w).2) = cell_ports (cell_ w).
Proof.
  intros Hbody. revert w. induction l as [|x l IH]; intros w; [done|].
  cbn [for_each]. rewrite bind_run, IH. apply Hbody.
Qed.

Lemma clked_body_preserves_ports w0 c : preserves_ports (clked_body w0 c).
Proof.
  destruct c as [[[output_pin clk] clk_pin] clk_rf]. intros w.
  unfold clked_body. by rewrite findClkedOutputPaths_clk_rf_run.
Qed.

Lemma findClkedOutputPaths_pin_flat w0 output_pin w :
  cell_ports (cell_ w) = cell_ports (cell_ w0) →
  findClkedOutputPaths_pin output_pin w
  = for_each (if isOutput (pin_direction E output_pin)
              then clk ← clocks E; clk_pin ← clock_pins E clk;
                   clk_rf ← RF.range; [(output_pin, clk, clk_pin, clk_rf)]
              else [])
             (clked_body w0) w.
Proof.
  intros Hw. unfold findClkedOutputPaths_pin.
  destruct (isOutput _); [|done].
  rewrite bind_run. cbn [modelPort get ret bind fst snd].
  fold (port_of w output_pin). rewrite (port_of_ports w0 w) by done.
  rewrite for_each_bind.
  apply (for_each_ext_inv
           (λ w', cell_ports (cell_ w') = cell_ports (cell_ w0))); [| |done].
  - intros clk w1 Hw1. rewrite for_each_bind.
    apply (for_each_ext_inv
             (λ w', cell_ports (cell_ w') = cell_ports (cell_ w0))); [| |done].
    + intros clk_pin w2 Hw2. rewrite bind_run.
      cbn [modelPort get ret bind fst snd].
      fold (port_of w2 clk_pin). by rewrite (port_of_ports w0 w2).
    + intros clk_pin w2 Hw2.
      etrans; [apply for_each_preserves_ports, clked_body_preserves_ports|done].
  - intros clk w1 Hw1.
    etrans; [apply for_each_preserves_ports, clked_body_preserves_ports|done].
Qed.

Lemma findClkedOutputPaths_flat w :
  findClkedOutputPaths w = for_each clked_combinations (clked_body w) w.
Proof.
  unfold findClkedOutputPaths, clked_combinations.
  cut (∀ w', cell_ports (cell_ w') = cell_ports (cell_ w) →
         for_each (top_pins E) findClkedOutputPaths_pin w'
         = for_each (output_pin ← filter (λ p, isOutput (pin_direction E p))
                                         (top_pins E);
                     clk ← clocks E; clk_pin ← clock_pins E clk;
                     clk_rf ← RF.range; [(output_pin, clk, clk_pin, clk_rf)])
                    (clked_body w) w'); [by intros H; apply H|].
  induction (top_pins E) as [|p pins IH]; intros w' Hw'; [done|].
  cbn [for_each]. rewrite bind_run, (findClkedOutputPaths_pin_flat w) by done.
  rewrite IH.
  - destruct (isOutput (pin_direction E p)) eqn:Hp.
    + rewrite filter_cons_True by (by rewrite Hp).
      by rewrite bind_cons, for_each_app.
    + by rewrite filter_cons_False by (rewrite Hp; intros []).
  - etrans; [apply for_each_preserves_ports, clked_body_preserves_ports|done].
Qed.

Lemma lookup_install_keys (ks : list DelayKey) (v : Delay)
    (m : gmap DelayKey Delay) (k : DelayKey) :
  install_keys ks v m !! k = if decide (k ∈ ks) then Some v else m !! k.
Proof.
  unfold install_keys. induction ks as [|k' ks IH]; cbn [foldr].
  - by rewrite decide_False by apply not_elem_of_nil.
  - destruct (decide (k' = k)) as [->|Hne].
    + by rewrite lookup_insert_eq, decide_True by left.
    + rewrite lookup_insert_ne, IH by done.
      repeat case_decide; set_solver.
Qed.

Lemma lookup_remove_keys (ks : list DelayKey) (m : gmap DelayKey Delay)
    (k : DelayKey) :
  remove_keys ks m !! k = if decide (k ∈ ks) then None else m !! k.
Proof.
  unfold remove_keys. induction ks as [|k' ks IH]; cbn [foldr].
  - by rewrite decide_False by apply not_elem_of_nil.
  - destruct (decide (k' = k)) as [->|Hne].
    + by rewrite lookup_delete_eq, decide_True by left.
    + rewrite lookup_delete_ne, IH by done.
      repeat case_decide; set_solver.
Qed.

(** ** Constraint hygiene *)

Lemma run_summary_refl w : run_summary w w [] [] [].
Proof.
  split_and!; [|done..]. exists []. by rewrite app_nil_r.
Qed.

Lemma run_summary_trans w w1 w2 cs1 cs2 ik1 ik2 ok1 ok2 :
  run_summary w w1 cs1 ik1 ok1 →
  run_summary w1 w2 cs2 ik2 ok2 →
  run_summary w w2 (cs1 ++ cs2) (ik1 ++ ik2) (ok1 ++ ok2).
Proof.
  intros ((tr1 & Ht1 & Hc1 & Hp1) & Hi1 & Ho1 & Hq1)
         ((tr2 & Ht2 & Hc2 & Hp2) & Hi2 & Ho2 & Hq2).
  split_and!.
  - exists (tr1 ++ tr2). split_and!.
    + by rewrite Ht2, Ht1, app_assoc.
    + unfold constraint_calls in *. by rewrite filter_app, Hc1, Hc2.
    + by apply Forall_app.
  - intros k. rewrite Hi2, Hi1. repeat case_decide; set_solver.
  - intros k. rewrite Ho2, Ho1. repeat case_decide; set_solver.
  - by rewrite Hq2.
Qed.

Lemma run_summary_same_sta w w' :
  sdc w' = sdc w → trace w' = trace w → run_summary w w' [] [] [].
Proof.
  intros Hs Ht. destruct (run_summary_refl w) as (_ & Hi & Ho & Hq).
  split_and!; rewrite ?Hs; try done.
  exists []. by rewrite Ht, app_nil_r.
Qed.

Lemma constraint_calls_visits (ends : list Vertex) c mm f :
  constraint_calls ((λ e, VisitPathEnds e c mm f) <$> ends) = [].
Proof. unfold constraint_calls. by induction ends. Qed.

Lemma constraint_calls_propagate (cl : list Clock) :
  constraint_calls (SetPropagatedClock <$> cl) = [].
Proof. unfold constraint_calls. by induction cl. Qed.

Lemma findTimingFromInputs_rf_summary input_pin locals input_rf w :
  run_summary w (findTimingFromInputs_rf input_pin locals input_rf w).2
              (input_constraint_calls (input_pin, input_rf))
              (input_delay_keys input_pin input_rf) [].
Proof.
  rewrite findTimingFromInputs_rf_run'. cbn zeta. cbn [snd].
  split_and!; cbn [sdc trace with_input_delays input_sdc input_delays
                   output_delays propagated_clocks].
  - eexists. split_and!; [done| |].
    + unfold constraint_calls. rewrite !filter_app.
      fold (constraint_calls ((λ e, VisitPathEnds e (corner_ E) mm_all true)
                                <$> endpoints E
                                      (input_sdc (sdc w) input_pin input_rf)
                                      (input_search (sdc w) input_pin input_rf))).
      by rewrite constraint_calls_visits.
    + repeat (apply Forall_app; split); repeat constructor.
      apply Forall_fmap, Forall_true. done.
  - intros k. rewrite lookup_remove_keys, lookup_install_keys.
    unfold input_delay_keys. by case_decide.
  - intros. by rewrite decide_False by apply not_elem_of_nil.
  - done.
Qed.

Lemma findTimingFromInputs_pin_summary v input_pin w :
  run_summary w (findTimingFromInputs_pin v input_pin w).2
    (if analysed_input input_pin
     then input_constraint_calls (input_pin, rise)
          ++ input_constraint_calls (input_pin, fall) else [])
    (if analysed_input input_pin
     then input_delay_keys input_pin rise ++ input_delay_keys input_pin fall
     else [])
    [].
Proof.
  rewrite findTimingFromInputs_pin_run.
  destruct (analysed_input input_pin); [|apply run_summary_refl].
  cbn zeta. cbn [snd].
  set (r1 := findTimingFromInputs_rf input_pin (setInputPin v input_pin, ∅) rise w).
  set (r2 := findTimingFromInputs_rf input_pin r1.1 fall r1.2).
  match goal with |- run_summary _ (add_arc_sets ?l _) _ _ _ => set (L := l) end.
  pose proof (run_summary_trans _ _ _ _ _ _ _ _ _
                (run_summary_trans _ _ _ _ _ _ _ _ _
                   (findTimingFromInputs_rf_summary input_pin
                      (setInputPin v input_pin, ∅) rise w)
                   (findTimingFromInputs_rf_summary input_pin r1.1 fall r1.2))
                (run_summary_same_sta r2.2 (add_arc_sets L r2.2) eq_refl eq_refl))
    as Hsum.
  rewrite !app_nil_r in Hsum. exact Hsum.
Qed.


Lemma run_summary_eq w w' cs cs' ik ik' ok ok' :
  run_summary w w' cs ik ok → cs = cs' → ik = ik' → ok = ok' →
  run_summary w w' cs' ik' ok'.
Proof. by intros ? <- <- <-. Qed.

Lemma fold_findTimingFromInputs_pin_summary pins v w :
  run_summary w (fold_each pins findTimingFromInputs_pin v w).2
    ((p ← filter (λ p, analysed_input p) pins; rf ← RF.range; [(p, rf)])
       ≫= input_constraint_calls)
    ((p ← filter (λ p, analysed_input p) pins; rf ← RF.range; [(p, rf)])
       ≫= λ c, input_delay_keys c.1 c.2)
    [].
Proof.
  revert v w. induction pins as [|p pins IH]; intros v w.
  - apply run_summary_refl.
  - cbn [fold_each]. rewrite bind_run.
    eapply run_summary_eq;
      [eapply run_summary_trans;
         [apply findTimingFromInputs_pin_summary|apply IH]|..]; [| |done].
    + destruct (analysed_input p) eqn:Hp.
      * rewrite filter_cons_True by (by rewrite Hp).
        by rewrite bind_cons, bind_app.
      * by rewrite filter_cons_False by (rewrite Hp; intros []).
    + destruct (analysed_input p) eqn:Hp.
      * rewrite filter_cons_True by (by rewrite Hp).
        rewrite bind_cons, bind_app.
        f_equal; cbn -[input_delay_keys]; by rewrite ?app_nil_r.
      * by rewrite filter_cons_False by (rewrite Hp; intros []).
Qed.

Lemma findTimingFromInputs_summary w :
  run_summary w (findTimingFromInputs w).2
    (input_combinations ≫= input_constraint_calls) run_input_keys [].
Proof.
  unfold findTimingFromInputs. rewrite bind_run. cbn [ret snd].
  apply fold_findTimingFromInputs_pin_summary.
Qed.

Lemma clked_body_summary w0 c w :
  run_summary w (clked_body w0 c w).2
              (clked_constraint_calls c) [] (clked_keys c).
Proof.
  destruct c as [[[output_pin clk] clk_pin] clk_rf]. unfold clked_body.
  rewrite findClkedOutputPaths_clk_rf_run. cbn zeta.
  split_and!; cbn [snd add_arc_sets sdc trace].
  - eexists. split_and!; [done|done|]. repeat constructor.
  - intros. by rewrite decide_False by apply not_elem_of_nil.
  - intros k. unfold output_sdc_done, output_sdc.
    cbn [with_output_delays output_delays clked_keys].
    repeat (rewrite lookup_remove_keys || rewrite lookup_install_keys).
    replace (RF.range ≫= λ output_rf,
               output_delay_keys output_pin clk clk_rf output_rf)
      with (output_delay_keys output_pin clk clk_rf rise
            ++ output_delay_keys output_pin clk clk_rf fall)
      by (cbn -[output_delay_keys]; by rewrite app_nil_r).
    repeat case_decide; try done; rewrite elem_of_app in *; tauto.
  - done.
Qed.

Lemma for_each_clked_body_summary w0 l w :
  run_summary w (for_each l (clked_body w0) w).2
              (l ≫= clked_constraint_calls) [] (l ≫= clked_keys).
Proof.
  revert w. induction l as [|c l IH]; intros w.
  - apply run_summary_refl.
  - cbn [for_each]. rewrite bind_run, !bind_cons.
    change (@nil DelayKey) with (@nil DelayKey ++ []).
    eapply run_summary_trans; [apply clked_body_summary|apply IH].
Qed.

Lemma findClkedOutputPaths_summary w :
  run_summary w (findClkedOutputPaths w).2
    (clked_combinations ≫= clked_constraint_calls) [] run_output_keys.
Proof.
  rewrite findClkedOutputPaths_flat. apply for_each_clked_body_summary.
Qed.

(** ** The preamble of [makeTimingModel] *)

Lemma for_each_keeps_sta {A} (l : list A) body :
  (∀ x, keeps_sta (body x)) → keeps_sta (for_each l body).
Proof.
  intros Hbody. induction l as [|x l IH]; intros w; [done|].
  cbn [for_each]. rewrite bind_run.
  destruct (IH (body x w).2) as [-> ->]. apply Hbody.
Qed.

Lemma bind_keeps_sta {A B} (m : M A) (k : A → M B) :
  keeps_sta m → (∀ a, keeps_sta (k a)) → keeps_sta (bind m k).
Proof.
  intros Hm Hk w. rewrite bind_run.
  destruct (Hk (m w).1 (m w).2) as [-> ->]. apply Hm.
Qed.

Lemma update_port_keeps_sta port f : keeps_sta (update_port port f).
Proof. by destruct port. Qed.

Lemma makePorts_keeps_sta : keeps_sta makePorts.
Proof.
  apply for_each_keeps_sta. intros port.
  destruct (isBus E port).
  - repeat (apply bind_keeps_sta; [|intros ?]); try done.
    + apply for_each_keeps_sta. done.
    + apply update_port_keeps_sta.
    + apply for_each_keeps_sta. intros bit.
      apply bind_keeps_sta; [done|intros ?]. apply update_port_keeps_sta.
  - repeat (apply bind_keeps_sta; [|intros ?]); try done;
      apply update_port_keeps_sta.
Qed.

Lemma setPropagatedClocks_run (cl : list Clock) w :
  for_each cl setPropagatedClock w
  = (tt, mkWorld (mkSdc (input_delays (sdc w)) (output_delays (sdc w))
                        (list_to_set cl ∪ propagated_clocks (sdc w)))
                 (search w) (library_ w) (cell_ w)
                 (trace w ++ (SetPropagatedClock <$> cl))).
Proof.
  revert w. induction cl as [|c cl IH]; intros w.
  - cbn. unfold ret. destruct w as [[] ? ? ? ?]. cbn.
    by rewrite app_nil_r, (left_id_L ∅ (∪)).
  - cbn [for_each]. rewrite bind_run, IH.
    cbn [setPropagatedClock bind call set_sdc fst snd sdc search library_
         cell_ trace input_delays output_delays propagated_clocks].
    rewrite <- app_assoc. do 3 f_equal. cbn [list_to_set]. set_solver.
Qed.


Lemma makeTimingModel_stages cell_name filename w :
  ∃ w0 : World,
    trace w0 = trace w ++ (SetPropagatedClock <$> clocks E) ++ [SearchPreamble]
    ∧ input_delays (sdc w0) = input_delays (sdc w)
    ∧ output_delays (sdc w0) = output_delays (sdc w)
    ∧ propagated_clocks (sdc w0)
      = list_to_set (clocks E) ∪ propagated_clocks (sdc w)
    ∧ let w2 := exec findClkedOutputPaths (exec findTimingFromInputs w0) in
      sdc (exec (makeTimingModel cell_name filename) w) = sdc w2
      ∧ trace (exec (makeTimingModel cell_name filename) w) = trace w2.
Proof.
  set (w1 := exec (makeCell cell_name filename)
                  (exec (makeLibrary cell_name filename) w)).
  exists (exec searchPreamble
            (exec (for_each (clocks E) setPropagatedClock) (exec makePorts w1))).
  destruct (makePorts_keeps_sta w1) as [Hs Ht].
  split_and!.
  - unfold exec in *. rewrite setPropagatedClocks_run.
    cbn [snd searchPreamble call trace]. by rewrite Ht, <- app_assoc.
  - unfold exec in *. rewrite setPropagatedClocks_run.
    cbn [snd searchPreamble call sdc input_delays]. by rewrite Hs.
  - unfold exec in *. rewrite setPropagatedClocks_run.
    cbn [snd searchPreamble call sdc output_delays]. by rewrite Hs.
  - unfold exec in *. rewrite setPropagatedClocks_run.
    cbn [snd searchPreamble call sdc propagated_clocks]. by rewrite Hs.
  - cbn zeta. unfold makeTimingModel, exec. rewrite !bind_run.
    split; reflexivity.
Qed.

(** ** The recorded calls, in order *)

Lemma findTimingFromInputs_rf_stretch input_pin locals input_rf w :
  trace (findTimingFromInputs_rf input_pin locals input_rf w).2
  = trace w
    ++ input_stretch (input_pin, input_rf)
         (endpoints E (input_sdc (sdc w) input_pin input_rf)
                      (input_search (sdc w) input_pin input_rf)).
Proof. by rewrite findTimingFromInputs_rf_run'. Qed.

Lemma findTimingFromInputs_pin_stretch v input_pin w :
  ∃ visited : list (Pin * RiseFall * list Vertex),
    visited.*1 = (if analysed_input input_pin
                  then [(input_pin, rise); (input_pin, fall)] else [])
    ∧ trace (findTimingFromInputs_pin v input_pin w).2
      = trace w ++ (visited ≫= λ x, input_stretch x.1 x.2).
Proof.
  rewrite findTimingFromInputs_pin_run.
  destruct (analysed_input input_pin).
  - cbn zeta. cbn [snd add_arc_sets trace].
    set (r1 := findTimingFromInputs_rf input_pin (setInputPin v input_pin, ∅) rise w).
    rewrite findTimingFromInputs_rf_stretch.
    subst r1. rewrite findTimingFromInputs_rf_stretch.
    eexists [(input_pin, rise, _); (input_pin, fall, _)]. split; [done|].
    cbn -[input_stretch]. by rewrite app_nil_r, <- app_assoc.
  - exists []. split; [done|]. cbn. by rewrite app_nil_r.
Qed.

Lemma fold_findTimingFromInputs_pin_stretch pins v w :
  ∃ visited : list (Pin * RiseFall * list Vertex),
    visited.*1 = (p ← filter (λ p, analysed_input p) pins;
                  rf ← RF.range; [(p, rf)])
    ∧ trace (fold_each pins findTimingFromInputs_pin v w).2
      = trace w ++ (visited ≫= λ x, input_stretch x.1 x.2).
Proof.
  revert v w. induction pins as [|p pins IH]; intros v w.
  - exists []. split; [done|]. cbn. by rewrite app_nil_r.
  - cbn [fold_each]. rewrite bind_run.
    destruct (findTimingFromInputs_pin_stretch v p w) as (l1 & Hl1 & Ht1).
    destruct (IH (findTimingFromInputs_pin v p w).1
                 (findTimingFromInputs_pin v p w).2) as (l2 & Hl2 & Ht2).
    exists (l1 ++ l2). split.
    + rewrite fmap_app, Hl1, Hl2. destruct (analysed_input p) eqn:Hp.
      * rewrite filter_cons_True by (by rewrite Hp). by rewrite bind_cons.
      * by rewrite filter_cons_False by (rewrite Hp; intros []).
    + by rewrite Ht2, Ht1, bind_app, app_assoc.
Qed.

Lemma findTimingFromInputs_stretch w :
  ∃ visited : list (Pin * RiseFall * list Vertex),
    visited.*1 = input_combinations
    ∧ trace (exec findTimingFromInputs w)
      = trace w ++ (visited ≫= λ x, input_stretch x.1 x.2).
Proof.
  unfold exec, findTimingFromInputs. rewrite bind_run. cbn [ret snd].
  apply fold_findTimingFromInputs_pin_stretch.
Qed.

Lemma for_each_clked_body_trace w0 l w :
  trace (for_each l (clked_body w0) w).2 = trace w ++ (l ≫= clked_all_calls).
Proof.
  revert w. induction l as [|c l IH]; intros w.
  - cbn. by rewrite app_nil_r.
  - cbn [for_each]. rewrite bind_run, IH, bind_cons.
    destruct c as [[[output_pin clk] clk_pin] clk_rf]. unfold clked_body.
    rewrite findClkedOutputPaths_clk_rf_run. cbn zeta.
    cbn [snd]. unfold add_arc_sets. cbn [trace].
    change (clked_all_calls (output_pin, clk, clk_pin, clk_rf))
      with (clked_calls output_pin clk clk_rf rise
            ++ clked_calls output_pin clk clk_rf fall ++ []).
    by rewrite app_nil_r, <- !app_assoc.
Qed.

(** * The claims *)

(** C1: the sense computed by [OutputDelays::timingSense] from the
    existence matrix is non-unate when all four combinations are
    recorded, positive-unate for exactly rise→rise and fall→fall,
    negative-unate for exactly rise→fall and fall→rise, none when
    nothing is recorded and non-unate for every other pattern. *)
Theorem timingSense_classifies (od : OutputDelays) :
  timingSense od
  = timingSense_spec (path_exists od rise rise) (path_exists od rise fall)
                     (path_exists od fall rise) (path_exists od fall fall).
Proof.
  rewrite timingSense_unfold. cbn zeta.
  destruct (path_exists od rise rise), (path_exists od rise fall),
           (path_exists od fall rise), (path_exists od fall fall);
    reflexivity.
Qed.

(** C2: for an input pin and its accumulated clock margins,
    [makeSetupHoldTimingArcs] appends to the cell, for every clock edge
    of the margins, each once and in the order the code walks its
    [std::map] (increasing address of the clock edge, the addresses
    being the engine's), and for min then max, exactly the arcs the
    specification describes ([setupHoldArcs_spec]) and changes nothing
    else: when no transition has a margin for the extreme, no arc; and
    when at least one has, for every pin of the clock edge's clock one
    checking arc from that pin's port to the input's port, on the clock
    edge's transition, with role setup for max and hold for min,
    carrying for each transition the scalar check model of its margin
    if it has one and no model otherwise. *)
Theorem makeSetupHoldTimingArcs_emits (w : World) (input_pin : Pin)
    (clk_margins : gmap ClockEdge RiseFallMinMax) :
  let w' := exec (makeSetupHoldTimingArcs input_pin clk_margins) w in
  let walked := walk (clock_edge_address E) clk_margins in
  (walked ≡ₚ map_to_list clk_margins
   ∧ Sorted (λ x y, (clock_edge_address E x.1 ≤ clock_edge_address E y.1)%N)
            walked)
  ∧ w' = add_arc_sets
           (walked ≫= λ clk_edge_margins,
              MM.range ≫= λ min_max,
                setupHoldArcs_spec w input_pin clk_edge_margins.1
                                   clk_edge_margins.2 min_max)
           w
  ∧ (∀ clk_edge margins mm,
       rfmm_value margins rise mm = None →
       rfmm_value margins fall mm = None →
       setupHoldArcs_spec w input_pin clk_edge margins mm = [])
  ∧ ∀ clk_edge margins mm,
      clk_margins !! clk_edge = Some margins →
      is_Some (rfmm_value margins rise mm)
      ∨ is_Some (rfmm_value margins fall mm) →
      ∀ clk_pin, clk_pin ∈ clock_pins E clk_edge.1 →
        ∃ attrs,
          FromTransitionArcs (port_of w clk_pin) (port_of w input_pin) None
            clk_edge.2 (match mm with max => role_setup | min => role_hold end)
            attrs ∈ arc_sets (cell_ w')
          ∧ ∀ rf, aget (models attrs) (RF.index rf)
                  = (λ margin,
                       scalar_check_model w margin
                         (match mm with max => sf_setup | min => sf_hold end) rf)
                      <$> rfmm_value margins rf mm.
Proof.
  cbn zeta. unfold exec. rewrite makeSetupHoldTimingArcs_run. cbn [snd].
  split_and!; [apply walk_Permutation|apply walk_Sorted|done| |].
  - intros clk_edge margins mm Hr Hf. unfold setupHoldArcs_spec.
    by rewrite Hr, Hf.
  - intros clk_edge margins mm Hedge Hsome clk_pin Hpin.
    set (scale := match mm with max => sf_setup | min => sf_hold end).
    set (model := λ rf, (λ margin, scalar_check_model w margin scale rf)
                          <$> rfmm_value margins rf mm).
    exists (mkTimingArcAttrs sense_unknown (mkArray2 (model rise) (model fall))).
    split; [|by intros []].
    cbn [add_arc_sets cell_ arc_sets]. apply elem_of_app. right.
    apply list_elem_of_bind. exists (clk_edge, margins).
    split; [|by apply elem_of_walk].
    apply list_elem_of_bind. exists mm.
    split; [|destruct mm; set_solver].
    cbn [fst snd]. unfold setupHoldArcs_spec. fold scale. fold (model rise).
    fold (model fall).
    assert (bundle (model rise) (model fall)
            = Some (mkTimingArcAttrs sense_unknown
                      (mkArray2 (model rise) (model fall)))) as ->.
    { unfold model.
      destruct Hsome as [[m ->]|[m ->]]; [done|].
      by destruct (rfmm_value margins rise mm). }
    apply list_elem_of_fmap. by exists clk_pin.
Qed.

(** C3: while an input pin is analysed for a transition, the visitor
    sees the path ends of every endpoint in turn, and afterwards the
    slot (target clock edge, that transition, extreme) of its margins
    holds data arrival minus target-clock latency plus check margin of
    the LAST visited path end that addresses the slot, whatever was
    stored before (nothing is merged, no worst value is kept); slots no
    visited path end addresses, and the slots of the other transition,
    keep their value. *)
Theorem visit_records_last_margin (w : World) (v : MakeEndTimingArcs)
    (input_pin : Pin) (opd : gmap Pin OutputDelays) (input_rf : RiseFall) :
  let s := input_sdc (sdc w) input_pin input_rf in
  let sr := input_search (sdc w) input_pin input_rf in
  let visited := endpoints E s sr ≫= λ end_,
                   pathEnds E s sr end_ (corner_ E) mm_all true in
  let v' := (eval (findTimingFromInputs_rf input_pin (v, opd) input_rf) w).1 in
  v' = foldl visit (setInputRf v input_rf) visited
  ∧ ∀ (ce : ClockEdge) (rf : RiseFall) (mm : MinMax),
      rfmm_value (margins_at (margins_ v') ce) rf mm
      = let old := rfmm_value (margins_at (margins_ v) ce) rf mm in
        if decide (rf = input_rf) then
          match last (filter (λ pe, writes_slot ce mm pe) visited) with
          | Some pe =>
              Some (f_add (f_sub (pe_arrival pe) (targetClkDelay pe))
                          (pe_margin pe))
          | None => old
          end
        else old.
Proof.
  cbn zeta. unfold eval. rewrite findTimingFromInputs_rf_run. cbn zeta.
  cbn [fst]. rewrite foldl_foldl_bind. split; [done|].
  intros ce rf mm. apply foldl_visit_value.
Qed.

(** C4: [findOutputDelays] for an input transition leaves, for every
    output pin and with [ps] the arrival paths at its load vertex that
    match the active filter: in each delay slot (output transition,
    extreme) the worst, for that extreme, of the value stored before and
    the arrivals of the paths of [ps] with that transition and extreme
    (going through these paths in order, an arrival replaces the kept
    value when it is greater than it for max, less than it for min, and
    is kept as it is when the slot was empty); the existence entry (input transition, output transition) true as
    soon as a path of [ps] has that output transition, every other entry
    as before; and an entry untouched when no path of the pin matches.
    Nothing else in the world changes. *)
Theorem findOutputDelays_records (w : World) (input_rf : RiseFall)
    (opd : gmap Pin OutputDelays) :
  NoDup (top_pins E) →
  let opd' := (findOutputDelays input_rf opd w).1 in
  (findOutputDelays input_rf opd w).2 = w ∧
  ∀ output_pin : Pin,
    let ps := matching_paths (sdc w) (search w) output_pin in
    (∀ out_rf mm,
      rfmm_value (delays (output_delays_at opd' output_pin)) out_rf mm
      = foldl (λ kept p,
                 match kept, mm with
                 | None, _ => Some (pv_arrival p)
                 | Some old, max => if f_gt (pv_arrival p) old
                                    then Some (pv_arrival p) else Some old
                 | Some old, min => if f_lt (pv_arrival p) old
                                    then Some (pv_arrival p) else Some old
                 end)
              (rfmm_value (delays (output_delays_at opd output_pin)) out_rf mm)
              (filter (λ p, bool_decide (pv_transition p = out_rf)
                            && bool_decide (pv_minMax p = mm)) ps))
    ∧ (∀ in_rf out_rf,
      path_exists (output_delays_at opd' output_pin) in_rf out_rf
      = path_exists (output_delays_at opd output_pin) in_rf out_rf
        || bool_decide (in_rf = input_rf)
           && existsb (λ p, bool_decide (pv_transition p = out_rf)) ps)
    ∧ (ps = [] → opd' !! output_pin = opd !! output_pin).
Proof.
  intros Hnd. cbn zeta. split; [done|]. intros output_pin.
  unfold findOutputDelays, matching_paths. cbn.
  rewrite foldl_findOutputDelays_pin_at by done.
  split_and!.
  - intros. apply record_path_value.
  - intros. apply record_path_exists.
  - apply foldl_findOutputDelays_pin_lookup.
Qed.

(** C5 (corrected statement): [findClkedOutputPaths] goes through every output
    pin, clock, PIN OF THAT CLOCK and clock transition, in order, and
    for each of them and each output transition: installs an output
    delay of 0 for the output pin/transition relative to the clock
    edge, asks for path ends from that clock edge to that output
    pin/transition at the corner and the max extreme with group and
    endpoint counts 1, builds a scalar gate model from arrival and slew
    of the first path end if there is one, and removes the output delay;
    after both output transitions it appends one register-clock-to-output
    arc from that clock pin's port to the output's port when at least
    one model was built, and nothing otherwise.  A clock without pins is
    never queried. *)
Theorem findClkedOutputPaths_per_clock_pin (w : World) :
  findClkedOutputPaths w = for_each clked_combinations (clked_body w) w
  ∧ ∀ (w' : World) (output_pin : Pin) (output_port : option string)
      (clk : Clock) (clk_port : option string) (clk_rf : RiseFall),
      let q := clkedOutputQuery output_pin clk clk_rf in
      let s_rise := output_sdc (sdc w') output_pin clk clk_rf rise in
      let ends_rise := findPathEnds E s_rise (q rise) in
      let s' := output_sdc_done (sdc w') output_pin clk clk_rf rise in
      let s_fall := output_sdc s' output_pin clk clk_rf fall in
      let ends_fall := findPathEnds E s_fall (q fall) in
      (∀ output_rf,
         q_group_count (q output_rf) = 1 ∧ q_endpoint_count (q output_rf) = 1
         ∧ q_min_max (q output_rf) = mm_max ∧ q_corner (q output_rf) = corner_ E
         ∧ q_from (q output_rf)
           = mkExceptionFrom None (Some {[clk]}) None (RF.asRiseFallBoth clk_rf)
         ∧ q_to (q output_rf)
           = mkExceptionTo (Some {[output_pin]}) None None
                           (RF.asRiseFallBoth output_rf)
                           (RF.asRiseFallBoth output_rf))
      ∧ (∀ k, k ∈ output_delay_keys output_pin clk clk_rf rise →
              output_delays s_rise !! k = Some f_zero)
      ∧ (∀ k, k ∈ output_delay_keys output_pin clk clk_rf fall →
              output_delays s_fall !! k = Some f_zero)
      ∧ findClkedOutputPaths_clk_rf output_pin output_port clk clk_port clk_rf w'
        = (tt,
           add_arc_sets
             (match bundle (clked_model w' ends_rise rise)
                           (clked_model w' ends_fall fall) with
              | Some attrs => [FromTransitionArcs clk_port output_port None
                                 clk_rf role_regClkToQ attrs]
              | None => []
              end)
             (mkWorld (output_sdc_done s' output_pin clk clk_rf fall)
                      (search w') (library_ w') (cell_ w')
                      (trace w'
                       ++ [SetOutputDelay output_pin rf_rise clk clk_rf mm_max f_zero;
                           FindPathEnds (q rise);
                           RemoveOutputDelay output_pin rf_rise clk clk_rf mm_max;
                           SetOutputDelay output_pin rf_fall clk clk_rf mm_max f_zero;
                           FindPathEnds (q fall);
                           RemoveOutputDelay output_pin rf_fall clk clk_rf mm_max]))).
Proof.
  split; [apply findClkedOutputPaths_flat|].
  intros w' output_pin output_port clk clk_port clk_rf. cbn zeta.
  split_and!.
  - done.
  - intros k Hk. unfold output_sdc. cbn [with_output_delays output_delays].
    by rewrite lookup_install_keys, decide_True.
  - intros k Hk. unfold output_sdc. cbn [with_output_delays output_delays].
    by rewrite lookup_install_keys, decide_True.
  - apply findClkedOutputPaths_clk_rf_run.
Qed.

(** C6: every transient constraint is removed in the iteration that
    installed it.  Over a whole run of [makeTimingModel], whatever the
    engine answers, the recorded calls (those that change constraints
    or search state, show path ends or query them; look-ups such as
    [isClockSrc], [endpoints] or [matchesFilter] are not recorded) are
    exactly, in order: the preamble; then for every analysed (input
    pin, transition) the installation of its input delay, the deletion
    of the filtered arrivals, the filtered search, the visits of the
    endpoints and only then the removal of the input delay with the
    same arguments, before the next transition or pin begins; then for
    every clock-to-output combination and output transition the
    installation of its output delay, its path-end query and, after the
    query, the removal with the same arguments.  So the calls that
    install or remove a constraint come in Set/Remove pairs, and after
    the run no slot of any input delay or output delay the run
    installed holds a value. *)
Theorem transient_constraints_removed (cell_name filename : string)
    (w : World) :
  let w' := exec (makeTimingModel cell_name filename) w in
  ∃ visited : list (Pin * RiseFall * list Vertex),
    visited.*1 = input_combinations
    ∧ let tr := (SetPropagatedClock <$> clocks E) ++ [SearchPreamble]
                ++ (visited ≫= λ x, input_stretch x.1 x.2)
                ++ (clked_combinations ≫= λ c,
                      let '(output_pin, clk, _, clk_rf) := c in
                      output_rf ← RF.range;
                      [SetOutputDelay output_pin (RF.asRiseFallBoth output_rf)
                                      clk clk_rf mm_max f_zero;
                       FindPathEnds
                         (clkedOutputQuery output_pin clk clk_rf output_rf);
                       RemoveOutputDelay output_pin
                         (RF.asRiseFallBoth output_rf) clk clk_rf mm_max]) in
      trace w' = trace w ++ tr
      ∧ constraint_calls tr
        = (input_combinations ≫= input_constraint_calls)
          ++ (clked_combinations ≫= clked_constraint_calls)
      ∧ (∀ pin rf clk clk_rf mm delay k,
           SetInputDelay pin rf clk clk_rf mm delay ∈ tr →
           k ∈ delay_keys pin rf clk clk_rf mm →
           input_delays (sdc w') !! k = None)
      ∧ (∀ pin rf clk clk_rf mm delay k,
           SetOutputDelay pin rf clk clk_rf mm delay ∈ tr →
           k ∈ delay_keys pin rf clk clk_rf mm →
           output_delays (sdc w') !! k = None).
Proof.
  cbn zeta.
  destruct (makeTimingModel_stages cell_name filename w)
    as (w0 & Ht0 & Hi0 & Ho0 & _ & Hs & Ht).
  cbn zeta in Hs, Ht. rewrite Hs, Ht. clear Hs Ht.
  pose proof (run_summary_trans _ _ _ _ _ _ _ _ _
                (findTimingFromInputs_summary w0)
                (findClkedOutputPaths_summary (exec findTimingFromInputs w0)))
    as ((tr & Ht & Hc & _) & Hi & Ho & _).
  fold (exec findTimingFromInputs w0) in Ht, Hi, Ho.
  fold (exec findClkedOutputPaths (exec findTimingFromInputs w0)) in Ht, Hi, Ho.
  destruct (findTimingFromInputs_stretch w0) as (visited & Hvisited & Hstretch).
  assert (tr = (visited ≫= λ x, input_stretch x.1 x.2)
               ++ (clked_combinations ≫= clked_all_calls)) as Htr.
  { apply (app_inv_head (trace w0)). rewrite <- Ht. unfold exec at 1.
    rewrite findClkedOutputPaths_flat, for_each_clked_body_trace.
    by rewrite Hstretch, <- app_assoc. }
  exists visited. split; [done|].
  set (tr0 := (_ <$> clocks E) ++ [SearchPreamble] ++ _
              ++ (clked_combinations ≫= _)).
  assert (tr0 = (SetPropagatedClock <$> clocks E) ++ [SearchPreamble] ++ tr)
    as -> by (subst tr0; rewrite Htr; reflexivity).
  assert (constraint_calls
            ((SetPropagatedClock <$> clocks E) ++ [SearchPreamble] ++ tr)
          = (input_combinations ≫= input_constraint_calls)
            ++ (clked_combinations ≫= clked_constraint_calls)) as Hcc.
  { rewrite <- Hc. unfold constraint_calls. rewrite !filter_app.
    fold (constraint_calls (SetPropagatedClock <$> clocks E)).
    by rewrite constraint_calls_propagate. }
  split_and!.
  - by rewrite Ht, Ht0, <- !app_assoc.
  - done.
  - intros pin rf clk clk_rf mm delay k Hin Hk.
    assert (SetInputDelay pin rf clk clk_rf mm delay
              ∈ constraint_calls
                  ((SetPropagatedClock <$> clocks E) ++ [SearchPreamble] ++ tr))
      as Hin' by (by apply list_elem_of_filter).
    rewrite Hcc in Hin'. rewrite Hi, app_nil_r, decide_True; [done|].
    apply elem_of_app in Hin' as [Hin'|Hin'].
    + apply list_elem_of_bind in Hin' as ([p r] & Hcall & Hcomb).
      unfold input_constraint_calls in Hcall. cbn [fst snd] in Hcall.
      apply list_elem_of_bind. exists (p, r). split; [|done].
      rewrite elem_of_cons, list_elem_of_singleton in Hcall.
      by destruct Hcall as [[= -> -> -> -> -> ->]|[=]].
    + apply list_elem_of_bind in Hin' as ([[[p c] cp] cr] & Hcall & _).
      apply list_elem_of_bind in Hcall as (orf & Hcall & _).
      rewrite elem_of_cons, list_elem_of_singleton in Hcall.
      by destruct Hcall as [[=]|[=]].
  - intros pin rf clk clk_rf mm delay k Hin Hk.
    assert (SetOutputDelay pin rf clk clk_rf mm delay
              ∈ constraint_calls
                  ((SetPropagatedClock <$> clocks E) ++ [SearchPreamble] ++ tr))
      as Hin' by (by apply list_elem_of_filter).
    rewrite Hcc in Hin'. rewrite Ho. cbn [app]. rewrite decide_True; [done|].
    apply elem_of_app in Hin' as [Hin'|Hin'].
    + apply list_elem_of_bind in Hin' as ([p r] & Hcall & _).
      unfold input_constraint_calls in Hcall.
      rewrite elem_of_cons, list_elem_of_singleton in Hcall.
      by destruct Hcall as [[=]|[=]].
    + apply list_elem_of_bind in Hin' as ([[[p c] cp] cr] & Hcall & Hcomb).
      apply list_elem_of_bind. exists (p, c, cp, cr). split; [|done].
      apply list_elem_of_bind in Hcall as (orf & Hcall & Horf).
      apply list_elem_of_bind. exists orf. split; [|done].
      rewrite elem_of_cons, list_elem_of_singleton in Hcall.
      by destruct Hcall as [[= -> -> -> -> -> ->]|[=]].
Qed.

(** C7 (corrected statement): every combinational arc [makeInputOutputTimingArcs]
    emits goes from the input's port to the port of a recorded output
    pin and carries the sense of that pin's existence matrix:
    positive-unate when BOTH rise→rise and fall→fall are recorded and
    neither cross term, negative-unate when BOTH rise→fall and fall→rise
    are recorded and neither direct term, and non-unate when exactly one
    of the four combinations is recorded. *)
Theorem combinational_arc_sense (w : World) (input_pin : Pin)
    (opd : gmap Pin OutputDelays) :
  ∃ new : list TimingArcSet,
    makeInputOutputTimingArcs input_pin opd w = (tt, add_arc_sets new w) ∧
    ∀ arc, arc ∈ new →
      ∃ output_pin od attrs,
        opd !! output_pin = Some od ∧
        arc = CombinationalArcs (port_of w input_pin) (port_of w output_pin)
                                None true true attrs ∧
        let rr := path_exists od rise rise in
        let rf := path_exists od rise fall in
        let fr := path_exists od fall rise in
        let ff := path_exists od fall fall in
        (rr = true ∧ ff = true ∧ rf = false ∧ fr = false →
         timing_sense attrs = positive_unate) ∧
        (rf = true ∧ fr = true ∧ rr = false ∧ ff = false →
         timing_sense attrs = negative_unate) ∧
        (length (filter (λ b : bool, b) [rr; rf; fr; ff]) = 1 →
         timing_sense attrs = non_unate).
Proof.
  eexists. split; [apply makeInputOutputTimingArcs_run|].
  intros arc ([output_pin od] & Harc & Hin%elem_of_walk)%list_elem_of_bind.
  unfold inputOutputArcs_spec in Harc.
  destruct (bundle _ _) as [attrs|]; [|by apply elem_of_nil in Harc].
  apply list_elem_of_singleton in Harc. subst arc.
  exists output_pin, od, (setTimingSense attrs (timingSense od)).
  cbn zeta. cbn [timing_sense setTimingSense fst snd].
  split_and!; try done; rewrite timingSense_unfold; cbn zeta.
  - by intros (-> & -> & -> & ->).
  - by intros (-> & -> & -> & ->).
  - by destruct (path_exists od rise rise), (path_exists od rise fall),
                (path_exists od fall rise), (path_exists od fall fall).
Qed.

(** C8: (1) when, for an input pin, no propagated path realized any
    combination for an output pin (its accumulated existence matrix has
    no true entry), the analysis of that input pin appends no
    combinational arc to that output's port — given that no other
    top-level output pin shares that port; (2) a clock-to-output
    combination whose two queries return no path end appends no arc,
    and the run goes on. *)
Theorem no_path_no_arc (w : World) (v : MakeEndTimingArcs)
    (input_pin output_pin : Pin) :
  (∀ q, q ∈ top_pins E → isOutput (pin_direction E q) = true →
        port_of w q = port_of w output_pin → q = output_pin) →
  (∀ in_rf out_rf,
     path_exists
       (output_delays_at (accumulated_output_delays v input_pin w) output_pin)
       in_rf out_rf = false) →
  (∃ new : list TimingArcSet,
     arc_sets (cell_ (exec (findTimingFromInputs_pin v input_pin) w))
     = arc_sets (cell_ w) ++ new
     ∧ ∀ from_port related_out to_rise to_fall attrs,
         CombinationalArcs from_port (port_of w output_pin) related_out
                           to_rise to_fall attrs ∉ new)
  ∧ ∀ output_port clk clk_port clk_rf,
      clked_ends (sdc w) output_pin clk clk_rf rise = [] →
      clked_ends (output_sdc_done (sdc w) output_pin clk clk_rf rise)
                 output_pin clk clk_rf fall = [] →
      arc_sets (cell_ (exec (findClkedOutputPaths_clk_rf
                               output_pin output_port clk clk_port clk_rf) w))
      = arc_sets (cell_ w).
Proof.
  intros Hinj Hnone. split.
  - unfold exec. rewrite findTimingFromInputs_pin_run.
    unfold accumulated_output_delays, eval, RF.range in Hnone.
    cbn [fold_each] in Hnone. rewrite !bind_run in Hnone. cbn [ret fst] in Hnone.
    destruct (analysed_input input_pin);
      [|exists []; split; [by rewrite app_nil_r|by intros; apply not_elem_of_nil]].
    cbn zeta.
    set (r1 := findTimingFromInputs_rf input_pin (setInputPin v input_pin, ∅) rise w)
      in *.
    set (r2 := findTimingFromInputs_rf input_pin r1.1 fall r1.2) in *.
    assert (cell_ r2.2 = cell_ w) as Hcell.
    { unfold r2, r1. by rewrite !findTimingFromInputs_rf_run'. }
    assert (recorded_ok r2.1.2) as Hok.
    { unfold r2, r1. rewrite !findTimingFromInputs_rf_run'. cbn [fst snd]. cbn zeta.
      apply foldl_findOutputDelays_pin_ok; [done|].
      apply foldl_findOutputDelays_pin_ok; [done|].
      apply recorded_ok_empty. }
    assert (r2.1.2 !! output_pin = None) as Hout.
    { destruct (r2.1.2 !! output_pin) as [od|] eqn:Hod; [|done].
      destruct (Hok _ _ Hod) as (_ & _ & in_rf & out_rf & Htrue).
      specialize (Hnone in_rf out_rf). unfold output_delays_at in Hnone.
      rewrite Hod in Hnone. cbn in Hnone. congruence. }
    eexists. split.
    { cbn [add_arc_sets cell_ arc_sets snd]. by rewrite Hcell. }
    intros from_port related_out to_rise to_fall attrs
      [Harc|Harc]%elem_of_app.
    + apply list_elem_of_bind in Harc as (cem & Harc & _).
      apply list_elem_of_bind in Harc as (mm & Harc & _).
      unfold setupHoldArcs_spec in Harc.
      destruct (bundle _ _); [|by apply elem_of_nil in Harc].
      by apply list_elem_of_fmap in Harc as (clk_pin & ? & _).
    + apply list_elem_of_bind in Harc as ([q od] & Harc & Hq%elem_of_walk).
      unfold inputOutputArcs_spec in Harc.
      destruct (bundle _ _); [|by apply elem_of_nil in Harc].
      apply list_elem_of_singleton in Harc. cbn [fst snd] in Harc.
      injection Harc as _ Hport _ _ _ _.
      destruct (Hok _ _ Hq) as (Htop & Hdir & _).
      rewrite (port_of_ports w r2.2) in Hport by (by rewrite Hcell).
      assert (q = output_pin) as -> by (by apply Hinj).
      congruence.
  - intros output_port clk clk_port clk_rf Hr Hf. unfold exec.
    rewrite findClkedOutputPaths_clk_rf_run. cbn zeta.
    rewrite Hr, Hf. cbn. by rewrite app_nil_r.
Qed.

(** C9 (corrected statement): the scalar model builders never fail.  Whatever
    the value and whether or not the library has a "scalar" template,
    [makeScalarCheckModel] returns a check model and
    [makeScalarGateModel] a gate model pairing a delay sub-model with a
    slew sub-model, each over a one-entry table holding the value and
    carrying the outcome of the template lookup, found or not; the world
    is left as it was. *)
Theorem scalar_models_always_built (w : World) (value delay slew : Delay)
    (scale : ScaleFactorType) (rf : RiseFall) :
  let tbl_template := findTableTemplate (library_ w) "scalar" tt_delay in
  makeScalarCheckModel value scale rf w
  = (CheckTableModel (mkTableModel (Table0 value) tbl_template scale rf) None, w)
  ∧ makeScalarGateModel delay slew rf w
    = (GateTableModel (mkTableModel (Table0 delay) tbl_template sf_cell rf) None
                      (mkTableModel (Table0 slew) tbl_template sf_cell rf) None,
       w).
Proof. cbn zeta. split; reflexivity. Qed.

(** C10: the first calls [makeTimingModel] makes are the ones marking
    every clock of the design propagated, before the search preamble and
    every query; no later call marks or unmarks a clock, and when the
    run is over the propagated clocks are those of before together with
    every clock of the design. *)
Theorem clocks_stay_propagated (cell_name filename : string) (w : World) :
  let w' := exec (makeTimingModel cell_name filename) w in
  propagated_clocks (sdc w')
  = list_to_set (clocks E) ∪ propagated_clocks (sdc w)
  ∧ (∀ clk, clk ∈ clocks E → clk ∈ propagated_clocks (sdc w'))
  ∧ ∃ post : list Call,
      trace w'
      = trace w ++ (SetPropagatedClock <$> clocks E) ++ SearchPreamble :: post
      ∧ Forall (λ c, is_propagate_call c = false) post.
Proof.
  cbn zeta.
  destruct (makeTimingModel_stages cell_name filename w)
    as (w0 & Ht0 & _ & _ & Hp0 & Hs & Ht).
  cbn zeta in Hs, Ht. rewrite Hs, Ht. clear Hs Ht.
  pose proof (run_summary_trans _ _ _ _ _ _ _ _ _
                (findTimingFromInputs_summary w0)
                (findClkedOutputPaths_summary (exec findTimingFromInputs w0)))
    as ((tr & Ht & _ & Hnp) & _ & _ & Hp).
  fold (exec findTimingFromInputs w0) in Ht, Hp.
  fold (exec findClkedOutputPaths (exec findTimingFromInputs w0)) in Ht, Hp.
  assert (propagated_clocks
            (sdc (exec findClkedOutputPaths (exec findTimingFromInputs w0)))
          = list_to_set (clocks E) ∪ propagated_clocks (sdc w)) as Heq
    by (by rewrite Hp, Hp0).
  split_and!.
  - done.
  - intros clk Hclk. rewrite Heq. set_solver.
  - exists tr. split; [|done]. by rewrite Ht, Ht0, <- !app_assoc.
Qed.

(** * Further properties *)

(** ** The analysis of one input pin, in closed form *)

Lemma visit_input_pin v pe : input_pin_ (visit v pe) = input_pin_ v.
Proof. unfold visit. by destruct (input_rf_ v). Qed.

Lemma foldl_visit_input_pin v pes : input_pin_ (foldl visit v pes) = input_pin_ v.
Proof.
  revert v. induction pes as [|pe pes IH]; intros v; [done|].
  cbn. by rewrite IH, visit_input_pin.
Qed.

Lemma fold_findTimingFromInputs_rf_run input_pin locals w :
  fold_each RF.range (findTimingFromInputs_rf input_pin) locals w
  = let s := sdc w in
    let s' := input_sdc_done s input_pin rise in
    ((foldl visit
        (setInputRf
           (foldl visit (setInputRf locals.1 rise) (visited_ends s input_pin rise))
           fall)
        (visited_ends s' input_pin fall),
      foldl (findOutputDelays_pin (input_sdc s' input_pin fall)
                                  (input_search s' input_pin fall) fall)
        (foldl (findOutputDelays_pin (input_sdc s input_pin rise)
                                     (input_search s input_pin rise) rise)
               locals.2 (top_pins E))
        (top_pins E)),
     (findTimingFromInputs_rf input_pin
        (findTimingFromInputs_rf input_pin locals rise w).1 fall
        (findTimingFromInputs_rf input_pin locals rise w).2).2).
Proof.
  unfold RF.range. cbn [fold_each]. rewrite !bind_run. cbn [ret].
  rewrite (surjective_pairing (findTimingFromInputs_rf _ _ fall _)) at 1.
  f_equal.
  rewrite (findTimingFromInputs_rf_run' _ _ fall).
  rewrite (findTimingFromInputs_rf_run' _ _ rise).
  cbn [fst snd sdc]. unfold visited_ends, input_sdc_done.
  by rewrite !foldl_foldl_bind.
Qed.

Lemma findTimingFromInputs_pin_visitor v input_pin w :
  analysed_input input_pin = true →
  eval (findTimingFromInputs_pin v input_pin) w
  = foldl visit
      (setInputRf
         (foldl visit (setInputRf (setInputPin v input_pin) rise)
                (visited_ends (sdc w) input_pin rise))
         fall)
      (visited_ends (input_sdc_done (sdc w) input_pin rise) input_pin fall).
Proof.
  intros Hin. unfold eval. rewrite findTimingFromInputs_pin_run, Hin.
  cbn zeta. cbn [fst].
  pose proof (fold_findTimingFromInputs_rf_run input_pin
                (setInputPin v input_pin, ∅) w) as Hrun.
  unfold RF.range in Hrun. cbn [fold_each] in Hrun.
  rewrite !bind_run in Hrun. cbn [ret] in Hrun.
  apply (f_equal (λ r, r.1.1)) in Hrun. exact Hrun.
Qed.

Lemma accumulated_output_delays_eq v input_pin w :
  accumulated_output_delays v input_pin w
  = let s := sdc w in
    let s' := input_sdc_done s input_pin rise in
    foldl (findOutputDelays_pin (input_sdc s' input_pin fall)
                                (input_search s' input_pin fall) fall)
      (foldl (findOutputDelays_pin (input_sdc s input_pin rise)
                                   (input_search s input_pin rise) rise)
             ∅ (top_pins E))
      (top_pins E).
Proof.
  unfold accumulated_output_delays, eval.
  by rewrite fold_findTimingFromInputs_rf_run.
Qed.

Lemma output_delays_at_empty p : output_delays_at ∅ p = OutputDelays_new.
Proof. unfold output_delays_at. by rewrite lookup_empty. Qed.

Lemma OutputDelays_new_value out_rf mm :
  rfmm_value (delays OutputDelays_new) out_rf mm = None.
Proof. by destruct out_rf, mm. Qed.

Lemma OutputDelays_new_exists in_rf out_rf :
  path_exists OutputDelays_new in_rf out_rf = false.
Proof. by destruct in_rf, out_rf. Qed.

Lemma findOutputDelays_pin_mono s sr input_rf opd q p :
  is_Some (opd !! p) →
  is_Some (findOutputDelays_pin s sr input_rf opd q !! p).
Proof.
  intros Hp. unfold findOutputDelays_pin.
  destruct (isOutput _); [|done].
  rewrite foldl_recordOutputPath. destruct (filter _ _); [done|].
  destruct (decide (q = p)) as [->|Hne].
  - by rewrite lookup_insert_eq.
  - by rewrite lookup_insert_ne.
Qed.

Lemma foldl_findOutputDelays_pin_mono s sr input_rf pins opd p :
  is_Some (opd !! p) →
  is_Some (foldl (findOutputDelays_pin s sr input_rf) opd pins !! p).
Proof.
  revert opd. induction pins as [|q pins IH]; intros opd Hp; [done|].
  cbn [foldl]. by apply IH, findOutputDelays_pin_mono.
Qed.

Lemma foldl_findOutputDelays_pin_hit s sr input_rf pins opd p :
  (if bool_decide (p ∈ pins) && isOutput (pin_direction E p)
   then filter (λ x, matchesFilter E s sr x)
               (vertexPaths E s sr (pinLoadVertex E p))
   else []) ≠ [] →
  is_Some (foldl (findOutputDelays_pin s sr input_rf) opd pins !! p).
Proof.
  revert opd. induction pins as [|q pins IH]; intros opd Hsome; [done|].
  cbn [foldl]. destruct (decide (q = p)) as [->|Hne].
  - apply foldl_findOutputDelays_pin_mono.
    rewrite bool_decide_true in Hsome by set_solver.
    unfold findOutputDelays_pin.
    destruct (isOutput (pin_direction E p)); [|done].
    rewrite foldl_recordOutputPath.
    destruct (filter _ _); [done|]. by rewrite lookup_insert_eq.
  - apply IH. destruct (decide (p ∈ pins)).
    + by rewrite bool_decide_true in Hsome |- * by set_solver.
    + by rewrite bool_decide_false in Hsome by set_solver.
Qed.

Lemma findTimingFromInputs_pin_margins (w : World) (v : MakeEndTimingArcs)
    (input_pin : Pin) (ce : ClockEdge) (rf : RiseFall) (mm : MinMax) :
  analysed_input input_pin = true →
  rfmm_value
    (margins_at (margins_ (eval (findTimingFromInputs_pin v input_pin) w)) ce)
    rf mm
  = path_end_margin
      <$> last (filter (λ pe, writes_slot ce mm pe)
                  (match rf with
                   | rise => visited_ends (sdc w) input_pin rise
                   | fall => visited_ends (input_sdc_done (sdc w) input_pin rise)
                                          input_pin fall
                   end)).
Proof.
  intros Hin. rewrite findTimingFromInputs_pin_visitor by done.
  rewrite !foldl_visit_value. cbn zeta.
  destruct rf; repeat case_decide; try done; cbn [setInputPin margins_];
    unfold margins_at; rewrite lookup_empty; by destruct (last _), mm.
Qed.

(** X1: when an input pin is analysed, the visitor it leaves behind is
    bound to that pin and its margins are those of this pin alone: the
    slot (clock edge, transition, extreme) holds the margin of the last
    path end shown during that transition's search that addresses clock
    edge and extreme, and nothing when there is none.  What earlier pins
    left in the visitor never shows. *)
Theorem margins_of_analysed_input (w : World) (v : MakeEndTimingArcs)
    (input_pin : Pin) :
  analysed_input input_pin = true →
  let v' := eval (findTimingFromInputs_pin v input_pin) w in
  let visited rf :=
    match rf with
    | rise => visited_ends (sdc w) input_pin rise
    | fall => visited_ends (input_sdc_done (sdc w) input_pin rise) input_pin fall
    end in
  input_pin_ v' = Some input_pin
  ∧ ∀ (ce : ClockEdge) (rf : RiseFall) (mm : MinMax),
      rfmm_value (margins_at (margins_ v') ce) rf mm
      = path_end_margin
          <$> last (filter (λ pe, writes_slot ce mm pe) (visited rf)).
Proof.
  intros Hin. cbn zeta. split.
  - rewrite findTimingFromInputs_pin_visitor by done.
    by rewrite foldl_visit_input_pin; cbn; rewrite foldl_visit_input_pin.
  - intros ce rf mm. by apply findTimingFromInputs_pin_margins.
Qed.

Lemma accumulated_output_delays_value (w : World) (v : MakeEndTimingArcs)
    (input_pin output_pin : Pin) (out_rf : RiseFall) (mm : MinMax) :
  NoDup (top_pins E) →
  rfmm_value
    (delays (output_delays_at (accumulated_output_delays v input_pin w)
                              output_pin)) out_rf mm
  = worst_of mm None
      (filter (λ p, in_slot out_rf mm p)
         (recorded_paths (sdc w) input_pin rise output_pin
          ++ recorded_paths (input_sdc_done (sdc w) input_pin rise)
                            input_pin fall output_pin)).
Proof.
  intros Hnd. rewrite accumulated_output_delays_eq. cbn zeta.
  unfold recorded_paths, matching_paths.
  rewrite !foldl_findOutputDelays_pin_at by done.
  rewrite !record_path_value, filter_app. unfold worst_of.
  by rewrite foldl_app, output_delays_at_empty, OutputDelays_new_value.
Qed.

Lemma accumulated_output_delays_lookup (w : World) (v : MakeEndTimingArcs)
    (input_pin output_pin : Pin) :
  accumulated_output_delays v input_pin w !! output_pin = None
  ↔ recorded_paths (sdc w) input_pin rise output_pin = []
    ∧ recorded_paths (input_sdc_done (sdc w) input_pin rise)
                     input_pin fall output_pin = [].
Proof.
  rewrite accumulated_output_delays_eq. cbn zeta.
  unfold recorded_paths, matching_paths.
  set (s' := input_sdc_done (sdc w) input_pin rise).
  split.
  - intros Hnone. split.
    + destruct (decide ((if bool_decide (output_pin ∈ top_pins E)
                            && isOutput (pin_direction E output_pin)
                         then filter (λ x, matchesFilter E
                                 (input_sdc (sdc w) input_pin rise)
                                 (input_search (sdc w) input_pin rise) x)
                                (vertexPaths E
                                 (input_sdc (sdc w) input_pin rise)
                                 (input_search (sdc w) input_pin rise)
                                 (pinLoadVertex E output_pin))
                         else []) = [])) as [He|Hne]; [done|].
      apply (foldl_findOutputDelays_pin_hit _ _ rise _ ∅) in Hne.
      apply (foldl_findOutputDelays_pin_mono
               (input_sdc s' input_pin fall) (input_search s' input_pin fall)
               fall (top_pins E)) in Hne.
      rewrite Hnone in Hne. by destruct Hne.
    + destruct (decide ((if bool_decide (output_pin ∈ top_pins E)
                            && isOutput (pin_direction E output_pin)
                         then filter (λ x, matchesFilter E
                                 (input_sdc s' input_pin fall)
                                 (input_search s' input_pin fall) x)
                                (vertexPaths E
                                 (input_sdc s' input_pin fall)
                                 (input_search s' input_pin fall)
                                 (pinLoadVertex E output_pin))
                         else []) = [])) as [He|Hne]; [done|].
      eapply foldl_findOutputDelays_pin_hit in Hne.
      rewrite Hnone in Hne. by destruct Hne.
  - intros [Hr Hf].
    rewrite !foldl_findOutputDelays_pin_lookup by done. done.
Qed.

(** X2: the output delays accumulated for an input pin, as handed to
    [makeInputOutputTimingArcs], start empty for every pin: for an
    output pin, the delay slot (output transition, extreme) holds the
    worst of the arrivals recorded during the rise search followed by
    those of the fall search ([worst_of]: the first arrival, replaced
    by each later one that is greater for max, less for min), the
    existence entry (input transition,
    output transition) tells whether the search of that input transition
    recorded a path with that output transition, and the pin has no
    entry exactly when neither search recorded a path for it. *)
Theorem accumulated_output_delays_records (w : World) (v : MakeEndTimingArcs)
    (input_pin : Pin) :
  NoDup (top_pins E) →
  let opd := accumulated_output_delays v input_pin w in
  let ps in_rf :=
    match in_rf with
    | rise => recorded_paths (sdc w) input_pin rise
    | fall => recorded_paths (input_sdc_done (sdc w) input_pin rise)
                             input_pin fall
    end in
  ∀ output_pin : Pin,
    (∀ out_rf mm,
       rfmm_value (delays (output_delays_at opd output_pin)) out_rf mm
       = worst_of mm None
           (filter (λ p, in_slot out_rf mm p)
                   (ps rise output_pin ++ ps fall output_pin)))
    ∧ (∀ in_rf out_rf,
       path_exists (output_delays_at opd output_pin) in_rf out_rf
       = existsb (λ p, bool_decide (pv_transition p = out_rf))
                 (ps in_rf output_pin))
    ∧ (opd !! output_pin = None
       ↔ ps rise output_pin = [] ∧ ps fall output_pin = []).
Proof.
  intros Hnd. cbn zeta. intros output_pin. split_and!.
  - intros out_rf mm. by apply accumulated_output_delays_value.
  - intros in_rf out_rf. rewrite accumulated_output_delays_eq. cbn zeta.
    unfold recorded_paths, matching_paths.
    rewrite !foldl_findOutputDelays_pin_at by done.
    rewrite !record_path_exists, output_delays_at_empty,
            OutputDelays_new_exists.
    destruct in_rf; cbn; by rewrite ?orb_false_r.
  - apply accumulated_output_delays_lookup.
Qed.

(** X3: exchanging the roles of the two output transitions in the
    existence matrix, or those of the two input transitions, exchanges
    positive-unate and negative-unate and leaves non-unate and none as
    they are. *)
Theorem timingSense_inverts (od od' : OutputDelays) :
  (∀ in_rf out_rf,
     path_exists od' in_rf out_rf = path_exists od in_rf (opposite out_rf))
  ∨ (∀ in_rf out_rf,
     path_exists od' in_rf out_rf = path_exists od (opposite in_rf) out_rf) →
  timingSense od' = inverted (timingSense od).
Proof.
  intros H. rewrite !timingSense_unfold. cbn zeta.
  destruct H as [H|H]; rewrite !H; cbn [opposite];
    destruct (path_exists od rise rise), (path_exists od rise fall),
             (path_exists od fall rise), (path_exists od fall fall);
    reflexivity.
Qed.

(** ** What a computation leaves alone *)

Lemma keeps_ret {A X} (π : World → X) (a : A) : keeps π (ret a).
Proof. done. Qed.

Lemma keeps_bind {A B X} (π : World → X) (m : M A) (k : A → M B) :
  keeps π m → (∀ a, keeps π (k a)) → keeps π (bind m k).
Proof. intros Hm Hk w. rewrite bind_run, Hk. apply Hm. Qed.

Lemma keeps_for_each {A X} (π : World → X) (l : list A) body :
  (∀ x, keeps π (body x)) → keeps π (for_each l body).
Proof.
  intros Hbody. induction l as [|x l IH]; [done|].
  cbn [for_each]. by apply keeps_bind.
Qed.

Lemma keeps_fold_each {A S X} (π : World → X) (l : list A)
    (body : S → A → M S) s :
  (∀ s x, keeps π (body s x)) → keeps π (fold_each l body s).
Proof.
  intros Hbody. revert s. induction l as [|x l IH]; intros s; [done|].
  cbn [fold_each]. by apply keeps_bind.
Qed.

Lemma keeps_update_port {X} (π : World → X) port f :
  (∀ s sr l c tr g,
     π (mkWorld s sr l
          (mkLibertyCell (cell_name c) (cell_filename c) (g <$> cell_ports c)
                         (arc_sets c) (finished c)) tr)
     = π (mkWorld s sr l c tr)) →
  keeps π (update_port port f).
Proof.
  intros Hπ [s sr l c tr]. destruct port; [|done]. apply Hπ.
Qed.

Ltac keeps_steps :=
  repeat first
    [ apply keeps_bind; [|intros ?]
    | apply keeps_for_each; intros ?
    | apply keeps_fold_each; intros ? ?
    | apply keeps_ret
    | apply keeps_update_port; by intros ? ? ? [] ? ?
    | done ].

Lemma makeTimingModel_run cell_name filename w :
  makeTimingModel cell_name filename w
  = let wf := exec cell_finish
                (exec findClkedOutputPaths
                   (exec findTimingFromInputs
                      (exec (preamble cell_name filename) w))) in
    (library_ wf, wf).
Proof.
  unfold makeTimingModel, preamble, exec. by rewrite !bind_run.
Qed.

Lemma findTimingFromInputs_rf_frame {X} (π : LibertyLibrary → LibertyCell → X)
    input_pin locals input_rf :
  keeps (λ w, π (library_ w) (cell_ w))
        (findTimingFromInputs_rf input_pin locals input_rf).
Proof. intros w. by rewrite findTimingFromInputs_rf_run'. Qed.

Lemma findTimingFromInputs_keeps {X} (π : World → X) :
  (∀ l w, π (add_arc_sets l w) = π w) →
  (∀ s sr l c tr s' sr' tr',
     π (mkWorld s sr l c tr) = π (mkWorld s' sr' l c tr')) →
  keeps π findTimingFromInputs.
Proof.
  intros Harcs Hsta. unfold findTimingFromInputs.
  apply keeps_bind; [|done]. apply keeps_fold_each. intros v input_pin w.
  rewrite findTimingFromInputs_pin_run.
  destruct (analysed_input input_pin); [|done].
  cbn zeta. cbn [snd]. rewrite Harcs, !findTimingFromInputs_rf_run'.
  cbn zeta. cbn [snd library_ cell_]. destruct w. apply Hsta.
Qed.

Lemma findClkedOutputPaths_keeps {X} (π : World → X) :
  (∀ l w, π (add_arc_sets l w) = π w) →
  (∀ s sr l c tr s' sr' tr',
     π (mkWorld s sr l c tr) = π (mkWorld s' sr' l c tr')) →
  keeps π findClkedOutputPaths.
Proof.
  intros Harcs Hsta w0. rewrite findClkedOutputPaths_flat.
  cut (∀ l w, π (for_each l (clked_body w0) w).2 = π w); [by intros H|].
  intros l. induction l as [|c l IH]; intros w; [done|].
  cbn [for_each]. rewrite bind_run, IH.
  destruct c as [[[output_pin clk] clk_pin] clk_rf]. unfold clked_body.
  rewrite findClkedOutputPaths_clk_rf_run. cbn zeta. cbn [snd].
  rewrite Harcs. destruct w. apply Hsta.
Qed.

(** ** The preamble: library, cell and ports *)

Lemma makeLibrary_library cell_name filename w :
  library_ (exec (makeLibrary cell_name filename) w)
  = let lib := makeLibertyLibrary E cell_name filename in
    let default_lib := defaultLibertyLibrary E in
    mkLibertyLibrary (lib_name lib) (lib_filename lib) (units default_lib)
      (inputThreshold default_lib) (outputThreshold default_lib)
      (slewLowerThreshold default_lib) (slewUpperThreshold default_lib)
      (delayModelType default_lib) (nominalProcess default_lib)
      (nominalVoltage default_lib) (nominalTemperature default_lib)
      (bus_dcls lib) (template_maps lib).
Proof.
  unfold exec, makeLibrary. cbn.
  destruct (units (defaultLibertyLibrary E)).
  destruct (inputThreshold (defaultLibertyLibrary E)),
           (outputThreshold (defaultLibertyLibrary E)),
           (slewLowerThreshold (defaultLibertyLibrary E)),
           (slewUpperThreshold (defaultLibertyLibrary E)).
  reflexivity.
Qed.

Lemma makePorts_library w :
  library_ (exec makePorts w)
  = let l := library_ w in
    mkLibertyLibrary (lib_name l) (lib_filename l) (units l)
      (inputThreshold l) (outputThreshold l)
      (slewLowerThreshold l) (slewUpperThreshold l)
      (delayModelType l) (nominalProcess l)
      (nominalVoltage l) (nominalTemperature l)
      (bus_dcls l
       ++ ((λ port, mkBusDcl (port_name E port) (fromIndex E port) (toIndex E port))
             <$> filter (λ port, isBus E port) (top_ports E)))
      (template_maps l).
Proof.
  unfold exec, makePorts. revert w.
  induction (top_ports E) as [|port ports IH]; intros w.
  - cbn. rewrite app_nil_r. by destruct (library_ w).
  - cbn [for_each]. rewrite bind_run, IH. clear IH. cbn zeta.
    destruct (isBus E port) eqn:Hbus.
    + rewrite filter_cons_True by (by rewrite Hbus).
      rewrite bind_run.
      match goal with
      | |- context [bind ?m ?k (addBusDcl ?d w).2] =>
          assert (keeps library_ (bind m k)) as -> by keeps_steps
      end.
      cbn. by rewrite <- app_assoc.
    + rewrite filter_cons_False by (rewrite Hbus; intros []).
      match goal with
      | |- context [(bind ?m ?k w).2] =>
          assert (keeps library_ (bind m k)) as -> by keeps_steps
      end.
      done.
Qed.

Lemma preamble_library cell_name filename w :
  library_ (exec (preamble cell_name filename) w)
  = model_library cell_name filename.
Proof.
  unfold preamble, exec. rewrite !bind_run.
  assert (keeps library_ searchPreamble) as -> by done.
  assert (keeps library_ (for_each (clocks E) setPropagatedClock)) as ->
    by keeps_steps.
  fold (exec (makeLibrary cell_name filename) w).
  fold (exec (makeCell cell_name filename)
             (exec (makeLibrary cell_name filename) w)).
  fold (exec makePorts (exec (makeCell cell_name filename)
                          (exec (makeLibrary cell_name filename) w))).
  rewrite makePorts_library. cbn zeta.
  change (library_ (exec (makeCell cell_name filename)
                         (exec (makeLibrary cell_name filename) w)))
    with (library_ (exec (makeLibrary cell_name filename) w)).
  by rewrite makeLibrary_library.
Qed.

Lemma analysis_keeps {X} (π : World → X) w :
  (∀ l w, π (add_arc_sets l w) = π w) →
  (∀ s sr l c tr s' sr' tr',
     π (mkWorld s sr l c tr) = π (mkWorld s' sr' l c tr')) →
  π (exec findClkedOutputPaths (exec findTimingFromInputs w)) = π w.
Proof.
  intros Harcs Hsta. unfold exec.
  by rewrite findClkedOutputPaths_keeps, findTimingFromInputs_keeps.
Qed.

(** X4: the library [makeTimingModel] returns is the one the network
    makes for the cell name and file, with the units, the four
    thresholds of both transitions, the delay model type and the nominal
    process, voltage and temperature of the default library, and with
    one bus declaration added, in port order, for every top-level bus
    port; its table templates are those the network's library came
    with, so that is where the "scalar" template has to come from.  The
    library the object held before plays no part. *)
Theorem makeTimingModel_returns_library (cell_name filename : string)
    (w : World) :
  eval (makeTimingModel cell_name filename) w = model_library cell_name filename
  ∧ library_ (exec (makeTimingModel cell_name filename) w)
    = model_library cell_name filename
  ∧ findTableTemplate (eval (makeTimingModel cell_name filename) w)
                      "scalar" tt_delay
    = findTableTemplate (makeLibertyLibrary E cell_name filename)
                        "scalar" tt_delay.
Proof.
  unfold eval, exec. rewrite makeTimingModel_run. cbn zeta. cbn [fst snd].
  assert (library_
            (exec cell_finish
               (exec findClkedOutputPaths
                  (exec findTimingFromInputs
                     (exec (preamble cell_name filename) w))))
          = model_library cell_name filename) as ->.
  { change (library_ (exec cell_finish ?w')) with (library_ w').
    rewrite (analysis_keeps library_) by done. apply preamble_library. }
  done.
Qed.

Lemma update_port_names port f :
  (∀ p, lp_name (f p) = lp_name p) → keeps port_names (update_port port f).
Proof.
  intros Hf [s sr l c tr]. destruct port; [|done].
  unfold port_names. cbn. rewrite <- list_fmap_compose.
  apply list_fmap_ext. intros i p _. cbn. by case_bool_decide.
Qed.

Lemma makeBitPorts_names name indices w :
  port_names
    (for_each indices (λ i : Z,
       set_cell (add_port (mkLibertyPort (bus_bit_name name i) None None None)))
       w).2
  = port_names w ++ (bus_bit_name name <$> indices).
Proof.
  revert w. induction indices as [|i indices IH]; intros w.
  - cbn. by rewrite app_nil_r.
  - cbn [for_each]. rewrite bind_run, IH. unfold port_names. cbn.
    by rewrite fmap_app, <- app_assoc.
Qed.

Lemma makePorts_names w :
  port_names (exec makePorts w)
  = port_names w
    ++ (top_ports E ≫= λ port,
          if isBus E port
          then port_name E port
               :: (bus_bit_name (port_name E port)
                     <$> bus_indices (fromIndex E port) (toIndex E port))
          else [port_name E port]).
Proof.
  unfold exec, makePorts. revert w.
  induction (top_ports E) as [|port ports IH]; intros w.
  - cbn. by rewrite app_nil_r.
  - cbn [for_each]. rewrite bind_run, IH. clear IH. rewrite bind_cons.
    rewrite app_assoc. f_equal. cbn zeta.
    destruct (isBus E port).
    + rewrite !bind_run.
      match goal with
      | |- context [for_each (memberIterator E port) ?body] =>
          assert (keeps port_names (for_each (memberIterator E port) body)) as ->
      end.
      { apply keeps_for_each. intros bit. apply keeps_bind; [done|intros ?].
        by apply update_port_names. }
      unfold setDirection. rewrite update_port_names by done.
      unfold builder_makeBusPort. rewrite !bind_run. cbn [ret snd].
      rewrite makeBitPorts_names.
      assert (keeps port_names
                (addBusDcl (mkBusDcl (port_name E port) (fromIndex E port)
                                     (toIndex E port)))) as Hk by done.
      unfold port_names at 1. cbn [set_cell snd cell_ add_port cell_ports].
      rewrite fmap_app. fold (port_names (addBusDcl
        (mkBusDcl (port_name E port) (fromIndex E port) (toIndex E port)) w).2).
      rewrite Hk. cbn. by rewrite <- app_assoc.
    + rewrite !bind_run.
      unfold setCapacitance, setDirection.
      rewrite !update_port_names by done.
      unfold port_names. cbn. by rewrite fmap_app.
Qed.

Lemma update_port_fresh (name : string) (f : LibertyPort → LibertyPort)
    (ports : list LibertyPort) :
  name ∉ lp_name <$> ports →
  (λ p, if bool_decide (lp_name p = name) then f p else p) <$> ports = ports.
Proof.
  intros Hfresh. induction ports as [|p ports IH]; [done|].
  cbn. rewrite IH by set_solver.
  rewrite bool_decide_false; [done|]. set_solver.
Qed.

Lemma makeScalarPorts_run (ports : list Port) w :
  (∀ port, port ∈ ports → isBus E port = false) →
  NoDup (port_name E <$> ports) →
  (∀ port, port ∈ ports → port_name E port ∉ port_names w) →
  cell_ (for_each ports (λ port,
           let name := port_name E port in
           if isBus E port then
             let from_index := fromIndex E port in
             let to_index := toIndex E port in
             let bus_dcl := mkBusDcl name from_index to_index in
             addBusDcl bus_dcl ;;
             lib_port <- builder_makeBusPort name from_index to_index ;;
             setDirection lib_port (port_direction E port) ;;
             for_each (memberIterator E port) (λ bit_port,
               let pin := findPin E bit_port in
               lib_bit_port <- modelPort pin ;;
               let load_cap := loadCap E pin
                                 (dcalc_ap_index E (corner_ E) min_max_) in
               setCapacitance lib_bit_port load_cap)
           else
             lib_port <- builder_makePort name ;;
             setDirection lib_port (port_direction E port) ;;
             let pin := findPin E port in
             let load_cap := loadCap E pin
                               (dcalc_ap_index E (corner_ E) min_max_) in
             setCapacitance lib_port load_cap) w).2
  = mkLibertyCell (cell_name (cell_ w)) (cell_filename (cell_ w))
                  (cell_ports (cell_ w) ++ (scalar_port <$> ports))
                  (arc_sets (cell_ w)) (finished (cell_ w)).
Proof.
  revert w. induction ports as [|port ports IH]; intros w Hscalar Hnd Hfresh.
  - cbn. rewrite app_nil_r. by destruct (cell_ w).
  - cbn [for_each]. rewrite bind_run.
    rewrite fmap_cons in Hnd. apply NoDup_cons in Hnd as [Hport Hnd].
    assert (port_name E port ∉ port_names w) as Hnew
      by (apply Hfresh; left).
    cbn zeta. rewrite (Hscalar port) by left.
    rewrite !bind_run.
    cbn [builder_makePort setDirection setCapacitance update_port set_cell
         bind ret fst snd cell_ library_ sdc search trace add_port
         cell_name cell_filename cell_ports arc_sets finished].
    rewrite !fmap_app.
    rewrite !(update_port_fresh _ _ (cell_ports (cell_ w))) by done.
    cbn [fmap list_fmap lp_name].
    rewrite !(bool_decide_true (port_name E port = port_name E port)) by done.
    cbn [lp_name lp_direction lp_capacitance lp_bus].
    rewrite IH.
    + cbn. by rewrite <- app_assoc.
    + intros p Hp. apply Hscalar. by right.
    + done.
    + intros p Hp. unfold port_names. cbn. rewrite fmap_app. cbn.
      rewrite elem_of_app, list_elem_of_singleton. intros [Hold|Heq].
      * revert Hold. apply Hfresh. by right.
      * apply Hport. rewrite <- Heq. by apply list_elem_of_fmap_2.
Qed.

Lemma makePorts_keeps_cell_parts {X}
    (π : string → string → list TimingArcSet → bool → X) :
  keeps (λ w, π (cell_name (cell_ w)) (cell_filename (cell_ w))
                (arc_sets (cell_ w)) (finished (cell_ w))) makePorts.
Proof.
  unfold makePorts. apply keeps_for_each. intros port. cbn zeta.
  destruct (isBus E port); keeps_steps.
Qed.

Lemma preamble_cell_parts name filename w :
  let w0 := exec (preamble name filename) w in
  (cell_name (cell_ w0), cell_filename (cell_ w0),
   arc_sets (cell_ w0), finished (cell_ w0))
  = (name, filename, [], false)
  ∧ port_names w0
    = top_ports E ≫= λ port,
        if isBus E port
        then port_name E port
             :: (bus_bit_name (port_name E port)
                   <$> bus_indices (fromIndex E port) (toIndex E port))
        else [port_name E port].
Proof.
  cbn zeta. unfold preamble, exec. rewrite !bind_run.
  set (w1 := (makeCell name filename (makeLibrary name filename w).2).2).
  set (w2 := (makePorts w1).2).
  assert (cell_ (searchPreamble (for_each (clocks E) setPropagatedClock w2).2).2
          = cell_ w2) as Hcell.
  { assert (keeps cell_ searchPreamble) as -> by done.
    assert (keeps cell_ (for_each (clocks E) setPropagatedClock)) as ->
      by keeps_steps.
    done. }
  unfold port_names. rewrite Hcell. split.
  - subst w2.
    rewrite (makePorts_keeps_cell_parts (λ a b c d, (a, b, c, d)) w1). done.
  - fold (port_names w2). subst w2. fold (exec makePorts w1).
    by rewrite makePorts_names.
Qed.

Lemma preamble_scalar_cell cell_name filename w :
  (∀ port, port ∈ top_ports E → isBus E port = false) →
  NoDup (port_name E <$> top_ports E) →
  cell_ (exec (preamble cell_name filename) w)
  = mkLibertyCell cell_name filename (scalar_port <$> top_ports E) [] false.
Proof.
  intros Hscalar Hnd. unfold preamble, exec. rewrite !bind_run.
  set (w1 := (makeCell cell_name filename (makeLibrary cell_name filename w).2).2).
  assert (keeps cell_ searchPreamble) as -> by done.
  assert (keeps cell_ (for_each (clocks E) setPropagatedClock)) as ->
    by keeps_steps.
  unfold makePorts. cbn zeta. rewrite makeScalarPorts_run; try done.
  intros port _. unfold port_names. cbn. apply not_elem_of_nil.
Qed.

(** X5: the cell [makeTimingModel] leaves behind carries the given name
    and file name and is finished; its ports are made by [makePorts]
    alone, in the order of the top-level ports: one port per scalar
    port, and for a bus port the bus followed by one bit port per index
    from its first to its last index, counting up or down.  So every
    top-level port has a library port of its name, which is what
    [modelPort] relies on. *)
Theorem model_cell_ports (name filename : string) (w : World) :
  let w' := exec (makeTimingModel name filename) w in
  cell_name (cell_ w') = name
  ∧ cell_filename (cell_ w') = filename
  ∧ finished (cell_ w') = true
  ∧ port_names w'
    = (top_ports E ≫= λ port,
         if isBus E port
         then port_name E port
              :: (bus_bit_name (port_name E port)
                    <$> bus_indices (fromIndex E port) (toIndex E port))
         else [port_name E port])
  ∧ ∀ port, port ∈ top_ports E →
      findLibertyPort (cell_ w') (port_name E port) = Some (port_name E port).
Proof.
  cbn zeta. unfold exec at 1 2 3 4. rewrite makeTimingModel_run.
  cbn zeta. cbn [snd].
  set (w0 := exec (preamble name filename) w).
  set (w2 := exec findClkedOutputPaths (exec findTimingFromInputs w0)).
  destruct (preamble_cell_parts name filename w) as [Hparts Hnames].
  cbn zeta in Hparts, Hnames. fold w0 in Hparts, Hnames.
  assert (cell_name (cell_ w2) = name
          ∧ cell_filename (cell_ w2) = filename) as [Hn Hf].
  { subst w2.
    rewrite (analysis_keeps (λ w, cell_name (cell_ w))) by done.
    rewrite (analysis_keeps (λ w, cell_filename (cell_ w))) by done.
    by injection Hparts as -> -> _ _. }
  assert (port_names (exec cell_finish w2) = port_names w0) as Hports.
  { change (port_names (exec cell_finish w2)) with (port_names w2).
    subst w2. by rewrite (analysis_keeps port_names). }
  split_and!; try done.
  - by rewrite Hports.
  - intros port Hport. unfold exec. rewrite makeTimingModel_run.
    cbn zeta. cbn [snd]. fold w0. fold w2. unfold findLibertyPort.
    fold (port_names (exec cell_finish w2)).
    rewrite bool_decide_true; [done|]. rewrite Hports, Hnames.
    apply list_elem_of_bind. exists port. split; [|done].
    destruct (isBus E port); [left|by apply list_elem_of_singleton].
Qed.

(** X6: for a design whose top-level ports are all scalar and have
    different names, the ports of the model cell are exactly one per
    top-level port, in order, each with the port's name, the port's
    direction and, as capacitance, the load capacitance of the port's
    pin at the max delay-calculation analysis point of the corner;
    the analysis adds arcs but never touches the ports. *)
Theorem scalar_ports_built (cell_name filename : string) (w : World) :
  (∀ port, port ∈ top_ports E → isBus E port = false) →
  NoDup (port_name E <$> top_ports E) →
  cell_ports (cell_ (exec (makeTimingModel cell_name filename) w))
  = scalar_port <$> top_ports E.
Proof.
  intros Hscalar Hnd. unfold exec. rewrite makeTimingModel_run.
  cbn zeta. cbn [snd].
  change (cell_ports (cell_ (exec cell_finish ?w')))
    with (cell_ports (cell_ w')).
  rewrite (analysis_keeps (λ w, cell_ports (cell_ w))) by done.
  by rewrite preamble_scalar_cell.
Qed.

(** ** Constraints over a whole run *)

Lemma makeTimingModel_sdc cell_name filename w :
  let w' := exec (makeTimingModel cell_name filename) w in
  (∀ k, input_delays (sdc w') !! k
        = if decide (k ∈ run_input_keys) then None
          else input_delays (sdc w) !! k)
  ∧ (∀ k, output_delays (sdc w') !! k
          = if decide (k ∈ run_output_keys) then None
            else output_delays (sdc w) !! k)
  ∧ propagated_clocks (sdc w')
    = list_to_set (clocks E) ∪ propagated_clocks (sdc w).
Proof.
  cbn zeta.
  destruct (makeTimingModel_stages cell_name filename w)
    as (w0 & _ & Hi0 & Ho0 & Hp0 & Hs & _).
  cbn zeta in Hs. rewrite Hs. clear Hs.
  pose proof (run_summary_trans _ _ _ _ _ _ _ _ _
                (findTimingFromInputs_summary w0)
                (findClkedOutputPaths_summary (exec findTimingFromInputs w0)))
    as (_ & Hi & Ho & Hp).
  fold (exec findTimingFromInputs w0) in Hi, Ho, Hp.
  fold (exec findClkedOutputPaths (exec findTimingFromInputs w0)) in Hi, Ho, Hp.
  rewrite app_nil_r in Hi. cbn [app] in Ho.
  split_and!.
  - intros k. by rewrite Hi, Hi0.
  - intros k. by rewrite Ho, Ho0.
  - by rewrite Hp, Hp0.
Qed.

(** X7: what a whole run of [makeTimingModel] does to the constraints
    it was started with.  An input-delay slot the run uses for an
    analysed input pin (any transition and extreme, relative to the
    default arrival clock edge) is empty afterwards, so a constraint of
    the designer's in such a slot is lost; so is an output-delay slot
    the run uses (max, relative to an edge of a clock with pins).  Every
    other slot holds what it held before.  When the constraints held
    nothing in the slots of the run, they come back as they were, with
    the design's clocks propagated. *)
Theorem constraints_after_run (cell_name filename : string) (w : World) :
  let w' := exec (makeTimingModel cell_name filename) w in
  (∀ k, input_delays (sdc w') !! k
        = if decide (k ∈ run_input_keys) then None
          else input_delays (sdc w) !! k)
  ∧ (∀ k, output_delays (sdc w') !! k
          = if decide (k ∈ run_output_keys) then None
            else output_delays (sdc w) !! k)
  ∧ ((∀ k, k ∈ run_input_keys → input_delays (sdc w) !! k = None) →
     (∀ k, k ∈ run_output_keys → output_delays (sdc w) !! k = None) →
     sdc w' = mkSdc (input_delays (sdc w)) (output_delays (sdc w))
                    (list_to_set (clocks E) ∪ propagated_clocks (sdc w))).
Proof.
  cbn zeta.
  destruct (makeTimingModel_sdc cell_name filename w) as (Hi & Ho & Hp).
  cbn zeta in Hi, Ho, Hp. split_and!; [done|done|].
  intros Hin Hout.
  destruct (sdc (exec (makeTimingModel cell_name filename) w))
    as [ids ods pcs] eqn:Hs.
  cbn in Hi, Ho, Hp. f_equal; [| |done].
  - apply map_eq. intros k. rewrite Hi. case_decide; [|done].
    by rewrite Hin.
  - apply map_eq. intros k. rewrite Ho. case_decide; [|done].
    by rewrite Hout.
Qed.

(** ** The shape of the arcs *)

Lemma bundle_Some m_rise m_fall attrs :
  bundle m_rise m_fall = Some attrs →
  timing_sense attrs = sense_unknown
  ∧ models attrs = mkArray2 m_rise m_fall
  ∧ (is_Some m_rise ∨ is_Some m_fall).
Proof.
  unfold bundle. destruct m_rise, m_fall; intros [= <-]; split_and!;
    try done; eauto.
Qed.

Lemma bundle_carries kind m_rise m_fall attrs :
  bundle m_rise m_fall = Some attrs →
  (∀ m, m_rise = Some m → kind m = true) →
  (∀ m, m_fall = Some m → kind m = true) →
  carries_models kind attrs.
Proof.
  intros (_ & Hm & Hsome)%bundle_Some Hr Hf. unfold carries_models.
  rewrite Hm. split.
  - destruct Hsome; [by exists rise|by exists fall].
  - intros [] m; cbn; eauto.
Qed.

Lemma model_arc_ports w w' a :
  cell_ports (cell_ w') = cell_ports (cell_ w) → model_arc w a → model_arc w' a.
Proof.
  intros Hports. unfold model_arc.
  assert (∀ pin, port_of w' pin = port_of w pin) as Hp
    by (intros; by apply port_of_ports).
  destruct a; by setoid_rewrite Hp.
Qed.

Lemma appends_model_arcs_refl w : appends_model_arcs w w.
Proof. split; [done|]. exists []. by rewrite app_nil_r. Qed.

Lemma appends_model_arcs_trans w w1 w2 :
  appends_model_arcs w w1 → appends_model_arcs w1 w2 →
  appends_model_arcs w w2.
Proof.
  intros (Hp1 & new1 & Ha1 & Hf1) (Hp2 & new2 & Ha2 & Hf2). split.
  - by rewrite Hp2.
  - exists (new1 ++ new2). split; [by rewrite Ha2, Ha1, app_assoc|].
    apply Forall_app. split; [done|].
    eapply Forall_impl; [exact Hf2|]. intros a. by apply model_arc_ports.
Qed.

Lemma setupHoldArcs_spec_shape w input_pin clk_edge margins mm :
  input_pin ∈ top_pins E → analysed_input input_pin = true →
  Forall (model_arc w) (setupHoldArcs_spec w input_pin clk_edge margins mm).
Proof.
  intros Hpin Hin. unfold setupHoldArcs_spec.
  destruct (bundle _ _) as [attrs|] eqn:Hb; [|done].
  apply Forall_fmap, Forall_forall. intros clk_pin Hclk. cbn.
  pose proof (bundle_Some _ _ _ Hb) as (Hsense & _ & _).
  split_and!; [done|done|]. left. split_and!.
  - destruct mm; eauto.
  - eapply bundle_carries; [exact Hb| |];
      intros m;
      match goal with
      | |- context [rfmm_value ?a ?b ?c] => destruct (rfmm_value a b c)
      end; intros ?; by simplify_eq/=.
  - eauto.
  - eauto.
Qed.

Lemma timingSense_definite od in_rf out_rf :
  path_exists od in_rf out_rf = true →
  timingSense od ∈ [positive_unate; negative_unate; non_unate].
Proof.
  intros Hex. rewrite timingSense_unfold. cbn zeta.
  destruct in_rf, out_rf; rewrite Hex;
    repeat match goal with
           | |- context [path_exists od ?a ?b] =>
               destruct (path_exists od a b)
           end; cbn; set_solver.
Qed.

Lemma inputOutputArcs_spec_shape w input_pin output_pin od in_rf out_rf :
  input_pin ∈ top_pins E → analysed_input input_pin = true →
  output_pin ∈ top_pins E → isOutput (pin_direction E output_pin) = true →
  path_exists od in_rf out_rf = true →
  Forall (model_arc w) (inputOutputArcs_spec w input_pin (output_pin, od)).
Proof.
  intros Hpin Hin Hopin Hout Hex. unfold inputOutputArcs_spec. cbn [fst snd].
  destruct (bundle _ _) as [attrs|] eqn:Hb; [|done].
  apply Forall_singleton. cbn. split_and!; try done.
  - by eapply timingSense_definite.
  - eapply (bundle_carries is_gate_model) in Hb.
    + exact Hb.
    + intros m; destruct (rfmm_value (delays od) rise max); intros ?;
        by simplify_eq/=.
    + intros m; destruct (rfmm_value (delays od) fall max); intros ?;
        by simplify_eq/=.
  - eauto.
  - eauto.
Qed.

Lemma accumulated_output_delays_ok v input_pin w :
  recorded_ok (accumulated_output_delays v input_pin w).
Proof.
  rewrite accumulated_output_delays_eq. cbn zeta.
  apply foldl_findOutputDelays_pin_ok; [done|].
  apply foldl_findOutputDelays_pin_ok; [done|]. apply recorded_ok_empty.
Qed.

Lemma findTimingFromInputs_pin_shape v input_pin w :
  input_pin ∈ top_pins E →
  appends_model_arcs w (exec (findTimingFromInputs_pin v input_pin) w).
Proof.
  intros Hpin. unfold exec. rewrite findTimingFromInputs_pin_run.
  destruct (analysed_input input_pin) eqn:Hin;
    [|apply appends_model_arcs_refl].
  cbn zeta. cbn [snd].
  set (r1 := findTimingFromInputs_rf input_pin (setInputPin v input_pin, ∅) rise w).
  set (r2 := findTimingFromInputs_rf input_pin r1.1 fall r1.2).
  assert (cell_ r2.2 = cell_ w) as Hcell.
  { subst r2 r1. by rewrite !findTimingFromInputs_rf_run'. }
  assert (r2.1.2 = accumulated_output_delays v input_pin w) as Hopd.
  { unfold accumulated_output_delays, eval, RF.range. cbn [fold_each].
    by rewrite !bind_run. }
  unfold add_arc_sets. cbn [cell_ cell_ports arc_sets]. rewrite Hcell.
  split; [done|]. eexists. split; [done|].
  apply Forall_app. split.
  - apply Forall_forall. intros arc Harc.
    apply list_elem_of_bind in Harc as (cem & Harc & _).
    apply list_elem_of_bind in Harc as (mm & Harc & _).
    apply (model_arc_ports r2.2); [by rewrite Hcell|].
    revert arc Harc. apply Forall_forall.
    by apply setupHoldArcs_spec_shape.
  - apply Forall_forall. intros arc Harc.
    apply list_elem_of_bind in Harc as ([output_pin od] & Harc & Hod).
    apply elem_of_walk in Hod. rewrite Hopd in Hod.
    apply accumulated_output_delays_ok in Hod
      as (Hopin & Hout & in_rf & out_rf & Hex).
    apply (model_arc_ports r2.2); [by rewrite Hcell|].
    revert arc Harc. apply Forall_forall.
    by eapply inputOutputArcs_spec_shape.
Qed.

Lemma fold_findTimingFromInputs_pin_shape pins v w :
  pins ⊆ top_pins E →
  appends_model_arcs w (fold_each pins findTimingFromInputs_pin v w).2.
Proof.
  revert v w. induction pins as [|p pins IH]; intros v w Hsub.
  - apply appends_model_arcs_refl.
  - cbn [fold_each]. rewrite bind_run.
    eapply appends_model_arcs_trans; [|apply IH; set_solver].
    apply findTimingFromInputs_pin_shape. set_solver.
Qed.

Lemma clked_model_gate w ends rf m :
  clked_model w ends rf = Some m → is_gate_model m = true.
Proof. unfold clked_model. destruct (head ends); intros ?; by simplify_eq/=. Qed.

Lemma clked_body_shape w0 c w :
  c ∈ clked_combinations →
  cell_ports (cell_ w) = cell_ports (cell_ w0) →
  appends_model_arcs w (exec (clked_body w0 c) w).
Proof.
  destruct c as [[[output_pin clk] clk_pin] clk_rf]. intros Hc Hports.
  unfold clked_combinations in Hc.
  apply list_elem_of_bind in Hc as (p & Hc & Hp).
  apply list_elem_of_bind in Hc as (c & Hc & Hclk).
  apply list_elem_of_bind in Hc as (cp & Hc & Hcp).
  apply list_elem_of_bind in Hc as (crf & Hc & _).
  apply list_elem_of_singleton in Hc. injection Hc as -> -> -> ->.
  apply list_elem_of_filter in Hp as [Hout Hp].
  unfold exec, clked_body. rewrite findClkedOutputPaths_clk_rf_run.
  cbn zeta. cbn [snd]. split; [done|]. eexists. split; [done|].
  destruct (bundle _ _) as [attrs|] eqn:Hb; [|done].
  apply Forall_singleton. cbn.
  pose proof (bundle_Some _ _ _ Hb) as (Hsense & _ & _).
  split_and!; [done|done|]. right. split_and!; [done| | |].
  - eapply bundle_carries; [exact Hb| |]; intros m; apply clked_model_gate.
  - exists c, cp. split_and!; try done. symmetry. by apply port_of_ports.
  - exists p. split_and!; try done.
    + by destruct (isOutput (pin_direction E p)).
    + symmetry. by apply port_of_ports.
Qed.

Lemma for_each_clked_body_shape w0 l w :
  l ⊆ clked_combinations →
  cell_ports (cell_ w) = cell_ports (cell_ w0) →
  appends_model_arcs w (for_each l (clked_body w0) w).2.
Proof.
  revert w. induction l as [|c l IH]; intros w Hsub Hports.
  - apply appends_model_arcs_refl.
  - cbn [for_each]. rewrite bind_run.
    assert (appends_model_arcs w (exec (clked_body w0 c) w)) as Hstep
      by (apply clked_body_shape; [set_solver|done]).
    eapply appends_model_arcs_trans; [exact Hstep|].
    apply IH; [set_solver|]. destruct Hstep as [Hstep _].
    unfold exec in Hstep. by rewrite Hstep.
Qed.

Lemma analysis_shape w :
  appends_model_arcs w (exec findClkedOutputPaths (exec findTimingFromInputs w)).
Proof.
  apply (appends_model_arcs_trans w (exec findTimingFromInputs w)).
  - unfold exec, findTimingFromInputs. rewrite bind_run. cbn [ret snd].
    by apply fold_findTimingFromInputs_pin_shape.
  - unfold exec. rewrite findClkedOutputPaths_flat.
    by apply for_each_clked_body_shape.
Qed.

(** X8: every arc set of the cell [makeTimingModel] leaves behind has
    one of three shapes and no other.  A setup or hold check goes from
    the port of a clock pin to the port of an analysed input pin and
    carries check models only; a register-clock-to-output arc goes from
    the port of a pin of a design clock to the port of a top-level
    output pin and carries gate models only; neither has a sense set.
    A combinational arc enables both output transitions, goes from the
    port of an analysed input pin to the port of a top-level output pin,
    carries gate models only and is tagged positive-unate,
    negative-unate or non-unate, never none or unknown.  Every arc set
    carries a model for at least one transition, names no related
    output, and no arc set of role combinational is made through
    [makeFromTransitionArcs]. *)
Theorem model_arcs_have_shape (name filename : string) (w : World) :
  let w' := exec (makeTimingModel name filename) w in
  Forall (model_arc w') (arc_sets (cell_ w')).
Proof.
  cbn zeta. unfold exec at 1 2. rewrite makeTimingModel_run.
  cbn zeta. cbn [snd].
  set (w0 := exec (preamble name filename) w).
  destruct (preamble_cell_parts name filename w) as [Hparts _].
  cbn zeta in Hparts. fold w0 in Hparts.
  injection Hparts as _ _ Harcs _.
  destruct (analysis_shape w0) as (Hports & new & Hnew & Hshape).
  set (w2 := exec findClkedOutputPaths (exec findTimingFromInputs w0)) in *.
  change (arc_sets (cell_ (exec cell_finish w2))) with (arc_sets (cell_ w2)).
  rewrite Hnew, Harcs. cbn [app].
  eapply Forall_impl; [exact Hshape|]. intros a.
  apply model_arc_ports. by rewrite <- Hports.
Qed.

(** ** The search state the analysis of the inputs leaves *)

Lemma findTimingFromInputs_pin_search v input_pin w :
  let w' := (findTimingFromInputs_pin v input_pin w).2 in
  if analysed_input input_pin
  then ∃ s, search w' = input_search s input_pin fall
            ∧ sdc w' = input_sdc_done s input_pin fall
  else search w' = search w ∧ sdc w' = sdc w.
Proof.
  cbn zeta. rewrite findTimingFromInputs_pin_run.
  destruct (analysed_input input_pin); [|done].
  cbn zeta. cbn [snd add_arc_sets search sdc].
  set (r1 := findTimingFromInputs_rf input_pin (setInputPin v input_pin, ∅) rise w).
  exists (sdc r1.2). by rewrite findTimingFromInputs_rf_run'.
Qed.

Lemma fold_findTimingFromInputs_pin_search pins v w :
  let w' := (fold_each pins findTimingFromInputs_pin v w).2 in
  match last (filter (λ p, analysed_input p) pins) with
  | Some input_pin =>
      ∃ s, search w' = input_search s input_pin fall
           ∧ sdc w' = input_sdc_done s input_pin fall
  | None => search w' = search w ∧ sdc w' = sdc w
  end.
Proof.
  cbn zeta. revert v w. induction pins as [|p pins IH]; intros v w; [done|].
  cbn [fold_each]. rewrite bind_run.
  pose proof (findTimingFromInputs_pin_search v p w) as Hp.
  specialize (IH (findTimingFromInputs_pin v p w).1
                 (findTimingFromInputs_pin v p w).2).
  cbn zeta in Hp. destruct (analysed_input p) eqn:Hin.
  - rewrite filter_cons_True by (by rewrite Hin).
    destruct (filter _ pins) as [|q l] eqn:Hl.
    + cbn [last] in IH |- *. destruct IH as [-> ->]. exact Hp.
    + rewrite last_cons. revert IH.
      destruct (last (q :: l)) eqn:Hlast; [done|].
      by apply last_None in Hlast.
  - rewrite filter_cons_False by (rewrite Hin; intros []).
    destruct (last _); [done|]. destruct IH as [-> ->]. exact Hp.
Qed.

(** X10: [findTimingFromInputs] deletes the filtered arrivals before
    every filtered search and never after the last one.  Its recorded
    calls are exactly, for every analysed (input pin, transition) in
    order: the installation of the input delay, the deletion of the
    filtered arrivals, immediately followed by the filtered search
    scoped to that pin and transition, the visits of the endpoints and
    the removal of the input delay; nothing is called after the last
    removal.  So when it returns, the search engine still holds the
    filtered arrivals of the last analysed input pin falling, computed
    while that pin's transient input delay was installed, whereas the
    constraints no longer hold that delay; when no input pin is
    analysed, nothing is called and search state and constraints are as
    before. *)
Theorem filtered_arrivals_left_behind (w : World) :
  let w' := exec findTimingFromInputs w in
  (∃ visited : list (Pin * RiseFall * list Vertex),
     visited.*1 = input_combinations
     ∧ trace w'
       = trace w
         ++ (visited ≫= λ x,
               [SetInputDelay x.1.1 (RF.asRiseFallBoth x.1.2)
                  (defaultArrivalClock E) (defaultArrivalClockEdge E).2
                  mm_all f_zero;
                DeleteFilteredArrivals;
                FindFilteredArrivals
                  (mkExceptionFrom (Some {[x.1.1]}) None None
                                   (RF.asRiseFallBoth x.1.2))]
               ++ ((λ e, VisitPathEnds e (corner_ E) mm_all true) <$> x.2)
               ++ [RemoveInputDelay x.1.1 (RF.asRiseFallBoth x.1.2)
                     (defaultArrivalClock E) (defaultArrivalClockEdge E).2
                     mm_all]))
  ∧ match last analysed_inputs with
    | Some input_pin =>
        ∃ s : Sdc,
          search w' = mkSearch (Some (input_sdc s input_pin fall,
                                      input_from input_pin fall))
          ∧ sdc w' = input_sdc_done s input_pin fall
          ∧ ∀ k, k ∈ input_delay_keys input_pin fall →
              input_delays (input_sdc s input_pin fall) !! k = Some f_zero
              ∧ input_delays (sdc w') !! k = None
    | None => search w' = search w ∧ sdc w' = sdc w
    end.
Proof.
  cbn zeta. split; [apply findTimingFromInputs_stretch|].
  unfold exec, findTimingFromInputs, analysed_inputs.
  rewrite bind_run. cbn [ret snd].
  pose proof (fold_findTimingFromInputs_pin_search (top_pins E)
                MakeEndTimingArcs_new w) as H.
  cbn zeta in H. destruct (last _) as [input_pin|]; [|done].
  destruct H as (s & Hsr & Hs). exists s. split_and!; [done|done|].
  intros k Hk. rewrite Hs. unfold input_sdc_done, input_sdc.
  cbn [with_input_delays input_delays].
  rewrite lookup_remove_keys, !lookup_install_keys.
  by rewrite !decide_True.
Qed.

(** ** What a run depends on *)

Lemma respects_ret {A} (a : A) : respects (ret a).
Proof. by intros w w' H. Qed.

Lemma respects_bind {A B} (m : M A) (k : A → M B) :
  respects m → (∀ a, respects (k a)) → respects (bind m k).
Proof.
  intros Hm Hk w w' H. rewrite !bind_run.
  destruct (Hm w w' H) as [-> H']. by apply Hk.
Qed.

Lemma respects_for_each {A} (l : list A) body :
  (∀ x, respects (body x)) → respects (for_each l body).
Proof.
  intros Hbody. induction l as [|x l IH]; [apply respects_ret|].
  cbn [for_each]. by apply respects_bind.
Qed.

Lemma respects_set_cell f : respects (set_cell f).
Proof. intros w w' [Hl Hc]. split; [done|]. split; cbn; congruence. Qed.

Lemma respects_update_port port f : respects (update_port port f).
Proof.
  destruct port; [|apply respects_ret].
  intros w w' [Hl Hc]. split; [done|]. split; cbn; by rewrite ?Hc.
Qed.

Lemma respects_addBusDcl d : respects (addBusDcl d).
Proof.
  intros w w' [Hl Hc]. split; [done|]. split; cbn; by rewrite ?Hl.
Qed.

Lemma respects_modelPort pin : respects (modelPort pin).
Proof. intros w w' [Hl Hc]. split; [cbn; by rewrite Hc|done]. Qed.

Lemma respects_makePorts : respects makePorts.
Proof.
  unfold makePorts. apply respects_for_each. intros port. cbn zeta.
  unfold builder_makeBusPort, builder_makePort, setDirection, setCapacitance.
  destruct (isBus E port);
    repeat first
      [ apply respects_addBusDcl
      | apply respects_modelPort
      | apply respects_update_port
      | apply respects_set_cell
      | apply respects_ret
      | apply respects_for_each; intros ?
      | apply respects_bind; [|intros ?] ].
Qed.

Lemma preamble_sdc name filename w :
  sdc (exec (preamble name filename) w)
  = mkSdc (input_delays (sdc w)) (output_delays (sdc w))
          (list_to_set (clocks E) ∪ propagated_clocks (sdc w)).
Proof.
  unfold preamble, exec. rewrite !bind_run.
  set (w1 := (makeCell name filename (makeLibrary name filename w).2).2).
  destruct (makePorts_keeps_sta w1) as [Hs _].
  assert (keeps sdc searchPreamble) as -> by done.
  rewrite setPropagatedClocks_run. cbn [snd sdc]. by rewrite Hs.
Qed.

Lemma preamble_same name filename w w' :
  input_delays (sdc w) = input_delays (sdc w') →
  output_delays (sdc w) = output_delays (sdc w') →
  list_to_set (clocks E) ∪ propagated_clocks (sdc w)
  = list_to_set (clocks E) ∪ propagated_clocks (sdc w') →
  same_state (exec (preamble name filename) w)
             (exec (preamble name filename) w').
Proof.
  intros Hi Ho Hp. split.
  - by rewrite !preamble_sdc, Hi, Ho, Hp.
  - unfold preamble, exec. rewrite !bind_run.
    assert (∀ w1 w1', same_model w1 w1' →
              same_model
                (searchPreamble (for_each (clocks E) setPropagatedClock w1).2).2
                (searchPreamble (for_each (clocks E) setPropagatedClock w1').2).2)
      as Hrest.
    { intros w1 w1' [Hl Hc]. split.
      - assert (keeps library_ searchPreamble) as Hk by done.
        rewrite !Hk.
        assert (keeps library_ (for_each (clocks E) setPropagatedClock)) as Hk'
          by keeps_steps.
        by rewrite !Hk'.
      - assert (keeps cell_ searchPreamble) as Hk by done.
        rewrite !Hk.
        assert (keeps cell_ (for_each (clocks E) setPropagatedClock)) as Hk'
          by keeps_steps.
        by rewrite !Hk'. }
    apply Hrest. apply respects_makePorts. split; reflexivity.
Qed.

Lemma setupHoldArcs_spec_same w w' input_pin clk_edge margins mm :
  same_model w w' →
  setupHoldArcs_spec w input_pin clk_edge margins mm
  = setupHoldArcs_spec w' input_pin clk_edge margins mm.
Proof.
  intros [Hl Hc].
  unfold setupHoldArcs_spec, scalar_check_model, scalar_template, port_of.
  by rewrite Hl, Hc.
Qed.

Lemma inputOutputArcs_spec_same w w' input_pin entry :
  same_model w w' →
  inputOutputArcs_spec w input_pin entry
  = inputOutputArcs_spec w' input_pin entry.
Proof.
  intros [Hl Hc].
  unfold inputOutputArcs_spec, scalar_gate_model, scalar_template, port_of.
  by rewrite Hl, Hc.
Qed.

Lemma add_arc_sets_same l w w' :
  same_state w w' → same_state (add_arc_sets l w) (add_arc_sets l w').
Proof.
  intros (Hs & Hl & Hc). unfold add_arc_sets.
  split; [done|]. split; cbn; by rewrite ?Hc.
Qed.

Lemma findTimingFromInputs_rf_same input_pin locals input_rf w w' :
  same_state w w' →
  (findTimingFromInputs_rf input_pin locals input_rf w).1
  = (findTimingFromInputs_rf input_pin locals input_rf w').1
  ∧ same_state (findTimingFromInputs_rf input_pin locals input_rf w).2
               (findTimingFromInputs_rf input_pin locals input_rf w').2.
Proof.
  intros (Hs & Hl & Hc). rewrite !findTimingFromInputs_rf_run'.
  cbn zeta. cbn [fst snd]. rewrite Hs. split; [done|].
  split; [done|]. by split.
Qed.

Lemma findTimingFromInputs_pin_same v input_pin w w' :
  same_state w w' →
  (findTimingFromInputs_pin v input_pin w).1
  = (findTimingFromInputs_pin v input_pin w').1
  ∧ same_state (findTimingFromInputs_pin v input_pin w).2
               (findTimingFromInputs_pin v input_pin w').2.
Proof.
  intros H. rewrite !findTimingFromInputs_pin_run.
  destruct (analysed_input input_pin); [|done]. cbn zeta. cbn [fst snd].
  destruct (findTimingFromInputs_rf_same input_pin
              (setInputPin v input_pin, ∅) rise w w' H) as [H1 H1'].
  set (r1 := findTimingFromInputs_rf input_pin (setInputPin v input_pin, ∅) rise w)
    in *.
  set (r1' := findTimingFromInputs_rf input_pin (setInputPin v input_pin, ∅)
                rise w') in *.
  destruct (findTimingFromInputs_rf_same input_pin r1.1 fall r1.2 r1'.2 H1')
    as [H2 H2'].
  rewrite <- H1.
  set (r2 := findTimingFromInputs_rf input_pin r1.1 fall r1.2) in *.
  set (r2' := findTimingFromInputs_rf input_pin r1.1 fall r1'.2) in *.
  rewrite <- H2. split; [done|].
  replace (walk (clock_edge_address E) (margins_ r2.1.1) ≫= _)
    with (walk (clock_edge_address E) (margins_ r2.1.1) ≫= λ cem,
            MM.range ≫= λ min_max,
              setupHoldArcs_spec r2'.2 input_pin cem.1 cem.2 min_max).
  2: { apply list_bind_ext; [|done]. intros cem.
       apply list_bind_ext; [|done]. intros mm.
       symmetry. apply setupHoldArcs_spec_same, H2'. }
  replace (walk (pin_address E) r2.1.2 ≫= inputOutputArcs_spec r2.2 input_pin)
    with (walk (pin_address E) r2.1.2 ≫= inputOutputArcs_spec r2'.2 input_pin).
  2: { apply list_bind_ext; [|done]. intros entry.
       symmetry. apply inputOutputArcs_spec_same, H2'. }
  by apply add_arc_sets_same.
Qed.

Lemma fold_findTimingFromInputs_pin_same pins v w w' :
  same_state w w' →
  same_state (fold_each pins findTimingFromInputs_pin v w).2
             (fold_each pins findTimingFromInputs_pin v w').2.
Proof.
  revert v w w'. induction pins as [|p pins IH]; intros v w w' H; [done|].
  cbn [fold_each]. rewrite !bind_run.
  destruct (findTimingFromInputs_pin_same v p w w' H) as [-> H'].
  by apply IH.
Qed.

Lemma clked_body_same w0 w0' c w w' :
  cell_ w0 = cell_ w0' → same_state w w' →
  same_state (clked_body w0 c w).2 (clked_body w0' c w').2.
Proof.
  intros H0 (Hs & Hl & Hc). destruct c as [[[output_pin clk] clk_pin] clk_rf].
  unfold clked_body. rewrite !findClkedOutputPaths_clk_rf_run.
  cbn zeta. cbn [snd].
  unfold clked_model, scalar_gate_model, scalar_template, port_of.
  rewrite Hs, Hl, H0. apply add_arc_sets_same. by split.
Qed.

Lemma for_each_clked_body_same w0 w0' l w w' :
  cell_ w0 = cell_ w0' → same_state w w' →
  same_state (for_each l (clked_body w0) w).2
             (for_each l (clked_body w0') w').2.
Proof.
  intros H0. revert w w'. induction l as [|c l IH]; intros w w' H; [done|].
  cbn [for_each]. rewrite !bind_run. by apply IH, clked_body_same.
Qed.

Lemma analysis_same w w' :
  same_state w w' →
  same_state (exec findClkedOutputPaths (exec findTimingFromInputs w))
             (exec findClkedOutputPaths (exec findTimingFromInputs w')).
Proof.
  intros H. unfold exec. rewrite !findClkedOutputPaths_flat.
  assert (same_state (findTimingFromInputs w).2 (findTimingFromInputs w').2)
    as H'.
  { unfold findTimingFromInputs. rewrite !bind_run. cbn [ret snd].
    by apply fold_findTimingFromInputs_pin_same. }
  apply for_each_clked_body_same; [|done]. by destruct H' as (_ & _ & ?).
Qed.

Lemma makeTimingModel_same name filename w w' :
  input_delays (sdc w) = input_delays (sdc w') →
  output_delays (sdc w) = output_delays (sdc w') →
  list_to_set (clocks E) ∪ propagated_clocks (sdc w)
  = list_to_set (clocks E) ∪ propagated_clocks (sdc w') →
  eval (makeTimingModel name filename) w = eval (makeTimingModel name filename) w'
  ∧ same_state (exec (makeTimingModel name filename) w)
               (exec (makeTimingModel name filename) w').
Proof.
  intros Hi Ho Hp. unfold eval, exec. rewrite !makeTimingModel_run.
  cbn zeta. cbn [fst snd].
  destruct (analysis_same _ _ (preamble_same name filename w w' Hi Ho Hp))
    as (Hs & Hl & Hc).
  split; [exact Hl|]. split; [exact Hs|]. split; [exact Hl|].
  unfold exec in Hc |- *. unfold cell_finish, set_cell. cbn [snd cell_].
  by rewrite Hc.
Qed.

(** X11: [makeTimingModel] builds its library and its cell from
    scratch.  Started in two states with the same constraints and the
    same search state, it returns the same library and leaves the same
    cell and the same constraints, whatever library and cell the object
    held before and whatever had been called before. *)
Theorem stale_state_is_ignored (name filename : string) (w w' : World) :
  sdc w = sdc w' →
  search w = search w' →
  let run := makeTimingModel name filename in
  eval run w = eval run w'
  ∧ cell_ (exec run w) = cell_ (exec run w')
  ∧ sdc (exec run w) = sdc (exec run w').
Proof.
  intros Hs _. cbn zeta.
  destruct (makeTimingModel_same name filename w w') as (He & Hs' & _ & Hc);
    by rewrite ?Hs.
Qed.

(** X12: when the constraints hold no input delay and no output delay
    in the slots the run itself uses, running [makeTimingModel] a second
    time returns the same library and leaves the same cell and the same
    constraints as the first run did: the first run leaves nothing
    behind that a second one would see. *)
Theorem second_run_gives_same_model (name filename : string) (w : World) :
  (∀ k, k ∈ run_input_keys → input_delays (sdc w) !! k = None) →
  (∀ k, k ∈ run_output_keys → output_delays (sdc w) !! k = None) →
  let run := makeTimingModel name filename in
  let w1 := exec run w in
  eval run w1 = eval run w
  ∧ cell_ (exec run w1) = cell_ (exec run w)
  ∧ sdc (exec run w1) = sdc w1.
Proof.
  intros Hin Hout. cbn zeta.
  destruct (makeTimingModel_sdc name filename w) as (Hi & Ho & Hp).
  cbn zeta in Hi, Ho, Hp.
  destruct (makeTimingModel_same name filename
              (exec (makeTimingModel name filename) w) w)
    as (He & Hs' & _ & Hc).
  - apply map_eq. intros k. rewrite Hi. case_decide; [|done]. by rewrite Hin.
  - apply map_eq. intros k. rewrite Ho. case_decide; [|done]. by rewrite Hout.
  - rewrite Hp. set_solver.
  - done.
Qed.

(** ** From what the search shows to the arcs of the cell *)

Lemma findTimingFromInputs_pin_arcs v input_pin w :
  analysed_input input_pin = true →
  arc_sets (cell_ (exec (findTimingFromInputs_pin v input_pin) w))
  = arc_sets (cell_ w)
    ++ (walk (clock_edge_address E) (margins_ (eval (findTimingFromInputs_pin v input_pin) w))
          ≫= λ cem, MM.range ≫= λ min_max,
               setupHoldArcs_spec w input_pin cem.1 cem.2 min_max)
    ++ (walk (pin_address E) (accumulated_output_delays v input_pin w)
          ≫= inputOutputArcs_spec w input_pin).
Proof.
  intros Hin. unfold exec, eval. rewrite findTimingFromInputs_pin_run, Hin.
  cbn zeta. cbn [fst snd].
  set (r1 := findTimingFromInputs_rf input_pin (setInputPin v input_pin, ∅) rise w).
  set (r2 := findTimingFromInputs_rf input_pin r1.1 fall r1.2).
  assert (same_model r2.2 w) as Hsame.
  { subst r2 r1. by rewrite !findTimingFromInputs_rf_run'. }
  assert (r2.1.2 = accumulated_output_delays v input_pin w) as ->.
  { unfold accumulated_output_delays, eval, RF.range. cbn [fold_each].
    by rewrite !bind_run. }
  unfold add_arc_sets. cbn [cell_ arc_sets].
  destruct Hsame as [Hl Hc]. rewrite Hc. f_equal. f_equal.
  - apply list_bind_ext; [|done]. intros cem.
    apply list_bind_ext; [|done]. intros mm.
    by apply setupHoldArcs_spec_same.
  - apply list_bind_ext; [|done]. intros entry.
    by apply inputOutputArcs_spec_same.
Qed.

Lemma worst_of_is_Some mm old ps : ps ≠ [] → is_Some (worst_of mm old ps).
Proof.
  unfold worst_of. destruct ps as [|p ps _] using rev_ind; [done|].
  intros _. rewrite foldl_app. cbn [foldl].
  destruct (foldl _ old ps), mm; try case_match; by eexists.
Qed.

(** X13: a check the search shows becomes a check arc of the model.
    When an input pin is analysed and, during the search of one of its
    transitions, some path end shown to the visitor targets a clock edge
    with an extreme, then for every pin of that edge's clock the cell
    has afterwards an arc from that pin's port to the input's port on
    the edge's transition, with role setup for max and hold for min;
    for each input transition its bundle holds the scalar check model
    of the margin of the last path end of that transition's search for
    this clock edge and extreme, and no model when there is none. *)
Theorem check_seen_becomes_arc (w : World) (v : MakeEndTimingArcs)
    (input_pin : Pin) (ce : ClockEdge) (mm : MinMax) (clk_pin : Pin) :
  analysed_input input_pin = true →
  let visited rf :=
    match rf with
    | rise => visited_ends (sdc w) input_pin rise
    | fall => visited_ends (input_sdc_done (sdc w) input_pin rise) input_pin fall
    end in
  (∃ rf pe, pe ∈ visited rf ∧ writes_slot ce mm pe = true) →
  clk_pin ∈ clock_pins E ce.1 →
  ∃ attrs,
    FromTransitionArcs (port_of w clk_pin) (port_of w input_pin) None ce.2
      (match mm with max => role_setup | min => role_hold end) attrs
      ∈ arc_sets (cell_ (exec (findTimingFromInputs_pin v input_pin) w))
    ∧ ∀ rf, aget (models attrs) (RF.index rf)
            = (λ pe, scalar_check_model w (path_end_margin pe)
                       (match mm with max => sf_setup | min => sf_hold end) rf)
                <$> last (filter (λ pe, writes_slot ce mm pe) (visited rf)).
Proof.
  intros Hin visited (rf0 & pe0 & Hpe0 & Hw0) Hclk.
  rewrite findTimingFromInputs_pin_arcs by done.
  set (v' := eval (findTimingFromInputs_pin v input_pin) w).
  assert (∀ rf, rfmm_value (margins_at (margins_ v') ce) rf mm
                = path_end_margin
                    <$> last (filter (λ pe, writes_slot ce mm pe) (visited rf)))
    as Hval.
  { intros rf. subst v' visited. cbn beta.
    by rewrite findTimingFromInputs_pin_margins. }
  assert (is_Some (last (filter (λ pe, writes_slot ce mm pe) (visited rf0))))
    as Hlast.
  { destruct (last _) eqn:Hl; [done|]. apply last_None in Hl.
    assert (pe0 ∈ filter (λ pe, writes_slot ce mm pe) (visited rf0)) as Hf
      by (apply list_elem_of_filter; by rewrite Hw0).
    rewrite Hl in Hf. by apply elem_of_nil in Hf. }
  assert (∃ margins, margins_ v' !! ce = Some margins) as [margins Hm].
  { destruct (margins_ v' !! ce) as [m|] eqn:Hm; [by exists m|].
    specialize (Hval rf0). unfold margins_at in Hval. rewrite Hm in Hval.
    destruct Hlast as [pe Hpe]. rewrite Hpe in Hval.
    by destruct rf0, mm. }
  assert (margins_at (margins_ v') ce = margins) as Hat
    by (unfold margins_at; by rewrite Hm).
  rewrite Hat in Hval.
  set (scale := match mm with max => sf_setup | min => sf_hold end).
  set (model := λ rf, (λ margin, scalar_check_model w margin scale rf)
                        <$> rfmm_value margins rf mm).
  exists (mkTimingArcAttrs sense_unknown (mkArray2 (model rise) (model fall))).
  split.
  - apply elem_of_app. right. apply elem_of_app. left.
    apply list_elem_of_bind. exists (ce, margins).
    split; [|by apply elem_of_walk].
    apply list_elem_of_bind. exists mm.
    split; [|destruct mm; set_solver].
    cbn [fst snd]. unfold setupHoldArcs_spec. fold scale. fold (model rise).
    fold (model fall).
    assert (bundle (model rise) (model fall)
            = Some (mkTimingArcAttrs sense_unknown
                      (mkArray2 (model rise) (model fall)))) as ->.
    { unfold model. destruct Hlast as [pe Hpe].
      pose proof (Hval rf0) as H0. rewrite Hpe in H0.
      destruct rf0; rewrite ?H0; [done|].
      by destruct (rfmm_value margins rise mm). }
    apply list_elem_of_fmap. by exists clk_pin.
  - intros rf. transitivity (model rf); [by destruct rf|].
    unfold model. rewrite Hval.
    match goal with |- context [last ?l] => by destruct (last l) end.
Qed.

(** X14: a path the search records becomes a combinational arc of the
    model.  When an input pin is analysed and, for an output pin, the
    searches of its two transitions together record at least one
    arrival path of extreme max, the cell has afterwards a
    combinational arc from the input's port to the output's port,
    tagged with the sense of the output's existence matrix; for each
    output transition its bundle holds the scalar gate model of the
    worst max arrival recorded for that transition, rise search first,
    with the slew of the output's load vertex, and no model when no max
    path has that transition.  As soon as a path is recorded the output
    pin has an entry in the accumulated output delays; but when all
    recorded paths are of extreme min, and no other top-level output
    pin shares the output's port, the cell gets no combinational arc to
    that port. *)
Theorem path_seen_becomes_arc (w : World) (v : MakeEndTimingArcs)
    (input_pin output_pin : Pin) :
  NoDup (top_pins E) →
  analysed_input input_pin = true →
  let ps := recorded_paths (sdc w) input_pin rise output_pin
            ++ recorded_paths (input_sdc_done (sdc w) input_pin rise)
                              input_pin fall output_pin in
  let od := output_delays_at (accumulated_output_delays v input_pin w)
                             output_pin in
  let gate_model out_rf :=
    (λ delay, scalar_gate_model w delay
                (graph_slew E (pinLoadVertex E output_pin) out_rf
                            (dcalc_ap_index E (corner_ E) max)) out_rf)
      <$> worst_of max None (filter (λ p, in_slot out_rf max p) ps) in
  ((∃ p, p ∈ ps ∧ pv_minMax p = max) →
   ∃ attrs,
     CombinationalArcs (port_of w input_pin) (port_of w output_pin) None
                       true true attrs
       ∈ arc_sets (cell_ (exec (findTimingFromInputs_pin v input_pin) w))
     ∧ timing_sense attrs = timingSense od
     ∧ ∀ out_rf, aget (models attrs) (RF.index out_rf) = gate_model out_rf)
  ∧ (ps ≠ [] →
     is_Some (accumulated_output_delays v input_pin w !! output_pin))
  ∧ ((∀ p, p ∈ ps → pv_minMax p = min) →
     (∀ q, q ∈ top_pins E → isOutput (pin_direction E q) = true →
           port_of w q = port_of w output_pin → q = output_pin) →
     ∃ new : list TimingArcSet,
       arc_sets (cell_ (exec (findTimingFromInputs_pin v input_pin) w))
       = arc_sets (cell_ w) ++ new
       ∧ ∀ from_port related_out to_rise to_fall attrs,
           CombinationalArcs from_port (port_of w output_pin) related_out
                             to_rise to_fall attrs ∉ new).
Proof.
  intros Hnd Hin ps od gate_model.
  assert (∀ out_rf, rfmm_value (delays od) out_rf max
                    = worst_of max None (filter (λ p, in_slot out_rf max p) ps))
    as Hval.
  { intros out_rf. subst od ps.
    by rewrite accumulated_output_delays_value. }
  split; [|split].
  - intros (p & Hp & Hmax).
    rewrite findTimingFromInputs_pin_arcs by done.
    assert (accumulated_output_delays v input_pin w !! output_pin = Some od)
      as Hod.
    { subst od. unfold output_delays_at.
      destruct (accumulated_output_delays v input_pin w !! output_pin) as [o|]
        eqn:Hl; [done|].
      apply accumulated_output_delays_lookup in Hl as [Hr Hf].
      subst ps. rewrite Hr, Hf in Hp. by apply elem_of_nil in Hp. }
    assert (is_Some (gate_model (pv_transition p))) as Hsome.
    { unfold gate_model. apply fmap_is_Some, worst_of_is_Some.
      intros Hnil.
      assert (p ∈ filter (λ p0, in_slot (pv_transition p) max p0) ps) as Hf.
      { apply list_elem_of_filter. split; [|done].
        unfold in_slot. by rewrite !bool_decide_true. }
      rewrite Hnil in Hf. by apply elem_of_nil in Hf. }
    exists (mkTimingArcAttrs (timingSense od)
                             (mkArray2 (gate_model rise) (gate_model fall))).
    split_and!; [|done|by intros []].
    apply elem_of_app. right. apply elem_of_app. right.
    apply list_elem_of_bind. exists (output_pin, od).
    split; [|by apply elem_of_walk].
    unfold inputOutputArcs_spec. cbn [fst snd]. rewrite !Hval.
    fold (gate_model rise). fold (gate_model fall).
    assert (bundle (gate_model rise) (gate_model fall)
            = Some (mkTimingArcAttrs sense_unknown
                      (mkArray2 (gate_model rise) (gate_model fall)))) as ->.
    { destruct (pv_transition p), Hsome as [m Hm]; rewrite Hm; [done|].
      by destruct (gate_model rise). }
    by apply list_elem_of_singleton.
  - intros Hne.
    destruct (accumulated_output_delays v input_pin w !! output_pin) as [o|]
      eqn:Hl; [done|].
    apply accumulated_output_delays_lookup in Hl as [Hr Hf].
    subst ps. by rewrite Hr, Hf in Hne.
  - intros Hmin Hinj.
    rewrite findTimingFromInputs_pin_arcs by done. eexists. split; [done|].
    intros from_port related_out to_rise to_fall attrs
      [Harc|Harc]%elem_of_app.
    { apply list_elem_of_bind in Harc as (cem & Harc & _).
      apply list_elem_of_bind in Harc as (mm & Harc & _).
      unfold setupHoldArcs_spec in Harc.
      destruct (bundle _ _); [|by apply elem_of_nil in Harc].
      by apply list_elem_of_fmap in Harc as (clk_pin & ? & _). }
    apply list_elem_of_bind in Harc as ([q od'] & Harc & Hq%elem_of_walk).
    destruct (accumulated_output_delays_ok v input_pin w q od' Hq)
      as (Htop & Hdir & _).
    assert (port_of w q = port_of w output_pin) as Hport.
    { unfold inputOutputArcs_spec in Harc. cbn [fst snd] in Harc.
      destruct (bundle _ _); [|by apply elem_of_nil in Harc].
      apply list_elem_of_singleton in Harc. by injection Harc as _ ? _ _ _ _. }
    assert (q = output_pin) as -> by (by apply Hinj).
    assert (od' = od) as ->.
    { subst od. unfold output_delays_at. by rewrite Hq. }
    revert Harc.
    unfold inputOutputArcs_spec. cbn [fst snd]. rewrite !Hval.
    assert (∀ out_rf, filter (λ p, in_slot out_rf max p) ps = []) as Hnone.
    { intros out_rf.
      destruct (filter _ ps) as [|p l] eqn:Hf; [done|].
      assert (p ∈ filter (λ p, in_slot out_rf max p) ps) as Hp
        by (rewrite Hf; left).
      apply list_elem_of_filter in Hp as [Hslot Hp]. unfold in_slot in Hslot.
      rewrite (Hmin p Hp), (bool_decide_false (min = max)) in Hslot by done.
      rewrite andb_false_r in Hslot. destruct Hslot. }
    rewrite !Hnone. cbn. apply not_elem_of_nil.
Qed.

(** ** The two analyses in closed form *)

Lemma restore_keys (ks : list DelayKey) (v : Delay) (m : gmap DelayKey Delay) :
  (∀ k, k ∈ ks → m !! k = None) → remove_keys ks (install_keys ks v m) = m.
Proof.
  intros Hnone. apply map_eq. intros k.
  rewrite lookup_remove_keys, lookup_install_keys.
  case_decide; [by rewrite Hnone|done].
Qed.

Lemma input_sdc_done_restore s input_pin input_rf :
  (∀ k, k ∈ input_delay_keys input_pin input_rf → input_delays s !! k = None) →
  input_sdc_done s input_pin input_rf = s.
Proof.
  intros Hnone. unfold input_sdc_done, input_sdc, with_input_delays.
  destruct s as [ids ods pcs].
  cbn [input_delays output_delays propagated_clocks] in *.
  by rewrite restore_keys.
Qed.

Lemma output_sdc_done_restore s output_pin clk clk_rf output_rf :
  (∀ k, k ∈ output_delay_keys output_pin clk clk_rf output_rf →
        output_delays s !! k = None) →
  output_sdc_done s output_pin clk clk_rf output_rf = s.
Proof.
  intros Hnone. unfold output_sdc_done, output_sdc, with_output_delays.
  destruct s as [ids ods pcs].
  cbn [input_delays output_delays propagated_clocks] in *.
  by rewrite restore_keys.
Qed.

Lemma setupHoldArcs_spec_base w w' input_pin clk_edge margins mm :
  library_ w = library_ w' → cell_ports (cell_ w) = cell_ports (cell_ w') →
  setupHoldArcs_spec w input_pin clk_edge margins mm
  = setupHoldArcs_spec w' input_pin clk_edge margins mm.
Proof.
  intros Hl Hc.
  unfold setupHoldArcs_spec, scalar_check_model, scalar_template, port_of,
         findLibertyPort.
  by rewrite Hl, Hc.
Qed.

Lemma inputOutputArcs_spec_base w w' input_pin entry :
  library_ w = library_ w' → cell_ports (cell_ w) = cell_ports (cell_ w') →
  inputOutputArcs_spec w input_pin entry
  = inputOutputArcs_spec w' input_pin entry.
Proof.
  intros Hl Hc.
  unfold inputOutputArcs_spec, scalar_gate_model, scalar_template, port_of,
         findLibertyPort.
  by rewrite Hl, Hc.
Qed.

Lemma findTimingFromInputs_pin_base v input_pin w :
  analysed_input input_pin = true →
  let w' := exec (findTimingFromInputs_pin v input_pin) w in
  sdc w' = input_sdc_done (input_sdc_done (sdc w) input_pin rise) input_pin fall
  ∧ library_ w' = library_ w
  ∧ cell_ports (cell_ w') = cell_ports (cell_ w).
Proof.
  intros Hin. cbn zeta. unfold exec.
  rewrite findTimingFromInputs_pin_run, Hin. cbn zeta. cbn [snd].
  unfold add_arc_sets. cbn [sdc library_ cell_ cell_ports].
  by rewrite !findTimingFromInputs_rf_run'.
Qed.

Lemma findTimingFromInputs_pin_alone v input_pin w w0 :
  analysed_input input_pin = true →
  same_base w w0 →
  arc_sets (cell_ (exec (findTimingFromInputs_pin v input_pin) w))
  = arc_sets (cell_ w) ++ input_arcs w0 input_pin.
Proof.
  intros Hin (Hs & Hl & Hc).
  rewrite findTimingFromInputs_pin_arcs by done. f_equal.
  unfold input_arcs.
  rewrite !findTimingFromInputs_pin_visitor by done.
  rewrite !accumulated_output_delays_eq. cbn zeta. rewrite Hs.
  change (setInputRf (setInputPin v input_pin) rise)
    with (setInputRf (setInputPin MakeEndTimingArcs_new input_pin) rise).
  f_equal.
  - apply list_bind_ext; [|done]. intros cem.
    apply list_bind_ext; [|done]. intros mm.
    by apply setupHoldArcs_spec_base.
  - apply list_bind_ext; [|done]. intros entry.
    by apply inputOutputArcs_spec_base.
Qed.

Lemma fold_findTimingFromInputs_pin_alone w0 pins v w :
  (∀ p rf k, p ∈ pins → analysed_input p = true →
             k ∈ input_delay_keys p rf → input_delays (sdc w0) !! k = None) →
  same_base w w0 →
  let w' := (fold_each pins findTimingFromInputs_pin v w).2 in
  same_base w' w0
  ∧ arc_sets (cell_ w')
    = arc_sets (cell_ w)
      ++ (filter (λ p, analysed_input p) pins ≫= input_arcs w0).
Proof.
  cbn zeta. revert v w.
  induction pins as [|p pins IH]; intros v w Hnone Hbase.
  - split; [done|]. cbn. by rewrite app_nil_r.
  - cbn [fold_each]. rewrite bind_run.
    destruct (analysed_input p) eqn:Hin.
    + rewrite filter_cons_True by (by rewrite Hin). rewrite bind_cons.
      pose proof (findTimingFromInputs_pin_base v p w Hin) as (Hs & Hl & Hc).
      pose proof (findTimingFromInputs_pin_alone v p w w0 Hin Hbase) as Harcs.
      unfold exec in Hs, Hl, Hc, Harcs.
      destruct Hbase as (Hs0 & Hl0 & Hc0).
      rewrite Hs0 in Hs.
      rewrite (input_sdc_done_restore (sdc w0) p rise) in Hs
        by (intros k Hk; apply (Hnone p rise); [left|done|done]).
      rewrite (input_sdc_done_restore (sdc w0) p fall) in Hs
        by (intros k Hk; apply (Hnone p fall); [left|done|done]).
      destruct (IH (findTimingFromInputs_pin v p w).1
                   (findTimingFromInputs_pin v p w).2) as [Hb Ha].
      * intros q rf k Hq. apply Hnone. by right.
      * split_and!; congruence.
      * split; [done|]. by rewrite Ha, Harcs, app_assoc.
    + rewrite filter_cons_False by (rewrite Hin; intros []).
      assert (findTimingFromInputs_pin v p w = (v, w)) as ->.
      { by rewrite findTimingFromInputs_pin_run, Hin. }
      apply IH; [|done]. intros q rf k Hq. apply Hnone. by right.
Qed.

Lemma for_each_clked_body_arcs w0 l w :
  (∀ c k, c ∈ l → k ∈ clked_keys c → output_delays (sdc w0) !! k = None) →
  same_base w w0 →
  let w' := (for_each l (clked_body w0) w).2 in
  same_base w' w0
  ∧ arc_sets (cell_ w') = arc_sets (cell_ w) ++ (l ≫= clked_arcs w0).
Proof.
  cbn zeta. revert w. induction l as [|c l IH]; intros w Hnone Hbase.
  - split; [done|]. cbn. by rewrite app_nil_r.
  - cbn [for_each]. rewrite bind_run, bind_cons.
    assert (same_base (clked_body w0 c w).2 w0
            ∧ arc_sets (cell_ (clked_body w0 c w).2)
              = arc_sets (cell_ w) ++ clked_arcs w0 c) as [Hb Ha].
    { destruct c as [[[output_pin clk] clk_pin] clk_rf]. unfold clked_body.
      rewrite findClkedOutputPaths_clk_rf_run. cbn zeta. cbn [snd].
      destruct Hbase as (Hs0 & Hl0 & Hc0). rewrite Hs0.
      assert (∀ output_rf,
                output_sdc_done (sdc w0) output_pin clk clk_rf output_rf
                = sdc w0) as Hrestore.
      { intros output_rf. apply output_sdc_done_restore. intros k Hk.
        apply (Hnone (output_pin, clk, clk_pin, clk_rf)); [left|].
        cbn [clked_keys]. apply list_elem_of_bind. exists output_rf.
        split; [done|]. destruct output_rf; set_solver. }
      rewrite !Hrestore.
      unfold add_arc_sets, same_base. cbn [sdc library_ cell_ cell_ports arc_sets].
      split; [done|]. f_equal. unfold clked_arcs, clked_model, scalar_gate_model,
        scalar_template. by rewrite Hl0. }
    destruct (IH (clked_body w0 c w).2) as [Hb' Ha'].
    + intros c' k Hc'. apply Hnone. by right.
    + done.
    + split; [done|]. by rewrite Ha', Ha, app_assoc.
Qed.

(** X15: when the constraints hold no input delay in the slots the
    analysis of the inputs uses, [findTimingFromInputs] analyses the
    input pins independently of one another: the arcs it appends to the
    cell are, pin by pin in the order of the top-level pins, the arcs
    the analysis of that pin would make on its own from the initial
    state with a fresh visitor (checks before combinational arcs, each
    group in the order the code walks its [std::map], by the addresses
    of the clock edges and of the output pins), and the constraints are
    given back exactly as they were received. *)
Theorem inputs_analysed_independently (w : World) :
  (∀ k, k ∈ run_input_keys → input_delays (sdc w) !! k = None) →
  let w' := exec findTimingFromInputs w in
  sdc w' = sdc w
  ∧ arc_sets (cell_ w')
    = arc_sets (cell_ w) ++ (analysed_inputs ≫= input_arcs w).
Proof.
  intros Hnone. cbn zeta. unfold exec, findTimingFromInputs, analysed_inputs.
  rewrite bind_run. cbn [ret snd].
  destruct (fold_findTimingFromInputs_pin_alone w (top_pins E)
              MakeEndTimingArcs_new w) as [(Hs & _) Ha]; [|done|done].
  intros p rf k Hp Hin Hk. apply Hnone.
  unfold run_input_keys, input_combinations.
  apply list_elem_of_bind. exists (p, rf). split; [done|].
  apply list_elem_of_bind. exists p.
  split; [|apply list_elem_of_filter; by rewrite Hin].
  apply list_elem_of_bind. exists rf. split; [by left|].
  destruct rf; set_solver.
Qed.

(** X16: when the constraints hold no output delay in the slots the
    clock-to-output queries use, every query of
    [findClkedOutputPaths] is asked under the constraints the function
    was entered with plus its own output delay, whatever was queried
    before: the arcs appended to the cell are, combination by
    combination in loop order, one register-clock-to-output arc for
    each combination one of whose two queries returns a path end, with
    the gate model of the first path end of each such query, and the
    constraints are given back exactly as they were received. *)
Theorem clocked_outputs_in_closed_form (w : World) :
  (∀ k, k ∈ run_output_keys → output_delays (sdc w) !! k = None) →
  let w' := exec findClkedOutputPaths w in
  sdc w' = sdc w
  ∧ arc_sets (cell_ w')
    = arc_sets (cell_ w) ++ (clked_combinations ≫= clked_arcs w).
Proof.
  intros Hnone. cbn zeta. unfold exec. rewrite findClkedOutputPaths_flat.
  destruct (for_each_clked_body_arcs w clked_combinations w)
    as [(Hs & _) Ha]; [|done|done].
  intros c k Hc Hk. apply Hnone. unfold run_output_keys.
  apply list_elem_of_bind. by exists c.
Qed.

Lemma clked_arcs_base w w' c :
  same_base w w' → clked_arcs w c = clked_arcs w' c.
Proof.
  intros (Hs & Hl & Hc). destruct c as [[[output_pin clk] clk_pin] clk_rf].
  unfold clked_arcs, clked_model, scalar_gate_model, scalar_template, port_of,
         findLibertyPort.
  by rewrite Hs, Hl, Hc.
Qed.

(** X17: the arcs of the model, in closed form.  When the constraints
    hold nothing in the slots the run uses, the arc sets of the cell
    [makeTimingModel] leaves behind are, with [w0] the state after
    library, cell and ports are made and the clocks propagated: first,
    for every analysed input pin in the order of the top-level pins,
    the arcs of that pin analysed on its own in [w0] (within a pin in
    the order the code walks its [std::map]s, by the addresses of the
    clock edges and of the output pins); then, for every
    clock-to-output combination in loop order, its arc as queried under
    the constraints of [w0].  Nothing else is in the cell, and no
    analysis influences another. *)
Theorem model_arcs_in_closed_form (name filename : string) (w : World) :
  (∀ k, k ∈ run_input_keys → input_delays (sdc w) !! k = None) →
  (∀ k, k ∈ run_output_keys → output_delays (sdc w) !! k = None) →
  let w0 := exec (preamble name filename) w in
  arc_sets (cell_ (exec (makeTimingModel name filename) w))
  = (analysed_inputs ≫= input_arcs w0)
    ++ (clked_combinations ≫= clked_arcs w0).
Proof.
  intros Hin Hout. cbn zeta. unfold exec at 1. rewrite makeTimingModel_run.
  cbn zeta. cbn [snd].
  set (w0 := exec (preamble name filename) w).
  change (arc_sets (cell_ (exec cell_finish ?w'))) with (arc_sets (cell_ w')).
  assert (sdc w0 = mkSdc (input_delays (sdc w)) (output_delays (sdc w))
                         (list_to_set (clocks E) ∪ propagated_clocks (sdc w)))
    as Hs0 by apply preamble_sdc.
  destruct (preamble_cell_parts name filename w) as [Hparts _].
  cbn zeta in Hparts. fold w0 in Hparts. injection Hparts as _ _ Harcs0 _.
  destruct (fold_findTimingFromInputs_pin_alone w0 (top_pins E)
              MakeEndTimingArcs_new w0) as [Hb1 Ha1]; [|done|].
  { intros p rf k Hp Hp' Hk. rewrite Hs0. cbn [input_delays]. apply Hin.
    unfold run_input_keys, input_combinations.
    apply list_elem_of_bind. exists (p, rf). split; [done|].
    apply list_elem_of_bind. exists p.
    split; [|apply list_elem_of_filter; by rewrite Hp'].
    apply list_elem_of_bind. exists rf. split; [by left|].
    destruct rf; set_solver. }
  assert (exec findTimingFromInputs w0
          = (fold_each (top_pins E) findTimingFromInputs_pin
               MakeEndTimingArcs_new w0).2) as Hw1.
  { unfold exec, findTimingFromInputs. by rewrite bind_run. }
  rewrite Hw1.
  set (w1 := (fold_each (top_pins E) findTimingFromInputs_pin
                MakeEndTimingArcs_new w0).2) in *.
  unfold exec. rewrite findClkedOutputPaths_flat.
  destruct (for_each_clked_body_arcs w1 clked_combinations w1)
    as [_ Ha2]; [|done|].
  { intros c k Hc Hk. destruct Hb1 as [-> _]. rewrite Hs0.
    cbn [output_delays]. apply Hout. unfold run_output_keys.
    apply list_elem_of_bind. by exists c. }
  rewrite Ha2, Ha1, Harcs0. cbn [app]. unfold analysed_inputs. f_equal.
  apply list_bind_ext; [|done]. intros c. by apply clked_arcs_base.
Qed.

End Extraction.

(** * A small block, run

    One data input [A] (pin 1), outputs [Z] (pin 2) and [Y] (pin 3), a
    clock input [CK] (pin 4).  Clock 10 is defined on [CK]; clock 11 is
    virtual.  A register behind [A] gives one setup and one hold check
    against the rising edge of clock 10; [Z] follows a rising [A] and is
    also driven from the register; nothing reaches [Y].  Delays are IEEE
    binary32. *)
Module Demo.

Definition f32 (m e : Z) : spec_float := binary_normalize 24 128 m e false.

#[export] Instance binary32_ops : FloatOps spec_float := {|
  f_zero := S754_zero false;
  f_sub := SFsub 24 128;
  f_add := SFadd 24 128;
  f_gt := λ x y, SFltb y x;
  f_lt := SFltb;
|}.

Definition unit1 : @Unit spec_float := mkUnit (f32 1 0) "" 3.

Definition lib (name filename : string) (with_scalar : bool)
  : @LibertyLibrary spec_float :=
  mkLibertyLibrary name filename
    (mkUnits unit1 unit1 unit1 unit1 unit1 unit1 unit1)
    (afill (f32 1 (-1))) (afill (f32 1 (-1)))
    (afill (f32 1 (-2))) (afill (f32 3 (-2)))
    0 (f32 1 0) (f32 1 0) (f32 25 0) []
    (λ _, if with_scalar then {["scalar" := mkTableTemplate "scalar"]} else ∅).

Definition name_of (pin : nat) : string :=
  match pin with 1 => "A" | 2 => "Z" | 3 => "Y" | _ => "CK" end.

Definition dir_of (pin : nat) : PortDirection :=
  match pin with 2 | 3 => dir_output | _ => dir_input end.

(** The filter in force is that of a rising [A]. *)
Definition rising_A (sr : @Search spec_float) : bool :=
  match filtered_arrivals sr with
  | Some (_, from) =>
      bool_decide (from_pins from = Some {[1]})
      && match from_rf from with rf_rise => true | _ => false end
  | None => false
  end.

Definition from_A (sr : @Search spec_float) : bool :=
  match filtered_arrivals sr with
  | Some (_, from) => bool_decide (from_pins from = Some {[1]})
  | None => false
  end.

Definition engine (clks : list nat) : @Engine spec_float :=
  {| top_ports := [1; 2; 3; 4];
     port_name := name_of;
     isBus := λ _, false;
     fromIndex := λ _, 0%Z;
     toIndex := λ _, 0%Z;
     port_direction := dir_of;
     memberIterator := λ _, [];
     findPin := λ port, port;
     top_pins := [1; 2; 3; 4];
     pin_port := λ pin, pin;
     pin_direction := dir_of;
     clock_edge_address := λ ce,
       N.of_nat (2 * ce.1 + match ce.2 with rise => 0 | fall => 1 end);
     pin_address := N.of_nat;
     makeLibertyLibrary := λ name filename, lib name filename true;
     defaultLibertyLibrary := lib "default" "default.lib" true;
     clocks := clks;
     clock_pins := λ clk, match clk with 10 => [4] | _ => [] end;
     isClockSrc := λ pin, bool_decide (pin = 4);
     defaultArrivalClock := 0;
     defaultArrivalClockEdge := (0, rise);
     corner_ := 0;
     dcalc_ap_index := λ _ mm, match mm with min => 0 | max => 1 end;
     loadCap := λ _ _, f32 1 (-6);
     pinLoadVertex := λ pin, pin;
     graph_slew := λ _ _ _, f32 1 (-4);
     endpoints := λ _ sr, if from_A sr then [5] else [];
     pathEnds := λ _ sr v _ _ _,
       if from_A sr && bool_decide (v = 5)
       then [mkPathEnd (10, rise) max (f32 3 (-1)) (f32 1 (-4))
                       (f32 1 (-1)) (f32 1 (-2));
             mkPathEnd (10, rise) min (f32 1 (-1)) (f32 1 (-4))
                       (f32 1 (-1)) (f32 1 (-3))]
       else [];
     vertexPaths := λ _ _ v,
       if bool_decide (v = 2)
       then [mkPathVertex 0 rise max (f32 5 (-2));
             mkPathVertex 1 rise max (f32 7 (-2));
             mkPathVertex 2 fall max (f32 9 (-2))]
       else [];
     matchesFilter := λ _ sr p,
       rising_A sr && bool_decide (pv_id p ≠ 2);
     findPathEnds := λ _ q,
       if bool_decide (from_clks (q_from q) = Some {[10]})
          && match from_rf (q_from q) with rf_rise => true | _ => false end
          && bool_decide (to_pins (q_to q) = Some {[2]})
       then [mkPathEnd (10, rise) max (f32 9 (-3)) (f32 1 (-4))
                       (f32 0 0) (f32 0 0)]
       else [] |}.

(** The design with both clocks, and with the virtual clock only. *)
Definition block : @Engine spec_float := engine [10; 11].
Definition virtual_only : @Engine spec_float := engine [11].

Definition cell0 : @LibertyCell spec_float :=
  mkLibertyCell "block" "block.lib"
    [mkLibertyPort "A" (Some dir_input) None None;
     mkLibertyPort "Z" (Some dir_output) None None;
     mkLibertyPort "Y" (Some dir_output) None None;
     mkLibertyPort "CK" (Some dir_input) None None]
    [] false.

(** A world whose library has the "scalar" template, and one whose
    library lacks it. *)
Definition w0 : @World spec_float :=
  mkWorld (mkSdc ∅ ∅ ∅) (mkSearch None) (lib "block" "block.lib" true) cell0 [].
Definition w_bare : @World spec_float :=
  mkWorld (mkSdc ∅ ∅ ∅) (mkSearch None) (lib "block" "block.lib" false) cell0 [].

(** A world in which the filtered arrivals of a rising [A] are present. *)
Definition w_rise : @World spec_float :=
  mkWorld (mkSdc ∅ ∅ ∅)
          (mkSearch (Some (mkSdc ∅ ∅ ∅, mkExceptionFrom (Some {[1]}) None None rf_rise)))
          (lib "block" "block.lib" true) cell0 [].

(** The combinational arcs of a cell: ports and sense. *)
Definition combinational_arcs (c : @LibertyCell spec_float)
  : list (option string * option string * TimingSense) :=
  omap (λ a, match a with
             | CombinationalArcs f t _ _ _ attrs => Some (f, t, timing_sense attrs)
             | FromTransitionArcs _ _ _ _ _ _ => None
             end) (arc_sets c).

(** ** A block with two data inputs

    Data inputs [A] (pin 1) and [B] (pin 5), outputs [Z] (pin 2) and
    [Y] (pin 3), clock input [CK] (pin 4) with clock 10.  A register
    behind [A] gives a setup check against the rising edge of the
    clock, one behind [B] a hold check against the falling edge.  [Z]
    rises with a rising [A], along two max paths of which the first
    arrives later, and is an inversion of [B]; [Y] is reached from a
    rising [A] by a min path only. *)
Definition pair_name (pin : nat) : string :=
  match pin with 1 => "A" | 5 => "B" | 2 => "Z" | 3 => "Y" | _ => "CK" end.

(** The pin and transition the filtered arrivals are scoped to. *)
Definition from_pin (sr : @Search spec_float) : option (nat * RiseFallBoth) :=
  match filtered_arrivals sr with
  | Some (_, from) =>
      if bool_decide (from_pins from = Some {[1]}) then Some (1, from_rf from)
      else if bool_decide (from_pins from = Some {[5]})
           then Some (5, from_rf from)
           else None
  | None => None
  end.

Definition pair : @Engine spec_float :=
  {| top_ports := [1; 5; 2; 3; 4];
     port_name := pair_name;
     isBus := λ _, false;
     fromIndex := λ _, 0%Z;
     toIndex := λ _, 0%Z;
     port_direction := dir_of;
     memberIterator := λ _, [];
     findPin := λ port, port;
     top_pins := [1; 5; 2; 3; 4];
     pin_port := λ pin, pin;
     pin_direction := dir_of;
     clock_edge_address := λ ce,
       N.of_nat (2 * ce.1 + match ce.2 with rise => 0 | fall => 1 end);
     pin_address := N.of_nat;
     makeLibertyLibrary := λ name filename, lib name filename true;
     defaultLibertyLibrary := lib "default" "default.lib" true;
     clocks := [10];
     clock_pins := λ clk, match clk with 10 => [4] | _ => [] end;
     isClockSrc := λ pin, bool_decide (pin = 4);
     defaultArrivalClock := 0;
     defaultArrivalClockEdge := (0, rise);
     corner_ := 0;
     dcalc_ap_index := λ _ mm, match mm with min => 0 | max => 1 end;
     loadCap := λ _ _, f32 1 (-6);
     pinLoadVertex := λ pin, pin;
     graph_slew := λ _ _ _, f32 1 (-4);
     endpoints := λ _ sr,
       match from_pin sr with
       | Some (1, _) => [7]
       | Some (_, _) => [8]
       | None => []
       end;
     pathEnds := λ _ sr v _ _ _,
       match from_pin sr, v with
       | Some (1, _), 7 =>
           [mkPathEnd (10, rise) max (f32 3 (-1)) (f32 1 (-4))
                      (f32 1 (-1)) (f32 1 (-2))]
       | Some (5, _), 8 =>
           [mkPathEnd (10, fall) min (f32 1 (-1)) (f32 1 (-4))
                      (f32 1 (-1)) (f32 1 (-3))]
       | _, _ => []
       end;
     vertexPaths := λ _ _ v,
       match v with
       | 2 => [mkPathVertex 0 rise max (f32 7 (-2));
               mkPathVertex 1 rise max (f32 5 (-2));
               mkPathVertex 2 fall max (f32 9 (-2))]
       | 3 => [mkPathVertex 3 rise min (f32 1 (-1))]
       | _ => []
       end;
     matchesFilter := λ _ sr p,
       match from_pin sr with
       | Some (1, rf_rise) => bool_decide (pv_id p ≠ 2)
       | Some (5, rf_rise) => bool_decide (pv_id p = 2)
       | Some (5, rf_fall) => bool_decide (pv_id p = 0)
       | _ => false
       end;
     findPathEnds := λ _ q,
       if bool_decide (from_clks (q_from q) = Some {[10]})
          && match from_rf (q_from q) with rf_rise => true | _ => false end
          && bool_decide (to_pins (q_to q) = Some {[2]})
       then [mkPathEnd (10, rise) max (f32 9 (-3)) (f32 1 (-4))
                       (f32 0 0) (f32 0 0)]
       else [] |}.

Definition cell_pair : @LibertyCell spec_float :=
  mkLibertyCell "pair" "pair.lib"
    [mkLibertyPort "A" (Some dir_input) None None;
     mkLibertyPort "B" (Some dir_input) None None;
     mkLibertyPort "Z" (Some dir_output) None None;
     mkLibertyPort "Y" (Some dir_output) None None;
     mkLibertyPort "CK" (Some dir_input) None None]
    [] false.

Definition wp0 : @World spec_float :=
  mkWorld (mkSdc ∅ ∅ ∅) (mkSearch None) (lib "pair" "pair.lib" true) cell_pair [].

(** A world in which the filtered arrivals of a rising [A] are present. *)
Definition wp_rise : @World spec_float :=
  mkWorld (mkSdc ∅ ∅ ∅)
          (mkSearch (Some (mkSdc ∅ ∅ ∅, mkExceptionFrom (Some {[1]}) None None rf_rise)))
          (lib "pair" "pair.lib" true) cell_pair [].

(** The visitor as the analysis of [A] leaves it. *)
Definition visitor_after_A : @MakeEndTimingArcs spec_float :=
  eval (findTimingFromInputs_pin pair MakeEndTimingArcs_new 1) wp0.

(** Existence matrices of a buffer and of an inverter. *)
Definition od_buffer : @OutputDelays spec_float :=
  mkOutputDelays rfmm_empty
    (mkArray2 (mkArray2 true false) (mkArray2 false true)).
Definition od_inverter : @OutputDelays spec_float :=
  mkOutputDelays rfmm_empty
    (mkArray2 (mkArray2 false true) (mkArray2 true false)).

(** The setup margin of the register behind [A]: 1.5 - 0.5 + 0.25. *)
Example setup_margin_of_A :
  rfmm_value
    (margins_at
       (margins_ (foldl visit (setInputRf MakeEndTimingArcs_new rise)
                        (pathEnds block (sdc w_rise) (search w_rise) 5 0 mm_all true)))
       (10, rise)) rise max
  = Some (f32 5 (-2)).
Proof. vm_compute. reflexivity. Qed.

(** Two rising max paths reach [Z] from a rising [A], the first with
    arrival 1.75 and the second with 1.25: the max slot keeps 1.75, the
    worse, and not the one recorded last. *)
Lemma findOutputDelays_records_on_pair :
  NoDup (top_pins pair)
  ∧ (pv_arrival <$> matching_paths pair (sdc wp_rise) (search wp_rise) 2)
    = [f32 7 (-2); f32 5 (-2)]
  ∧ rfmm_value
      (delays (output_delays_at (findOutputDelays pair rise ∅ wp_rise).1 2))
      rise max
    = Some (f32 7 (-2)).
Proof.
  assert (NoDup (top_pins pair)) as Hnd by compute_done.
  split; [exact Hnd|]. split; [vm_compute; reflexivity|].
  destruct (findOutputDelays_records pair wp_rise rise ∅ Hnd) as [_ Hpins].
  destruct (Hpins 2) as (Hvalue & _ & _).
  rewrite Hvalue. vm_compute. reflexivity.
Defined.

(** Nothing reaches [Y] from [A] and [Y] has a port of its own: the
    analysis of [A] leaves no combinational arc to [Y]. *)
Lemma no_path_no_arc_on_block :
  (∀ q, q ∈ top_pins block → isOutput (pin_direction block q) = true →
        port_of block w0 q = port_of block w0 3 → q = 3)
  ∧ (∀ in_rf out_rf,
       path_exists
         (output_delays_at
            (accumulated_output_delays block MakeEndTimingArcs_new 1 w0) 3)
         in_rf out_rf = false)
  ∧ ∃ new : list TimingArcSet,
      arc_sets (cell_ (exec (findTimingFromInputs_pin block MakeEndTimingArcs_new 1) w0))
      = arc_sets (cell_ w0) ++ new
      ∧ ∀ from_port related_out to_rise to_fall attrs,
          CombinationalArcs from_port (Some "Y") related_out to_rise to_fall attrs
            ∉ new.
Proof.
  assert (∀ q, q ∈ top_pins block → isOutput (pin_direction block q) = true →
            port_of block w0 q = port_of block w0 3 → q = 3) as Hinj.
  { intros q Hq Hout Hport. cbn in Hq.
    repeat (apply elem_of_cons in Hq as [->|Hq]); try done.
    by apply elem_of_nil in Hq. }
  assert (∀ in_rf out_rf,
            path_exists
              (output_delays_at
                 (accumulated_output_delays block MakeEndTimingArcs_new 1 w0) 3)
              in_rf out_rf = false) as Hnone.
  { intros [] []; vm_compute; reflexivity. }
  split; [exact Hinj|]. split; [exact Hnone|].
  exact (proj1 (no_path_no_arc block w0 MakeEndTimingArcs_new 1 3 Hinj Hnone)).
Defined.

(** C7 does not hold as stated: from a rising [A] only rise→rise
    reaches [Z] (exactly one direct combination, no cross term), and
    the arc emitted from [A] to [Z] is tagged non-unate, not
    positive-unate. *)
Lemma one_direct_combination_is_non_unate :
  (let od := output_delays_at
               (accumulated_output_delays block MakeEndTimingArcs_new 1 w0) 2 in
   (path_exists od rise rise, path_exists od rise fall,
    path_exists od fall rise, path_exists od fall fall)
   = (true, false, false, false))
  ∧ combinational_arcs (cell_ (exec (findTimingFromInputs block) w0))
    = [(Some "A", Some "Z", non_unate)].
Proof. split; vm_compute; reflexivity. Qed.

(** C5 does not hold as stated: with output pins [Z] and [Y] and
    the virtual clock 11 as the only clock, [findClkedOutputPaths]
    installs no output delay and asks no query at all. *)
Lemma virtual_clock_is_never_queried :
  clocks virtual_only = [11]
  ∧ filter (λ p, isOutput (pin_direction virtual_only p)) (top_pins virtual_only)
    = [2; 3]
  ∧ clock_pins virtual_only 11 = []
  ∧ trace (exec (findClkedOutputPaths virtual_only) w0) = [].
Proof. split_and!; vm_compute; reflexivity. Qed.

(** C9 does not hold as stated: the library of [w_bare] has no
    "scalar" template, and both builders still return a model, with no
    template in it. *)
Lemma scalar_model_without_template :
  findTableTemplate (library_ w_bare) "scalar" tt_delay = None
  ∧ eval (makeScalarCheckModel (f32 5 (-2)) sf_setup rise) w_bare
    = CheckTableModel (mkTableModel (Table0 (f32 5 (-2))) None sf_setup rise) None
  ∧ eval (makeScalarGateModel (f32 7 (-2)) (f32 1 (-4)) rise) w_bare
    = GateTableModel (mkTableModel (Table0 (f32 7 (-2))) None sf_cell rise) None
                     (mkTableModel (Table0 (f32 1 (-4))) None sf_cell rise) None.
Proof. split_and!; vm_compute; reflexivity. Qed.

(** ** The further properties on the block *)

(** The visitor that analysed [A] holds the setup margin of [A] against
    the rising clock edge.  Handed on to the analysis of [B], it ends up
    bound to [B], without that margin and with the hold margin of [B]
    against the falling edge: 0.5 - 0.5 + 0.125. *)
Lemma margins_of_analysed_input_on_pair :
  analysed_input pair 5 = true
  ∧ rfmm_value (margins_at (margins_ visitor_after_A) (10, rise)) rise max
    = Some (f32 5 (-2))
  ∧ (let v' := eval (findTimingFromInputs_pin pair visitor_after_A 5) wp0 in
     input_pin_ v' = Some 5
     ∧ rfmm_value (margins_at (margins_ v') (10, rise)) rise max = None
     ∧ rfmm_value (margins_at (margins_ v') (10, fall)) fall min
       = Some (f32 1 (-3))).
Proof.
  assert (analysed_input pair 5 = true) as Hin by reflexivity.
  split; [exact Hin|]. split; [vm_compute; reflexivity|].
  destruct (margins_of_analysed_input pair wp0 visitor_after_A 5 Hin)
    as [Hpin Hslots].
  split; [exact Hpin|].
  rewrite !Hslots. split; vm_compute; reflexivity.
Defined.

(** From [A], only the rise search records paths to [Z], both rising:
    the max slot of [Z] rising holds 1.75, the arrival of the first. *)
Lemma accumulated_output_delays_records_on_pair :
  NoDup (top_pins pair)
  ∧ (let od := output_delays_at
                 (accumulated_output_delays pair MakeEndTimingArcs_new 1 wp0) 2 in
     rfmm_value (delays od) rise max = Some (f32 7 (-2))
     ∧ path_exists od rise rise = true
     ∧ path_exists od fall rise = false).
Proof.
  assert (NoDup (top_pins pair)) as Hnd by compute_done.
  split; [exact Hnd|].
  destruct (accumulated_output_delays_records pair wp0 MakeEndTimingArcs_new 1
              Hnd 2) as (Hvalue & Hex & _).
  cbn zeta. rewrite Hvalue, !Hex. split_and!; vm_compute; reflexivity.
Defined.

(** An inverter is a buffer with the output transitions exchanged. *)
Lemma timingSense_inverts_on_inverter :
  (∀ in_rf out_rf,
     path_exists od_inverter in_rf out_rf
     = path_exists od_buffer in_rf (opposite out_rf))
  ∧ timingSense od_inverter = negative_unate.
Proof.
  assert (∀ in_rf out_rf,
            path_exists od_inverter in_rf out_rf
            = path_exists od_buffer in_rf (opposite out_rf)) as Hswap
    by (intros [] []; reflexivity).
  split; [exact Hswap|].
  exact (timingSense_inverts od_buffer od_inverter (or_introl Hswap)).
Defined.

(** The four ports of the block are scalar and named apart. *)
Lemma scalar_ports_built_on_block :
  (∀ port, port ∈ top_ports block → isBus block port = false)
  ∧ NoDup (port_name block <$> top_ports block)
  ∧ lp_name <$> cell_ports
                  (cell_ (exec (makeTimingModel block "block" "block.lib") w0))
    = ["A"; "Z"; "Y"; "CK"].
Proof.
  assert (∀ port, port ∈ top_ports block → isBus block port = false) as Hscalar
    by (intros; reflexivity).
  assert (NoDup (port_name block <$> top_ports block)) as Hnd by compute_done.
  split; [exact Hscalar|]. split; [exact Hnd|].
  rewrite (scalar_ports_built block "block" "block.lib" w0 Hscalar Hnd).
  vm_compute. reflexivity.
Defined.

(** [w0] and [w_bare] differ in their library only. *)
Lemma stale_state_is_ignored_on_block :
  sdc w0 = sdc w_bare
  ∧ search w0 = search w_bare
  ∧ library_ w0 ≠ library_ w_bare
  ∧ eval (makeTimingModel block "block" "block.lib") w0
    = eval (makeTimingModel block "block" "block.lib") w_bare.
Proof.
  assert (sdc w0 = sdc w_bare) as Hs by reflexivity.
  assert (search w0 = search w_bare) as Hsr by reflexivity.
  split; [exact Hs|]. split; [exact Hsr|]. split.
  - intros H. apply (f_equal (λ l, template_maps l tt_delay !! "scalar")) in H.
    vm_compute in H. discriminate H.
  - exact (proj1 (stale_state_is_ignored block "block" "block.lib" w0 w_bare
                    Hs Hsr)).
Defined.

(** [w0] holds no constraint at all. *)
Lemma second_run_gives_same_model_on_block :
  (∀ k, k ∈ run_input_keys block → input_delays (sdc w0) !! k = None)
  ∧ (∀ k, k ∈ run_output_keys block → output_delays (sdc w0) !! k = None)
  ∧ cell_ (exec (makeTimingModel block "block" "block.lib")
                (exec (makeTimingModel block "block" "block.lib") w0))
    = cell_ (exec (makeTimingModel block "block" "block.lib") w0).
Proof.
  assert (∀ k, k ∈ run_input_keys block → input_delays (sdc w0) !! k = None)
    as Hin by (intros k _; apply lookup_empty).
  assert (∀ k, k ∈ run_output_keys block → output_delays (sdc w0) !! k = None)
    as Hout by (intros k _; apply lookup_empty).
  split; [exact Hin|]. split; [exact Hout|].
  exact (proj1 (proj2 (second_run_gives_same_model block "block" "block.lib" w0
                         Hin Hout))).
Defined.

(** The setup check of the register behind [A] against the rising edge
    of clock 10 becomes a setup arc from [CK] to [A]. *)
Lemma check_seen_becomes_arc_on_block :
  analysed_input block 1 = true
  ∧ 4 ∈ clock_pins block 10
  ∧ ∃ attrs,
      FromTransitionArcs (Some "CK") (Some "A") None rise role_setup attrs
        ∈ arc_sets (cell_ (exec (findTimingFromInputs_pin block
                                   MakeEndTimingArcs_new 1) w0)).
Proof.
  assert (analysed_input block 1 = true) as Hin by reflexivity.
  assert (4 ∈ clock_pins block 10) as Hclk by (cbn; left).
  split; [exact Hin|]. split; [exact Hclk|].
  pose proof (check_seen_becomes_arc block w0 MakeEndTimingArcs_new 1
                (10, rise) max 4 Hin) as H.
  cbn zeta in H. destruct H as (attrs & Harc & _).
  - exists rise, (mkPathEnd (10, rise) max (f32 3 (-1)) (f32 1 (-4))
                            (f32 1 (-1)) (f32 1 (-2))).
    split; [|reflexivity].
    assert (visited_ends block (sdc w0) 1 rise
            = [mkPathEnd (10, rise) max (f32 3 (-1)) (f32 1 (-4))
                         (f32 1 (-1)) (f32 1 (-2));
               mkPathEnd (10, rise) min (f32 1 (-1)) (f32 1 (-4))
                         (f32 1 (-1)) (f32 1 (-3))]) as ->
      by (vm_compute; reflexivity).
    left.
  - exact Hclk.
  - exists attrs. exact Harc.
Defined.

(** The rising max paths from [A] to [Z] become a combinational arc
    from [A] to [Z] whose rise model is that of arrival 1.75; the min
    path to [Y] gives [Y] an entry and no arc. *)
Lemma path_seen_becomes_arc_on_pair :
  NoDup (top_pins pair)
  ∧ analysed_input pair 1 = true
  ∧ (∃ attrs,
       CombinationalArcs (Some "A") (Some "Z") None true true attrs
         ∈ arc_sets (cell_ (exec (findTimingFromInputs_pin pair
                                    MakeEndTimingArcs_new 1) wp0))
       ∧ aget (models attrs) (RF.index rise)
         = Some (scalar_gate_model wp0 (f32 7 (-2)) (f32 1 (-4)) rise))
  ∧ is_Some (accumulated_output_delays pair MakeEndTimingArcs_new 1 wp0 !! 3)
  ∧ ∃ new : list TimingArcSet,
      arc_sets (cell_ (exec (findTimingFromInputs_pin pair
                               MakeEndTimingArcs_new 1) wp0))
      = arc_sets (cell_ wp0) ++ new
      ∧ ∀ from_port related_out to_rise to_fall attrs,
          CombinationalArcs from_port (Some "Y") related_out to_rise to_fall
                            attrs ∉ new.
Proof.
  assert (NoDup (top_pins pair)) as Hnd by compute_done.
  assert (analysed_input pair 1 = true) as Hin by reflexivity.
  assert (recorded_paths pair (sdc wp0) 1 rise 2
          = [mkPathVertex 0 rise max (f32 7 (-2));
             mkPathVertex 1 rise max (f32 5 (-2))]) as HZ
    by (vm_compute; reflexivity).
  assert (recorded_paths pair (sdc wp0) 1 rise 3
          = [mkPathVertex 3 rise min (f32 1 (-1))]) as HY
    by (vm_compute; reflexivity).
  assert (recorded_paths pair (input_sdc_done pair (sdc wp0) 1 rise) 1 fall 3
          = []) as HYf
    by (vm_compute; reflexivity).
  split; [exact Hnd|]. split; [exact Hin|]. split; [|split].
  - pose proof (path_seen_becomes_arc pair wp0 MakeEndTimingArcs_new 1 2
                  Hnd Hin) as H.
    cbn zeta in H. destruct H as [H _]. destruct H as (attrs & Harc & _ & Hm).
    + exists (mkPathVertex 0 rise max (f32 7 (-2))). split; [|reflexivity].
      apply elem_of_app. left. rewrite HZ. left.
    + exists attrs. split; [exact Harc|]. rewrite Hm. vm_compute. reflexivity.
  - pose proof (path_seen_becomes_arc pair wp0 MakeEndTimingArcs_new 1 3
                  Hnd Hin) as H.
    cbn zeta in H. destruct H as (_ & H & _). apply H. by rewrite HY.
  - pose proof (path_seen_becomes_arc pair wp0 MakeEndTimingArcs_new 1 3
                  Hnd Hin) as H.
    cbn zeta in H. destruct H as (_ & _ & H). apply H.
    + rewrite HY, HYf. intros p Hp. apply list_elem_of_singleton in Hp.
      by rewrite Hp.
    + intros q Hq Hout Hport. cbn in Hq.
      repeat (apply elem_of_cons in Hq as [->|Hq]); try done.
      by apply elem_of_nil in Hq.
Defined.

(** [A] and [B] are analysed independently: the arcs of the whole
    analysis are the setup arc and the arc to [Z] of [A] alone, followed
    by the hold arc and the arc to [Z] of [B] alone. *)
Lemma inputs_analysed_independently_on_pair :
  (∀ k, k ∈ run_input_keys pair → input_delays (sdc wp0) !! k = None)
  ∧ analysed_inputs pair = [1; 5]
  ∧ arc_sets (cell_ (exec (findTimingFromInputs pair) wp0))
    = input_arcs pair wp0 1 ++ input_arcs pair wp0 5
  ∧ length (input_arcs pair wp0 1) = 2
  ∧ length (input_arcs pair wp0 5) = 2.
Proof.
  assert (∀ k, k ∈ run_input_keys pair → input_delays (sdc wp0) !! k = None)
    as Hin by (intros k _; apply lookup_empty).
  split; [exact Hin|]. split; [vm_compute; reflexivity|].
  split; [|split; vm_compute; reflexivity].
  rewrite (proj2 (inputs_analysed_independently pair wp0 Hin)).
  vm_compute. reflexivity.
Defined.

(** The clock-to-output queries of the block give the constraints back. *)
Lemma clocked_outputs_in_closed_form_on_block :
  (∀ k, k ∈ run_output_keys block → output_delays (sdc w0) !! k = None)
  ∧ sdc (exec (findClkedOutputPaths block) w0) = sdc w0.
Proof.
  assert (∀ k, k ∈ run_output_keys block → output_delays (sdc w0) !! k = None)
    as Hout by (intros k _; apply lookup_empty).
  split; [exact Hout|].
  exact (proj1 (clocked_outputs_in_closed_form block w0 Hout)).
Defined.

(** The model of the block has four arc sets: setup and hold of [A]
    against [CK], [A] to [Z], and [CK] to [Z]. *)
Lemma model_arcs_in_closed_form_on_block :
  (∀ k, k ∈ run_input_keys block → input_delays (sdc w0) !! k = None)
  ∧ (∀ k, k ∈ run_output_keys block → output_delays (sdc w0) !! k = None)
  ∧ length (arc_sets
              (cell_ (exec (makeTimingModel block "block" "block.lib") w0)))
    = 4.
Proof.
  assert (∀ k, k ∈ run_input_keys block → input_delays (sdc w0) !! k = None)
    as Hin by (intros k _; apply lookup_empty).
  assert (∀ k, k ∈ run_output_keys block → output_delays (sdc w0) !! k = None)
    as Hout by (intros k _; apply lookup_empty).
  split; [exact Hin|]. split; [exact Hout|].
  rewrite (model_arcs_in_closed_form block "block" "block.lib" w0 Hin Hout).
  vm_compute. reflexivity.
Defined.

End Demo.
